(** * SnapCut: the expansion engine of the key listener

  A shallow embedding of the key listener (module variables [buffer],
  [snippetMap], [shortcutList], [uiohook], [active], [expanding],
  [popSoundPath]; functions [playPopSound], [runExpansion],
  [checkBufferMatch], [updateSnippets], [startKeyListener],
  [stopKeyListener] and the [keydown] handler) and of
  [incrementUsage] of the database module, followed by the properties of
  the engine.

  JavaScript runs every callback to completion on one thread, so each
  callback is a function on the state of the world, and the event loop
  is a step function over the callbacks that are pending. *)

From Stdlib Require Import ZArith NArith Ascii String Lia.
From stdpp Require Import base tactics list strings gmap sorting.

(** ** JavaScript values used by the listener *)

Module Js.

(** A string is its sequence of code units.  The model covers the code
    units U+0000..U+00FF (one [ascii] each); on these [toLowerCase]
    maps a code unit to a code unit. *)
Abbreviation jsstring := (list ascii).

Definition js (s : string) : jsstring := list_ascii_of_string s.

(** [String.prototype.toLowerCase] on U+0000..U+00FF: A-Z and the
    Latin-1 capitals U+00C0..U+00DE (without the sign U+00D7) move up
    by 32. *)
Definition toLowerCase_unit (c : ascii) : ascii :=
  let n := N_of_ascii c in
  if ((65 <=? n) && (n <=? 90)
      || (192 <=? n) && (n <=? 222) && negb (n =? 215))%N
  then ascii_of_N (n + 32)
  else c.

Definition toLowerCase (s : jsstring) : jsstring := toLowerCase_unit <$> s.

(** The clamping of a relative index in [String.prototype.slice]. *)
Definition relative_index (len : nat) (i : Z) : nat :=
  if (i <? 0)%Z then Z.to_nat (Z.max (Z.of_nat len + i) 0)
  else Z.to_nat (Z.min i (Z.of_nat len)).

(** [s.slice(start, end)]; [None] is an omitted [end]. *)
Definition slice (s : jsstring) (start : Z) (end_ : option Z) : jsstring :=
  let len := length s in
  let from := relative_index len start in
  let to := match end_ with
            | None => len
            | Some e => relative_index len e
            end in
  take (to - from) (drop from s).

(** [s.endsWith(search)]: the search string is compared with the
    substring that starts [search.length] before the end; a negative
    start gives [false]. *)
Definition endsWith (s search : jsstring) : bool :=
  if length s <? length search then false
  else bool_decide (drop (length s - length search) s = search).

(** [Array.prototype.sort(comparefn)].  The sort is stable, and the
    comparators of the listener are consistent, so the result is the one
    of a stable insertion sort: [x], which stood before all of [l],
    passes the elements it must come after ([comparefn(x, y) > 0]). *)
Fixpoint sort_insert {A} (comparefn : A → A → Z) (x : A) (l : list A)
  : list A :=
  match l with
  | [] => [x]
  | y :: l' =>
      if (0 <? comparefn x y)%Z then y :: sort_insert comparefn x l'
      else x :: l
  end.

Definition Array_sort {A} (comparefn : A → A → Z) (l : list A) : list A :=
  foldr (sort_insert comparefn) [] l.

(** An object used as a map: its own properties in creation order. *)
Definition object (V : Type) : Type := list (jsstring * V).

Fixpoint obj_get {V} (k : jsstring) (o : object V) : option V :=
  match o with
  | [] => None
  | (k', v) :: o' => if bool_decide (k' = k) then Some v else obj_get k o'
  end.

(** Writing an own property: an existing key keeps its place, a new key
    goes last. *)
Fixpoint obj_set {V} (k : jsstring) (v : V) (o : object V) : object V :=
  match o with
  | [] => [(k, v)]
  | (k', v') :: o' =>
      if bool_decide (k' = k) then (k, v) :: o'
      else (k', v') :: obj_set k v o'
  end.

(** [o[k] = v] on an object created by [{}].  The key [__proto__] is the
    accessor inherited from [Object.prototype]: the assignment sets the
    prototype and creates no own property. *)
Definition assign {V} (k : jsstring) (v : V) (o : object V) : object V :=
  if bool_decide (k = js "__proto__") then o else obj_set k v o.

Definition digit_value (c : ascii) : option N :=
  let n := N_of_ascii c in
  if ((48 <=? n) && (n <=? 57))%N then Some (n - 48)%N else None.

Fixpoint parse_digits (acc : N) (s : jsstring) : option N :=
  match s with
  | [] => Some acc
  | c :: s' =>
      match digit_value c with
      | Some d => parse_digits (acc * 10 + d)%N s'
      | None => None
      end
  end.

(** An array index is a canonical numeric string below 2^32 - 1. *)
Definition array_index (k : jsstring) : option N :=
  match k with
  | [] => None
  | c :: rest =>
      if bool_decide (c = "0"%char) && negb (bool_decide (rest = []))
      then None
      else match parse_digits 0 k with
           | Some n => if (n <=? 4294967294)%N then Some n else None
           | None => None
           end
  end.

Definition indexed (k : jsstring) : option (N * jsstring) :=
  match array_index k with
  | Some n => Some (n, k)
  | None => None
  end.

(** [Object.keys(o)]: the array indices in ascending numeric order, then
    the other keys in creation order. *)
Definition Object_keys {V} (o : object V) : list jsstring :=
  let ks := fst <$> o in
  (snd <$> Array_sort (λ a b, Z.of_N (fst a) - Z.of_N (fst b))%Z
             (omap indexed ks))
  ++ filter (λ k, array_index k = None) ks.

End Js.

Import Js.

(** ** The database module: [incrementUsage] *)

Module Database.

(** A row of table [snippets], keyed by its primary key [id] (the
    timestamp columns are not touched by [incrementUsage] and are left
    out). *)
Record Row := {
  row_shortcut : jsstring;
  row_title : jsstring;
  row_body : jsstring;
  row_category : jsstring;
  usage_count : Z
}.

(** A row of table [expansion_log]: the four columns of the INSERT (the
    key and the time stamp are filled in by their defaults). *)
Record LogRecord := {
  snippet_id : Z;
  log_shortcut : jsstring;
  chars_expanded : nat;
  chars_shortcut : nat
}.

Record Db := {
  snippets : gmap Z Row;
  expansion_log : list LogRecord
}.

(** The values of a 64-bit INTEGER.  A counter outside this range stands
    for the REAL of that size. *)
Definition int64 (z : Z) : bool := ((- 2 ^ 63 <=? z) && (z <? 2 ^ 63))%Z.

(** [usage_count + 1] as SQLite computes it: the sum of two INTEGERs is an
    INTEGER unless it leaves the 64-bit range, when it is the REAL
    9223372036854775808.0; to a REAL of that size and beyond the addition of
    1 makes no difference, the next REAL being 2048 away. *)
Definition bump (r : Row) : Row :=
  {| row_shortcut := row_shortcut r;
     row_title := row_title r;
     row_body := row_body r;
     row_category := row_category r;
     usage_count :=
       if int64 (usage_count r) then usage_count r + 1 else usage_count r |}.

(** UPDATE snippets SET usage_count = usage_count + 1 WHERE id = ? *)
Definition update_usage (id : Z) (d : Db) : Db :=
  {| snippets := alter bump id (snippets d);
     expansion_log := expansion_log d |}.

(** INSERT INTO expansion_log (snippet_id, shortcut, chars_expanded,
    chars_shortcut) VALUES (id, shortcut, body.length, shortcut.length) *)
Definition insert_log (id : Z) (r : Row) (d : Db) : Db :=
  {| snippets := snippets d;
     expansion_log :=
       expansion_log d ++
       [ {| snippet_id := id;
            log_shortcut := row_shortcut r;
            chars_expanded := length (row_body r);
            chars_shortcut := length (row_shortcut r) |} ] |}.

Definition incrementUsage (id : Z) (d : Db) : Db :=
  let d1 := update_usage id d in
  match snippets d1 !! id with
  | Some snippet => insert_log id snippet d1
  | None => d1
  end.

End Database.

(** ** The key listener *)

Module KeyListener.

Import Database.

(** A snippet object as the listener reads it (a row of table [snippets]:
    the listener uses [id], [shortcut] and [body]). *)
Record Snippet := {
  id : Z;
  shortcut : jsstring;
  body : jsstring
}.

(** The result of [checkBufferMatch]; [snippet] is [snippetMap[key]], which
    is [undefined] ([None]) when the map has no such key. *)
Record Match := {
  snippet : option Snippet;
  matchLen : nat
}.

(** A native image is its bitmap; the empty image has none. *)
Definition NativeImage : Type := list N.

Definition isEmpty (img : NativeImage) : bool := bool_decide (img = []).

(** The system clipboard as the clipboard module shows it: [readImage]
    and [readText] return the two fields, and every write replaces the
    whole contents. *)
Record Clipboard := {
  image : NativeImage;
  text : jsstring
}.

Definition writeText (t : jsstring) : Clipboard :=
  {| image := []; text := t |}.

Definition writeImage (img : NativeImage) : Clipboard :=
  {| image := img; text := [] |}.

Definition clear : Clipboard :=
  {| image := []; text := [] |}.

(** [savedImage] and [savedText] of [runExpansion]; [None] is [null]. *)
Record Snapshot := {
  savedImage : option NativeImage;
  savedText : option jsstring
}.

(** The module variables. [uiohook] tells whether the hook object has been
    loaded. *)
Record Engine := {
  buffer : jsstring;
  snippetMap : object Snippet;
  shortcutList : list jsstring;
  uiohook : bool;
  active : bool;
  expanding : bool;
  popSoundPath : option jsstring
}.

(** The closure passed to [setImmediate] by the keydown handler. *)
Record Immediate := {
  imm_deleteCount : nat;
  imm_snippet : option Snippet
}.

(** A running [osascript] child with the callback of [execFile], which
    has captured the saved clipboard. *)
Record Process := {
  proc_deleteCount : nat;
  proc_saved : Snapshot
}.

(** The listener in its environment.  [immediates], [processes] and
    [timers] are the callbacks that are pending; [tones] counts the pop
    sounds started and [detections] the calls of [checkBufferMatch] (both
    only observe).  [handlers] is the number of keydown handlers registered
    on the hook object, and [spawn_errors] the number of [afplay] children
    that could not be started and whose [error] event is still to come. *)
Record World := {
  vars : Engine;
  clipboard : Clipboard;
  database : Db;
  immediates : list Immediate;
  processes : list Process;
  timers : list Snapshot;
  tones : nat;
  detections : nat;
  handlers : nat;
  spawn_errors : nat
}.

(** What the environment does to the calls of one expansion: which of
    them throw, and whether the [afplay] child can be started. *)
Inductive UsageFault :=
| UsageOk
| UsageThrowsEarly   (* [require] or the UPDATE throws *)
| UsageThrowsLate.   (* the SELECT or the INSERT throws, after the UPDATE *)

Record Faults := {
  spawn_throws : bool;         (* spawn('afplay') throws *)
  spawn_fails : bool;          (* it returns a child that cannot be started *)
  readImage_throws : bool;
  readText_throws : bool;
  writeText_throws : bool;
  usage_fault : UsageFault
}.

(** What the environment does to one call of [startKeyListener]. *)
Record StartEnv := {
  tmpPath : jsstring;          (* path.join(os.tmpdir(), 'snapcut-pop.wav') *)
  writeFile_throws : bool;
  require_throws : bool;       (* require('uiohook-napi') *)
  start_throws : bool          (* uiohook.start() *)
}.

(** A keydown event of the hook. The handler reads [keycode] only. *)
Record KeyEvent := {
  keycode : Z;
  shiftKey : bool;
  ctrlKey : bool;
  altKey : bool;
  metaKey : bool
}.

Inductive Outcome :=
| Returned (w : World)
| Threw (w : World).

Definition world_of (o : Outcome) : World :=
  match o with
  | Returned w => w
  | Threw w => w
  end.

(** *** Assignments *)

Definition with_buffer (b : jsstring) (g : Engine) : Engine :=
  {| buffer := b; snippetMap := snippetMap g; shortcutList := shortcutList g;
     uiohook := uiohook g; active := active g; expanding := expanding g;
     popSoundPath := popSoundPath g |}.

Definition with_index (m : object Snippet) (l : list jsstring) (g : Engine)
  : Engine :=
  {| buffer := buffer g; snippetMap := m; shortcutList := l;
     uiohook := uiohook g; active := active g; expanding := expanding g;
     popSoundPath := popSoundPath g |}.

Definition with_uiohook (b : bool) (g : Engine) : Engine :=
  {| buffer := buffer g; snippetMap := snippetMap g;
     shortcutList := shortcutList g;
     uiohook := b; active := active g; expanding := expanding g;
     popSoundPath := popSoundPath g |}.

Definition with_active (b : bool) (g : Engine) : Engine :=
  {| buffer := buffer g; snippetMap := snippetMap g;
     shortcutList := shortcutList g;
     uiohook := uiohook g; active := b; expanding := expanding g;
     popSoundPath := popSoundPath g |}.

Definition with_expanding (b : bool) (g : Engine) : Engine :=
  {| buffer := buffer g; snippetMap := snippetMap g;
     shortcutList := shortcutList g;
     uiohook := uiohook g; active := active g; expanding := b;
     popSoundPath := popSoundPath g |}.

Definition with_popSoundPath (p : option jsstring) (g : Engine) : Engine :=
  {| buffer := buffer g; snippetMap := snippetMap g;
     shortcutList := shortcutList g;
     uiohook := uiohook g; active := active g; expanding := expanding g;
     popSoundPath := p |}.

Definition on_vars (f : Engine → Engine) (w : World) : World :=
  {| vars := f (vars w); clipboard := clipboard w; database := database w;
     immediates := immediates w; processes := processes w;
     timers := timers w; tones := tones w; detections := detections w;
     handlers := handlers w; spawn_errors := spawn_errors w |}.

Definition with_clipboard (c : Clipboard) (w : World) : World :=
  {| vars := vars w; clipboard := c; database := database w;
     immediates := immediates w; processes := processes w;
     timers := timers w; tones := tones w; detections := detections w;
     handlers := handlers w; spawn_errors := spawn_errors w |}.

Definition with_database (d : Db) (w : World) : World :=
  {| vars := vars w; clipboard := clipboard w; database := d;
     immediates := immediates w; processes := processes w;
     timers := timers w; tones := tones w; detections := detections w;
     handlers := handlers w; spawn_errors := spawn_errors w |}.

Definition with_immediates (l : list Immediate) (w : World) : World :=
  {| vars := vars w; clipboard := clipboard w; database := database w;
     immediates := l; processes := processes w;
     timers := timers w; tones := tones w; detections := detections w;
     handlers := handlers w; spawn_errors := spawn_errors w |}.

Definition with_processes (l : list Process) (w : World) : World :=
  {| vars := vars w; clipboard := clipboard w; database := database w;
     immediates := immediates w; processes := l;
     timers := timers w; tones := tones w; detections := detections w;
     handlers := handlers w; spawn_errors := spawn_errors w |}.

Definition with_timers (l : list Snapshot) (w : World) : World :=
  {| vars := vars w; clipboard := clipboard w; database := database w;
     immediates := immediates w; processes := processes w;
     timers := l; tones := tones w; detections := detections w;
     handlers := handlers w; spawn_errors := spawn_errors w |}.

Definition with_tones (n : nat) (w : World) : World :=
  {| vars := vars w; clipboard := clipboard w; database := database w;
     immediates := immediates w; processes := processes w;
     timers := timers w; tones := n; detections := detections w;
     handlers := handlers w; spawn_errors := spawn_errors w |}.

Definition with_detections (n : nat) (w : World) : World :=
  {| vars := vars w; clipboard := clipboard w; database := database w;
     immediates := immediates w; processes := processes w;
     timers := timers w; tones := tones w; detections := n;
     handlers := handlers w; spawn_errors := spawn_errors w |}.

Definition with_handlers (n : nat) (w : World) : World :=
  {| vars := vars w; clipboard := clipboard w; database := database w;
     immediates := immediates w; processes := processes w;
     timers := timers w; tones := tones w; detections := detections w;
     handlers := n; spawn_errors := spawn_errors w |}.

Definition with_spawn_errors (n : nat) (w : World) : World :=
  {| vars := vars w; clipboard := clipboard w; database := database w;
     immediates := immediates w; processes := processes w;
     timers := timers w; tones := tones w; detections := detections w;
     handlers := handlers w; spawn_errors := n |}.

(** Scheduling: [setImmediate(cb)], [execFile(..., cb)] and
    [setTimeout(cb, 150)] put a callback behind the pending ones. *)
Definition setImmediate (t : Immediate) (w : World) : World :=
  with_immediates (immediates w ++ [t]) w.

Definition execFile (p : Process) (w : World) : World :=
  with_processes (processes w ++ [p]) w.

Definition setTimeout (s : Snapshot) (w : World) : World :=
  with_timers (timers w ++ [s]) w.

(** *** The pop sound *)

(** [!popSoundPath]: [null] and the empty string are falsy. *)
Definition falsy (p : option jsstring) : bool :=
  match p with
  | Some (_ :: _) => false
  | _ => true
  end.

(** [generatePopSound]: the samples are written to the temporary file;
    the path is kept when the write succeeds. *)
Definition generatePopSound (env : StartEnv) (w : World) : World :=
  if writeFile_throws env then w
  else on_vars (with_popSoundPath (Some (tmpPath env))) w.

(** [playPopSound]: an exception of [spawn] is caught.  A child that
    cannot be started is returned all the same; its [error] event comes in a
    later turn, and no listener is put on the child. *)
Definition playPopSound (f : Faults) (w : World) : World :=
  if falsy (popSoundPath (vars w)) then w
  else if spawn_throws f then w
  else if spawn_fails f then with_spawn_errors (S (spawn_errors w)) w
  else with_tones (S (tones w)) w.

(** *** The key codes *)

Definition KEYCODE_MAP : list (Z * jsstring) :=
  [ (30, js "a"); (48, js "b"); (46, js "c"); (32, js "d"); (18, js "e");
    (33, js "f"); (34, js "g"); (35, js "h"); (23, js "i"); (36, js "j");
    (37, js "k"); (38, js "l"); (50, js "m"); (49, js "n"); (24, js "o");
    (25, js "p"); (16, js "q"); (19, js "r"); (31, js "s"); (20, js "t");
    (22, js "u"); (47, js "v"); (17, js "w"); (45, js "x"); (21, js "y");
    (44, js "z");
    (11, js "0"); (2, js "1"); (3, js "2"); (4, js "3"); (5, js "4");
    (6, js "5"); (7, js "6"); (8, js "7"); (9, js "8"); (10, js "9");
    (12, js "-"); (13, js "="); (26, js "["); (27, js "]"); (43, js "\");
    (39, js ";"); (40, js "'"); (51, js ","); (52, js "."); (53, js "/") ]%Z.

(** [KEYCODE_MAP[code]]; [None] is [undefined]. Every value of the table
    is a non-empty string, so [!char] holds exactly for [None]. *)
Fixpoint table_get (code : Z) (t : list (Z * jsstring)) : option jsstring :=
  match t with
  | [] => None
  | (c, s) :: t' => if (c =? code)%Z then Some s else table_get code t'
  end.

Arguments table_get : simpl never.

Definition BACKSPACE : Z := 14.

(** [[57, 28, 15, 1].includes(code)]: space, enter, tab, escape. *)
Definition boundary (code : Z) : bool :=
  bool_decide (code ∈ [57; 28; 15; 1]%Z).

(** *** The shortcut index *)

Definition build_map (snippets : list Snippet) : object Snippet :=
  fold_left (λ m s, assign (toLowerCase (shortcut s)) s m) snippets [].

(** [(a, b) => b.length - a.length] *)
Definition longest_first (a b : jsstring) : Z :=
  (Z.of_nat (length b) - Z.of_nat (length a))%Z.

Definition build_list (m : object Snippet) : list jsstring :=
  Array_sort longest_first (Object_keys m).

Definition updateSnippets (snippets : list Snippet) (w : World) : World :=
  let m := build_map snippets in
  on_vars (with_index m (build_list m)) w.

Fixpoint first_suffix (lower : jsstring) (m : object Snippet)
  (keys : list jsstring) : option Match :=
  match keys with
  | [] => None
  | key :: rest =>
      if endsWith lower key
      then Some {| snippet := obj_get key m; matchLen := length key |}
      else first_suffix lower m rest
  end.

(** The loop of [checkBufferMatch] on the module variables. *)
Definition lookup_suffix (g : Engine) : option Match :=
  first_suffix (toLowerCase (buffer g)) (snippetMap g) (shortcutList g).

Definition checkBufferMatch (w : World) : option Match * World :=
  (lookup_suffix (vars w), with_detections (S (detections w)) w).

(** *** The expansion *)

Definition save_clipboard (f : Faults) (c : Clipboard) : Snapshot :=
  if readImage_throws f
  then {| savedImage := None; savedText := None |}
  else if negb (isEmpty (image c))
  then {| savedImage := Some (image c); savedText := None |}
  else if readText_throws f
  then {| savedImage := None; savedText := None |}
  else {| savedImage := None; savedText := Some (text c) |}.

(** [runExpansion].  The write of the expansion text and the call of
    [execFile] are outside any [try]; [execFile_throws] tells whether the
    latter throws instead of starting the child process. *)
Definition runExpansion (f : Faults) (execFile_throws : bool)
  (deleteCount : nat) (expandedText : jsstring) (w : World) : Outcome :=
  let w1 := playPopSound f w in
  let saved := save_clipboard f (clipboard w1) in
  if writeText_throws f then Threw w1
  else
    let w2 := with_clipboard (writeText expandedText) w1 in
    if execFile_throws then Threw w2
    else
      Returned
        (execFile {| proc_deleteCount := deleteCount; proc_saved := saved |}
           w2).

(** The restore of the timer callback, inside its [try]. *)
Definition restore (restore_throws : bool) (s : Snapshot) (c : Clipboard)
  : Clipboard :=
  if restore_throws then c
  else match savedImage s with
       | Some img => writeImage img
       | None =>
           match savedText s with
           | Some t => writeText t
           | None => clear
           end
       end.

Definition timer_callback (restore_throws : bool) (s : Snapshot) (w : World)
  : World :=
  on_vars (with_expanding false)
    (with_clipboard (restore restore_throws s (clipboard w)) w).

(** The callback of [execFile]: the restore is scheduled, and an error
    unlocks at once. *)
Definition exec_callback (err : bool) (p : Process) (w : World) : World :=
  let w1 := setTimeout (proc_saved p) w in
  if err then on_vars (with_expanding false) w1 else w1.

(** [try { require('./database').incrementUsage(snippet.id) } catch {}] *)
Definition report_usage (f : Faults) (i : Z) (w : World) : World :=
  match usage_fault f with
  | UsageOk => with_database (incrementUsage i (database w)) w
  | UsageThrowsEarly => w
  | UsageThrowsLate => with_database (update_usage i (database w)) w
  end.

(** The callback passed to [setImmediate]. Reading [snippet.body] of
    [undefined] throws. *)
Definition immediate_callback (f : Faults) (execFile_throws : bool)
  (t : Immediate) (w : World) : Outcome :=
  match imm_snippet t with
  | None => Threw w
  | Some s =>
      match runExpansion f execFile_throws (imm_deleteCount t) (body s) w with
      | Returned w' => Returned (report_usage f (id s) w')
      | Threw w' => Threw w'
      end
  end.

(** *** The keydown handler *)

Definition keydown (e : KeyEvent) (w : World) : World :=
  if expanding (vars w) then w
  else if (BACKSPACE =? keycode e)%Z
  then on_vars (with_buffer (slice (buffer (vars w)) 0 (Some (-1)%Z))) w
  else
    match table_get (keycode e) KEYCODE_MAP with
    | None =>
        if boundary (keycode e) then on_vars (with_buffer []) w else w
    | Some char =>
        let w1 := on_vars (with_buffer (buffer (vars w) ++ char)) w in
        let w2 :=
          if 50 <? length (buffer (vars w1))
          then on_vars (with_buffer (slice (buffer (vars w1)) (-30) None)) w1
          else w1 in
        let (found, w3) := checkBufferMatch w2 in
        match found with
        | Some m =>
            let w4 := on_vars (with_expanding true) w3 in
            let deleteCount := matchLen m in
            let w5 :=
              setImmediate {| imm_deleteCount := deleteCount;
                              imm_snippet := snippet m |} w4 in
            on_vars (with_buffer []) w5
        | None => w3
        end
    end.

(** The hook emitting a keydown event: every handler registered on it
    runs, one after the other, in the same turn.  The handlers are all the
    same closure over the module variables. *)
Definition emit_keydown (e : KeyEvent) (w : World) : World :=
  Nat.iter (handlers w) (keydown e) w.

(** *** Start and stop *)

(** [startKeyListener].  On a listener that is not active, every call in
    which [require] succeeds registers one more handler, with
    [uiohook.on('keydown', ...)], before it calls [uiohook.start()]. *)
Definition startKeyListener (env : StartEnv) (snippets : list Snippet)
  (w : World) : World :=
  let w1 :=
    if falsy (popSoundPath (vars w)) then generatePopSound env w else w in
  if active (vars w1) then updateSnippets snippets w1
  else
    let m := build_map snippets in
    let w2 := on_vars (with_index m (build_list m)) w1 in
    let w3 := on_vars (with_buffer []) w2 in
    if require_throws env then w3
    else
      let w4 := on_vars (with_uiohook true) w3 in
      let w5 := with_handlers (S (handlers w4)) w4 in
      if start_throws env then w5
      else on_vars (with_active true) w5.

(** [stopKeyListener] stops the hook; it removes no handler. *)
Definition stopKeyListener (w : World) : World :=
  if uiohook (vars w) && active (vars w)
  then on_vars (with_active false) w
  else w.

(** *** The event loop *)

Inductive Event :=
| StartKeyListener (env : StartEnv) (snippets : list Snippet)
| UpdateSnippets (snippets : list Snippet)
| StopKeyListener
| KeyDown (e : KeyEvent)
| RunImmediate (f : Faults)
| ExecDone (i : nat) (err : bool)
| TimerFire (restore_throws : bool)
| RunImmediateNoChild (f : Faults)
| SpawnError.

(** One turn of the loop.  [KeyDown e] is a keydown event that the hook
    emits (which events it emits, and when, is up to the environment).
    [RunImmediate f] is the turn of the oldest immediate callback in which
    [execFile] starts the child process, [RunImmediateNoChild f] the one in
    which [execFile] throws.  Immediates and the timers (all of 150 ms) run
    in the order they were scheduled; the children end in any order.
    [SpawnError] is the [error] event of an [afplay] child that could not
    be started: the child has no listener for it, so the event is thrown.
    A turn for a callback that is not pending does nothing. *)
Definition step (ev : Event) (w : World) : Outcome :=
  match ev with
  | StartKeyListener env snippets => Returned (startKeyListener env snippets w)
  | UpdateSnippets snippets => Returned (updateSnippets snippets w)
  | StopKeyListener => Returned (stopKeyListener w)
  | KeyDown e => Returned (emit_keydown e w)
  | RunImmediate f =>
      match immediates w with
      | [] => Returned w
      | t :: rest => immediate_callback f false t (with_immediates rest w)
      end
  | ExecDone i err =>
      match processes w !! i with
      | None => Returned w
      | Some p =>
          Returned (exec_callback err p
                      (with_processes (delete i (processes w)) w))
      end
  | TimerFire restore_throws =>
      match timers w with
      | [] => Returned w
      | s :: rest =>
          Returned (timer_callback restore_throws s (with_timers rest w))
      end
  | RunImmediateNoChild f =>
      match immediates w with
      | [] => Returned w
      | t :: rest => immediate_callback f true t (with_immediates rest w)
      end
  | SpawnError =>
      match spawn_errors w with
      | 0 => Returned w
      | S n => Threw (with_spawn_errors n w)
      end
  end.

(** A run of the loop; after an exception that no callback caught the
    loop goes on with the state the callback left. *)
Definition run (evs : list Event) (w : World) : World :=
  fold_left (λ w ev, world_of (step ev w)) evs w.

(** The module as loaded, in some environment. *)
Definition loaded (c : Clipboard) (d : Db) : World :=
  {| vars := {| buffer := []; snippetMap := []; shortcutList := [];
                uiohook := false; active := false; expanding := false;
                popSoundPath := None |};
     clipboard := c; database := d;
     immediates := []; processes := []; timers := [];
     tones := 0; detections := 0; handlers := 0; spawn_errors := 0 |}.

Inductive Reachable : World → Prop :=
| reach_loaded c d : Reachable (loaded c d)
| reach_step ev w : Reachable w → Reachable (world_of (step ev w)).

End KeyListener.

Import Database KeyListener.

(** * Vocabulary of the properties *)

(** Longest first: every key is at least as long as every key behind it. *)
Definition not_shorter (a b : jsstring) : Prop := length b ≤ length a.

(** The characters of the key-code table, in the order of the table. *)
Definition table_chars : list ascii := mjoin (snd <$> KEYCODE_MAP).

(** The buffer after an append, as the match detector sees it. *)
Definition appended (b char : jsstring) : jsstring :=
  let b1 := b ++ char in
  if 50 <? length b1 then drop (length b1 - 30) b1 else b1.

(** The buffer after [k] appends of [char], each as the detector sees it. *)
Definition appended_times (k : nat) (b char : jsstring) : jsstring :=
  Nat.iter k (λ b', appended b' char) b.

(** The branches of the keydown handler: [Handled e w w'] relates the world
    before the handler to the world it returns. *)
Inductive Handled (e : KeyEvent) (w : World) : World → Prop :=
| handled_locked :
    expanding (vars w) = true →
    Handled e w w
| handled_backspace :
    expanding (vars w) = false →
    keycode e = BACKSPACE →
    Handled e w (on_vars (with_buffer (removelast (buffer (vars w)))) w)
| handled_boundary :
    expanding (vars w) = false →
    keycode e ≠ BACKSPACE →
    table_get (keycode e) KEYCODE_MAP = None →
    boundary (keycode e) = true →
    Handled e w (on_vars (with_buffer []) w)
| handled_other :
    expanding (vars w) = false →
    keycode e ≠ BACKSPACE →
    table_get (keycode e) KEYCODE_MAP = None →
    boundary (keycode e) = false →
    Handled e w w
| handled_miss char :
    expanding (vars w) = false →
    keycode e ≠ BACKSPACE →
    table_get (keycode e) KEYCODE_MAP = Some char →
    lookup_suffix (with_buffer (appended (buffer (vars w)) char) (vars w))
      = None →
    Handled e w
      (with_detections (S (detections w))
         (on_vars (with_buffer (appended (buffer (vars w)) char)) w))
| handled_hit char m :
    expanding (vars w) = false →
    keycode e ≠ BACKSPACE →
    table_get (keycode e) KEYCODE_MAP = Some char →
    lookup_suffix (with_buffer (appended (buffer (vars w)) char) (vars w))
      = Some m →
    Handled e w
      (on_vars (with_buffer [])
         (setImmediate {| imm_deleteCount := matchLen m;
                          imm_snippet := snippet m |}
            (on_vars (with_expanding true)
               (with_detections (S (detections w))
                  (on_vars (with_buffer (appended (buffer (vars w)) char))
                     w))))).

(** What holds of the module variables in every state the listener reaches:
    the buffer is empty while the lock is held, it has at most 50
    characters, and they are characters of the table. *)
Record Inv (g : Engine) : Prop := {
  inv_lock : expanding g = true → buffer g = [];
  inv_length : length (buffer g) ≤ 50;
  inv_chars : Forall (λ c, c ∈ table_chars) (buffer g)
}.

(** The turns of the loop that run the listener's own entry points; the
    other turns run a pending callback of an expansion. *)
Definition foreground (ev : Event) : bool :=
  match ev with
  | StartKeyListener _ _ | UpdateSnippets _ | StopKeyListener | KeyDown _ =>
      true
  | RunImmediate _ | ExecDone _ _ | TimerFire _
  | RunImmediateNoChild _ | SpawnError => false
  end.

(** The index is the one built from some snippet collection, and every
    queued expansion carries a snippet. *)
Record Indexed (w : World) : Prop := {
  idx_map : ∃ coll, snippetMap (vars w) = build_map coll;
  idx_list : shortcutList (vars w) = build_list (snippetMap (vars w));
  idx_queue : Forall (λ t, is_Some (imm_snippet t)) (immediates w)
}.

(** The lock is held and no callback is left that could release it. *)
Definition Stuck (w : World) : Prop :=
  expanding (vars w) = true ∧
  immediates w = [] ∧ processes w = [] ∧ timers w = [].

(** *** Sample inputs *)

Definition dev_snippets : list Snippet :=
  [ {| id := 1; shortcut := js "dev1"; body := js "first" |};
    {| id := 2; shortcut := js "dev12"; body := js "second" |} ].

Definition quiet_world : World :=
  loaded {| image := []; text := js "X" |}
         {| snippets := ∅; expansion_log := [] |}.

Definition press (code : Z) : KeyEvent :=
  {| keycode := code; shiftKey := false; ctrlKey := false;
     altKey := false; metaKey := false |}.

Definition no_faults : Faults :=
  {| spawn_throws := false; spawn_fails := false;
     readImage_throws := false;
     readText_throws := false; writeText_throws := false;
     usage_fault := UsageOk |}.

Definition fair_start : StartEnv :=
  {| tmpPath := js "/tmp/snapcut-pop.wav"; writeFile_throws := false;
     require_throws := false; start_throws := false |}.

(** The listener started with [dev_snippets], after the keys d, e, v, 1:
    the match has locked the engine and queued the expansion. *)
Definition typed_dev1 : World :=
  run [StartKeyListener fair_start dev_snippets;
       KeyDown (press 32); KeyDown (press 18); KeyDown (press 47);
       KeyDown (press 2)] quiet_world.

(** Fifty keys [a] typed with no shortcut registered. *)
Definition fifty_keys : World :=
  run (StartKeyListener fair_start [] :: repeat (KeyDown (press 30)) 50)
      quiet_world.

(** The state after the key [a], with no shortcut registered. *)
Definition typed_a : World :=
  run [StartKeyListener fair_start []; KeyDown (press 30)] quiet_world.

(** The keys d, e, v, 1 typed before the shortcut [dev1] is registered:
    the buffer holds [dev1] and nothing has matched. *)
Definition late_shortcut : World :=
  run [StartKeyListener fair_start [];
       KeyDown (press 32); KeyDown (press 18); KeyDown (press 47);
       KeyDown (press 2); KeyDown (press 2);
       UpdateSnippets dev_snippets] quiet_world.

(** The hook cannot be started (the permission is missing, say). *)
Definition no_permission : StartEnv :=
  {| tmpPath := js "/tmp/snapcut-pop.wav"; writeFile_throws := false;
     require_throws := false; start_throws := true |}.

(** The listener after a start in which [uiohook.start()] threw and a
    second start that succeeded (as on the next change of the snippets),
    and then the keys d, e, v. *)
Definition restarted : World :=
  run [StartKeyListener no_permission dev_snippets;
       StartKeyListener fair_start dev_snippets;
       KeyDown (press 32); KeyDown (press 18); KeyDown (press 47)]
      quiet_world.

(** An expansion in which [clipboard.writeText(expandedText)] throws. *)
Definition write_fails : Faults :=
  {| spawn_throws := false; spawn_fails := false;
     readImage_throws := false;
     readText_throws := false; writeText_throws := true;
     usage_fault := UsageOk |}.

Definition dev1_snippet : Snippet :=
  {| id := 1; shortcut := js "dev1"; body := js "first" |}.

Definition dev1_queued : Immediate :=
  {| imm_deleteCount := 4; imm_snippet := Some dev1_snippet |}.

(** An expansion in which [clipboard.readText] throws. *)
Definition read_fails : Faults :=
  {| spawn_throws := false; spawn_fails := false;
     readImage_throws := false;
     readText_throws := true; writeText_throws := false;
     usage_fault := UsageOk |}.

(** The pop sound could not be written. *)
Definition disk_full : StartEnv :=
  {| tmpPath := js "/tmp/snapcut-pop.wav"; writeFile_throws := true;
     require_throws := false; start_throws := false |}.

(** The listener started while the pop sound could not be written: it is
    active and [popSoundPath] is still [null]. *)
Definition started_silent : World :=
  run [StartKeyListener disk_full []] quiet_world.







(** * Vocabulary of the further properties *)

(** [k] occurs in [l] as a block of consecutive characters. *)
Definition occurs_in (k l : jsstring) : Prop := ∃ a b, l = a ++ k ++ b.

(** No registered shortcut, other than the empty one, occurs in the
    lower-cased buffer. *)
Definition Clean (w : World) : Prop :=
  ∀ k, k ∈ shortcutList (vars w) → k ≠ [] →
       ¬ occurs_in k (toLowerCase (buffer (vars w))).

(** [k] holds another registered shortcut that ends before [k] does. *)
Definition inside (keys : list jsstring) (k : jsstring) : Prop :=
  ∃ k' a b, k' ∈ keys ∧ k' ≠ [] ∧ b ≠ [] ∧ k = a ++ k' ++ b.

(** The turns that leave the shortcut index alone. *)
Definition keeps_index (ev : Event) : bool :=
  match ev with
  | StartKeyListener _ _ | UpdateSnippets _ => false
  | _ => true
  end.

(** What a queued expansion owes to the match that queued it. *)
Definition well_queued (t : Immediate) : Prop :=
  ∃ s, imm_snippet t = Some s ∧
       imm_deleteCount t = length (shortcut s) ∧
       length (shortcut s) ≤ 50 ∧
       Forall (λ c, c ∈ table_chars) (toLowerCase (shortcut s)).

Definition with_spawn (throws fails : bool) (f : Faults) : Faults :=
  {| spawn_throws := throws; spawn_fails := fails;
     readImage_throws := readImage_throws f;
     readText_throws := readText_throws f;
     writeText_throws := writeText_throws f; usage_fault := usage_fault f |}.

(** What holds along a run that leaves the index of [coll] alone: the
    buffer is clean, and every expansion queued since the start [w] is for
    a snippet of [coll] whose shortcut holds no other shortcut before its
    end. *)
Record Settled (coll : list Snippet) (w w' : World) : Prop := {
  settled_clean : Clean w';
  settled_map : snippetMap (vars w') = build_map coll;
  settled_list : shortcutList (vars w') = build_list (build_map coll);
  settled_queue :
    Forall (λ t, t ∈ immediates w ∨
                 ∃ s, imm_snippet t = Some s ∧ s ∈ coll ∧
                      ¬ inside (build_list (build_map coll))
                          (toLowerCase (shortcut s)))
           (immediates w')
}.

Definition all_else_fails : Faults :=
  {| spawn_throws := true; spawn_fails := false; readImage_throws := true;
     readText_throws := true; writeText_throws := false;
     usage_fault := UsageThrowsEarly |}.

(** The listener started with [dev_snippets] while the pop sound could not
    be written, after the keys d, e, v, 1. *)
Definition typed_dev1_silent : World :=
  run [StartKeyListener disk_full dev_snippets;
       KeyDown (press 32); KeyDown (press 18); KeyDown (press 47);
       KeyDown (press 2)] quiet_world.

(** As [typed_dev1], with a picture on the clipboard. *)
Definition typed_dev1_picture : World :=
  run [StartKeyListener fair_start dev_snippets;
       KeyDown (press 32); KeyDown (press 18); KeyDown (press 47);
       KeyDown (press 2)]
      (loaded {| image := [137; 80; 78; 71]%N; text := js "caption" |}
              {| snippets := ∅; expansion_log := [] |}).

(** * The rest of the database module *)

Module Storage.

(** A row of table [categories] ([created_at] left out). *)
Record Category := {
  cat_name : jsstring;
  cat_color : jsstring;
  sort_order : Z
}.

(** The tables the module works on. [snippets_seq] and [categories_seq] are
    the entries of [sqlite_sequence]: the largest key ever given out by
    AUTOINCREMENT.  [foreign_keys] is the pragma of that name; it decides
    whether ON DELETE CASCADE of [expansion_log] is carried out. *)
Record Store := {
  db : Db;
  snippets_seq : Z;
  categories : gmap Z Category;
  categories_seq : Z;
  foreign_keys : bool
}.

(** A call of the module returns a value or throws; both leave a store. *)
Inductive Result (A : Type) :=
| Ok (a : A) (st : Store)
| Throws (st : Store).

Arguments Ok {A} a st.
Arguments Throws {A} st.

Definition store_of {A} (r : Result A) : Store :=
  match r with
  | Ok _ st => st
  | Throws st => st
  end.

Definition with_db (d : Db) (st : Store) : Store :=
  {| db := d; snippets_seq := snippets_seq st;
     categories := categories st; categories_seq := categories_seq st;
     foreign_keys := foreign_keys st |}.

Definition with_snippets (m : gmap Z Row) (st : Store) : Store :=
  with_db {| snippets := m; expansion_log := expansion_log (db st) |} st.

Definition with_categories (m : gmap Z Category) (st : Store) : Store :=
  {| db := db st; snippets_seq := snippets_seq st;
     categories := m; categories_seq := categories_seq st;
     foreign_keys := foreign_keys st |}.

(** The key AUTOINCREMENT gives to a new row: one more than the largest
    key the table has or ever had. *)
Definition max_key {V} (m : gmap Z V) : Z :=
  foldr Z.max 0%Z (fst <$> map_to_list m).

Definition next_key {V} (seq : Z) (m : gmap Z V) : Z :=
  (Z.max seq (max_key m) + 1)%Z.

(** SELECT id FROM snippets WHERE shortcut = ? finds a row. *)
Definition shortcut_taken (s : jsstring) (m : gmap Z Row) : bool :=
  bool_decide (map_Exists (λ _ r, row_shortcut r = s) m).

(** [x || d] on a string that may be missing: the empty string and
    [undefined] give the default. *)
Definition or_default (x : option jsstring) (d : jsstring) : jsstring :=
  match x with
  | Some (c :: s) => c :: s
  | _ => d
  end.

(** The argument of [createSnippet] and [updateSnippet]. *)
Record SnippetForm := {
  form_shortcut : jsstring;
  form_title : jsstring;
  form_body : jsstring;
  form_category : option jsstring
}.

(** The INSERT of a row that meets the constraints: the row gets the next
    key, which [sqlite_sequence] records. *)
Definition add_row (row : Row) (st : Store) : Store :=
  let i := next_key (snippets_seq st) (snippets (db st)) in
  {| db := {| snippets := <[i := row]> (snippets (db st));
              expansion_log := expansion_log (db st) |};
     snippets_seq := i;
     categories := categories st;
     categories_seq := categories_seq st;
     foreign_keys := foreign_keys st |}.

(** INSERT INTO snippets (shortcut, title, body, category): the UNIQUE
    constraint on [shortcut] makes the statement throw; otherwise the new
    row has a usage count of 0. *)
Definition insert_snippet (shortcut title body category : jsstring)
  (st : Store) : Result Z :=
  if shortcut_taken shortcut (snippets (db st)) then Throws st
  else
    Ok (next_key (snippets_seq st) (snippets (db st)))
       (add_row {| row_shortcut := shortcut; row_title := title;
                   row_body := body; row_category := category;
                   usage_count := 0 |} st).

(** [createSnippet]: the insert, then the new row read back. *)
Definition createSnippet (f : SnippetForm) (st : Store)
  : Result (option (Z * Row)) :=
  match insert_snippet (form_shortcut f) (form_title f) (form_body f)
          (or_default (form_category f) (js "General")) st with
  | Ok i st' => Ok ((λ r, (i, r)) <$> snippets (db st') !! i) st'
  | Throws st' => Throws st'
  end.

(** [updateSnippet]: the UPDATE throws when another row has the new
    shortcut; a key without a row updates nothing.  The form's category is
    written as it is (a missing one cannot be bound and is left out of the
    model). *)
Definition updateSnippet (i : Z) (shortcut title body category : jsstring)
  (st : Store) : Result (option (Z * Row)) :=
  match snippets (db st) !! i with
  | None => Ok None st
  | Some old =>
      if shortcut_taken shortcut (delete i (snippets (db st)))
      then Throws st
      else
        let row := {| row_shortcut := shortcut; row_title := title;
                      row_body := body; row_category := category;
                      usage_count := usage_count old |} in
        Ok (Some (i, row)) (with_snippets (<[i := row]> (snippets (db st))) st)
  end.

(** [deleteSnippet]: the row goes, and with [foreign_keys] on its log
    records go too. *)
Definition deleteSnippet (i : Z) (st : Store) : Store :=
  with_db
    {| snippets := delete i (snippets (db st));
       expansion_log :=
         if foreign_keys st && bool_decide (is_Some (snippets (db st) !! i))
         then filter (λ r, snippet_id r ≠ i) (expansion_log (db st))
         else expansion_log (db st) |} st.

Definition reset_usage (r : Row) : Row :=
  {| row_shortcut := row_shortcut r; row_title := row_title r;
     row_body := row_body r; row_category := row_category r;
     usage_count := 0 |}.

(** [clearExpansionHistory]: DELETE FROM expansion_log, then
    UPDATE snippets SET usage_count = 0. *)
Definition clearExpansionHistory (st : Store) : Store :=
  with_db {| snippets := reset_usage <$> snippets (db st);
             expansion_log := [] |} st.

(** The sums and counts of [getStats] (its lists, the average and the
    setting [wpm] are left out). *)
Record Totals := {
  totalExpansions : Z;
  totalCharsExpanded : Z;
  totalCharsTyped : Z;
  keystrokesSaved : Z;
  totalSnippets : nat;
  activeSnippets : nat
}.

Definition sum_Z (l : list Z) : Z := foldr Z.add 0%Z l.

Definition getStats (st : Store) : Totals :=
  let rows := snd <$> map_to_list (snippets (db st)) in
  let log := expansion_log (db st) in
  let expanded := sum_Z ((λ r, Z.of_nat (chars_expanded r)) <$> log) in
  let typed := sum_Z ((λ r, Z.of_nat (chars_shortcut r)) <$> log) in
  {| totalExpansions := sum_Z (usage_count <$> rows);
     totalCharsExpanded := expanded;
     totalCharsTyped := typed;
     keystrokesSaved := Z.max 0 (expanded - typed);
     totalSnippets := length rows;
     activeSnippets := length (filter (λ r, (0 < usage_count r)%Z) rows) |}.

(** [exportAllSnippets().snippets]: the four columns of every row, by
    ascending key. *)
Definition key_order (a b : Z * Row) : Z := (fst a - fst b)%Z.

Definition exported (r : Row) : SnippetForm :=
  {| form_shortcut := row_shortcut r; form_title := row_title r;
     form_body := row_body r; form_category := Some (row_category r) |}.

Definition exportAllSnippets (st : Store) : list SnippetForm :=
  (exported ∘ snd) <$> Array_sort key_order (map_to_list (snippets (db st))).

(** An entry of [data.snippets] and of [data.categories] as parsed from the
    file: a field may be missing. *)
Record ImportedSnippet := {
  in_shortcut : option jsstring;
  in_title : option jsstring;
  in_body : option jsstring;
  in_category : option jsstring
}.

Record ImportedCategory := {
  in_name : jsstring;
  in_color : option jsstring
}.

(** [!x]: a missing field and the empty string are falsy. *)
Definition blank (x : option jsstring) : bool :=
  match x with
  | Some (_ :: _) => false
  | _ => true
  end.

Definition name_taken (n : jsstring) (m : gmap Z Category) : bool :=
  bool_decide (map_Exists (λ _ c, cat_name c = n) m).

(** INSERT INTO categories (name, color) of a name that is not taken. *)
Definition add_category (name color : jsstring) (st : Store) : Store :=
  let i := next_key (categories_seq st) (categories st) in
  {| db := db st; snippets_seq := snippets_seq st;
     categories := <[i := {| cat_name := name; cat_color := color;
                             sort_order := 0 |}]> (categories st);
     categories_seq := i;
     foreign_keys := foreign_keys st |}.

Definition import_category (st : Store) (c : ImportedCategory) : Store :=
  if name_taken (in_name c) (categories st) then st
  else add_category (in_name c) (or_default (in_color c) (js "#6366f1")) st.

(** One turn of the loop over [data.snippets]: the store and [imported]. *)
Definition import_snippet (acc : Store * nat) (s : ImportedSnippet)
  : Store * nat :=
  let (st, imported) := acc in
  if blank (in_shortcut s) || blank (in_title s) || blank (in_body s)
  then acc
  else
    let shortcut := default [] (in_shortcut s) in
    if shortcut_taken shortcut (snippets (db st)) then acc
    else
      match insert_snippet shortcut (default [] (in_title s))
              (default [] (in_body s))
              (or_default (in_category s) (js "General")) st with
      | Ok _ st' => (st', S imported)
      | Throws _ => acc
      end.

(** [importSnippets(data)] for a well-formed [data]: the categories, if the
    file has any, then the snippets; the result is the new store and
    [count]. *)
Definition importSnippets (cats : option (list ImportedCategory))
  (items : list ImportedSnippet) (st : Store) : Store * nat :=
  let st1 := match cats with
             | Some cs => fold_left import_category cs st
             | None => st
             end in
  fold_left import_snippet items (st1, 0).

(** The file written by an export, read back. *)
Definition reimported (f : SnippetForm) : ImportedSnippet :=
  {| in_shortcut := Some (form_shortcut f); in_title := Some (form_title f);
     in_body := Some (form_body f); in_category := form_category f |}.

(** [String.prototype.trim] on code units up to U+00FF: the white space
    and line terminators there are U+0009..U+000D, U+0020 and U+00A0. *)
Definition is_space (c : ascii) : bool :=
  let n := nat_of_ascii c in
  ((9 <=? n) && (n <=? 13)) || (n =? 32) || (n =? 160).

Fixpoint trimStart (s : jsstring) : jsstring :=
  match s with
  | c :: s' => if is_space c then trimStart s' else s
  | [] => []
  end.

Definition trim (s : jsstring) : jsstring :=
  rev (trimStart (rev (trimStart s))).

(** [createCategory]: the INSERT throws when the trimmed name is taken;
    otherwise the new row is read back. *)
Definition createCategory (name : jsstring) (color : option jsstring)
  (st : Store) : Result (option (Z * Category)) :=
  if name_taken (trim name) (categories st) then Throws st
  else
    let st' := add_category (trim name) (or_default color (js "#6366f1")) st in
    let i := categories_seq st' in
    Ok ((λ c, (i, c)) <$> categories st' !! i) st'.

(** UPDATE snippets SET category = [new] WHERE category = [old] *)
Definition recategorise (old new : jsstring) (r : Row) : Row :=
  if bool_decide (row_category r = old)
  then {| row_shortcut := row_shortcut r; row_title := row_title r;
          row_body := row_body r; row_category := new;
          usage_count := usage_count r |}
  else r.

Definition move_snippets (old new : jsstring) (st : Store) : Store :=
  with_snippets (recategorise old new <$> snippets (db st)) st.

Inductive DeleteReply := Refused | Success.

Definition deleteCategory (i : Z) (st : Store) : DeleteReply * Store :=
  match categories st !! i with
  | Some cat =>
      if bool_decide (cat_name cat = js "General") then (Refused, st)
      else
        let st1 := move_snippets (cat_name cat) (js "General") st in
        (Success, with_categories (delete i (categories st1)) st1)
  | None => (Success, with_categories (delete i (categories st)) st)
  end.

(** [renameCategory]: two statements outside any transaction; the second
    throws when another category has the new name. *)
Definition renameCategory (i : Z) (newName : jsstring) (st : Store)
  : Result (option (Z * Category)) :=
  match categories st !! i with
  | Some cat =>
      let st1 := move_snippets (cat_name cat) (trim newName) st in
      if name_taken (trim newName) (delete i (categories st1))
      then Throws st1
      else
        let c := {| cat_name := trim newName; cat_color := cat_color cat;
                    sort_order := sort_order cat |} in
        Ok (Some (i, c)) (with_categories (<[i := c]> (categories st1)) st1)
  | None => Ok None st
  end.

(** The database file as the module leaves it when it is first loaded:
    empty tables and the seeded category. *)
Definition fresh (fk : bool) : Store :=
  {| db := {| snippets := ∅; expansion_log := [] |};
     snippets_seq := 0;
     categories := {[ 1%Z := {| cat_name := js "General";
                                cat_color := js "#6366f1";
                                sort_order := 0 |} ]};
     categories_seq := 1;
     foreign_keys := fk |}.

(** The calls that write, one per IPC handler of the main process (and
    [incrementUsage], called by the key listener).  Three of the functions
    run several writing statements outside a transaction, so that a
    statement that throws leaves the work of the statements before it:
    [u] tells whether and where [incrementUsage] throws, and [stops]
    whether the second writing statement of [clearExpansionHistory] or of
    [deleteCategory] throws.  ([renameCategory] leaves the same store
    whatever makes its second statement throw; [importSnippets] runs in a
    transaction.) *)
Inductive Call :=
| CreateSnippet (f : SnippetForm)
| UpdateSnippet (i : Z) (shortcut title body category : jsstring)
| DeleteSnippet (i : Z)
| IncrementUsage (i : Z) (u : UsageFault)
| ClearExpansionHistory (stops : bool)
| ImportSnippets (cats : option (list ImportedCategory))
    (items : list ImportedSnippet)
| CreateCategory (name : jsstring) (color : option jsstring)
| DeleteCategory (i : Z) (stops : bool)
| RenameCategory (i : Z) (newName : jsstring).

(** The store a call leaves, whether it returns or throws. *)
Definition call (c : Call) (st : Store) : Store :=
  match c with
  | CreateSnippet f => store_of (createSnippet f st)
  | UpdateSnippet i s t b cat => store_of (updateSnippet i s t b cat st)
  | DeleteSnippet i => deleteSnippet i st
  | IncrementUsage i UsageOk => with_db (incrementUsage i (db st)) st
  | IncrementUsage i UsageThrowsEarly => st
  | IncrementUsage i UsageThrowsLate => with_db (update_usage i (db st)) st
  | ClearExpansionHistory false => clearExpansionHistory st
  | ClearExpansionHistory true =>
      with_db {| snippets := snippets (db st); expansion_log := [] |} st
  | ImportSnippets cats items => fst (importSnippets cats items st)
  | CreateCategory n col => store_of (createCategory n col st)
  | DeleteCategory i false => snd (deleteCategory i st)
  | DeleteCategory i true =>
      match categories st !! i with
      | Some cat =>
          if bool_decide (cat_name cat = js "General") then st
          else move_snippets (cat_name cat) (js "General") st
      | None => st
      end
  | RenameCategory i n => store_of (renameCategory i n st)
  end.

Definition calls (cs : list Call) (st : Store) : Store :=
  fold_left (λ st c, call c st) cs st.

(** No key is larger than the recorded sequence value. *)
Definition Sequenced (st : Store) : Prop :=
  ∀ i, is_Some (snippets (db st) !! i) → (i ≤ snippets_seq st)%Z.

(** No two rows have the same shortcut. *)
Definition Unique (m : gmap Z Row) : Prop :=
  ∀ i j r r', m !! i = Some r → m !! j = Some r' →
    row_shortcut r = row_shortcut r' → i = j.

(** What a call may do to the keys of [snippets]: the sequence value does
    not go down, and a key that is new lies above the old value. *)
Definition Grows (st st' : Store) : Prop :=
  (snippets_seq st ≤ snippets_seq st')%Z ∧
  ∀ j, is_Some (snippets (db st') !! j) →
    is_Some (snippets (db st) !! j) ∨
    (snippets_seq st < j ≤ snippets_seq st')%Z.

(** What an import does to the table of snippets. *)
Definition Extends (a b : Store * nat) : Prop :=
  (∀ i r, snippets (db a.1) !! i = Some r → snippets (db b.1) !! i = Some r) ∧
  (∀ i r, snippets (db b.1) !! i = Some r → snippets (db a.1) !! i = None →
     usage_count r = 0%Z ∧ row_category r ≠ []) ∧
  size (snippets (db b.1)) + a.2 = size (snippets (db a.1)) + b.2 ∧
  a.2 ≤ b.2 ∧
  expansion_log (db b.1) = expansion_log (db a.1) ∧
  categories b.1 = categories a.1.

Definition by_key (a b : Z * Row) : Prop := (a.1 < b.1)%Z.

(** The rows an import accepts unchanged. *)
Definition complete (r : Row) : Prop :=
  row_shortcut r ≠ [] ∧ row_title r ≠ [] ∧ row_body r ≠ [] ∧
  row_category r ≠ [].

End Storage.

(** ** The category badges of the renderer *)

Module Ui.

(** [String.prototype.startsWith] and [String.prototype.includes]. *)
Fixpoint startsWith (s p : jsstring) : bool :=
  match p, s with
  | [], _ => true
  | c :: p', d :: s' => bool_decide (c = d) && startsWith s' p'
  | _ :: _, [] => false
  end.

Fixpoint includes (s sub : jsstring) : bool :=
  startsWith s sub ||
  match s with
  | [] => false
  | _ :: s' => includes s' sub
  end.

(** [getCategoryClass] of the snippet list: the CSS class of the badge. *)
Definition getCategoryClass (cat : option jsstring) : jsstring :=
  match cat with
  | Some (x :: cat') =>
      let c := toLowerCase (x :: cat') in
      if includes c (js "dev") then js "dev"
      else if includes c (js "email") || includes c (js "mail")
      then js "email"
      else if includes c (js "personal") then js "personal"
      else js "general"
  | _ => js "general"
  end.

(** [getCategoryColor] of the dashboard: the colour of the same badge. *)
Definition getCategoryColor (cat : option jsstring) : jsstring :=
  match cat with
  | Some (x :: cat') =>
      let c := toLowerCase (x :: cat') in
      if includes c (js "dev") then js "#3b82f6"
      else if includes c (js "email") || includes c (js "mail")
      then js "#ec4899"
      else if includes c (js "personal") then js "#10b981"
      else js "#6366f1"
  | _ => js "#6366f1"
  end.

End Ui.

Import Storage.

(** ** Sample data of the further properties *)

Definition dev1_form : SnippetForm :=
  {| form_shortcut := js "dev1"; form_title := js "Greeting";
     form_body := js "first"; form_category := None |}.

Definition sig_form : SnippetForm :=
  {| form_shortcut := js "sig"; form_title := js "Signature";
     form_body := js "Regards"; form_category := Some (js "Email") |}.

Definition dev1_stored : Row :=
  {| row_shortcut := js "dev1"; row_title := js "Greeting";
     row_body := js "first"; row_category := js "General";
     usage_count := 0 |}.

Definition sig_stored : Row :=
  {| row_shortcut := js "sig"; row_title := js "Signature";
     row_body := js "Regards"; row_category := js "Email";
     usage_count := 0 |}.

Definition email_category : Category :=
  {| cat_name := js "Email"; cat_color := js "#6366f1"; sort_order := 0 |}.

Definition work_category : Category :=
  {| cat_name := js "Work"; cat_color := js "#6366f1"; sort_order := 0 |}.

(** A database with two snippets and the categories General (1),
    Email (2) and Work (3). *)
Definition two_snippets : Store :=
  calls [CreateCategory (js "Email") None; CreateCategory (js " Work") None;
         CreateSnippet dev1_form; CreateSnippet sig_form] (fresh true).

Definition upper_twin : Snippet :=
  {| id := 1; shortcut := js "Dev1"; body := js "first" |}.

Definition lower_twin : Snippet :=
  {| id := 2; shortcut := js "dev1"; body := js "second" |}.

(** The listener started with the two twins, after the keys d, e, v. *)
Definition twins_typed : World :=
  run [StartKeyListener fair_start [upper_twin; lower_twin];
       KeyDown (press 32); KeyDown (press 18); KeyDown (press 47)]
      quiet_world.

Definition lower_twin_queued : Immediate :=
  {| imm_deleteCount := 4; imm_snippet := Some lower_twin |}.

(** A file with an entry whose shortcut is taken in [two_snippets] and a
    new one. *)
Definition sample_file : list ImportedSnippet :=
  [ {| in_shortcut := Some (js "dev1"); in_title := Some (js "Other");
       in_body := Some (js "other"); in_category := None |};
    {| in_shortcut := Some (js "ty"); in_title := Some (js "Thanks");
       in_body := Some (js "Thank you"); in_category := None |} ].

(** Unfolding the assignments to a store. *)
Ltac store_simpl :=
  cbn [db with_db with_snippets with_categories move_snippets snippets
       expansion_log snippets_seq categories categories_seq foreign_keys
       store_of fst snd andb update_usage insert_log].

(** * Properties *)

(** ** Strings *)

Lemma endsWith_suffix (s search : jsstring) :
  endsWith s search = true ↔ search `suffix_of` s.
Proof.
  unfold endsWith. destruct (Nat.ltb_spec (length s) (length search)) as [Hlt|Hle].
  - split; [done|]. intros Hsuf%suffix_length. lia.
  - rewrite bool_decide_eq_true. split.
    + intros <-. exists (take (length s - length search) s).
      by rewrite take_drop.
    + intros [pre ->]. rewrite length_app.
      replace (length pre + length search - length search) with (length pre)
        by lia.
      apply drop_app_length.
Qed.

Lemma endsWith_false (s search : jsstring) :
  endsWith s search = false ↔ ¬ search `suffix_of` s.
Proof.
  rewrite <- endsWith_suffix. destruct (endsWith s search); naive_solver.
Qed.

Lemma suffix_same_length (s k1 k2 : jsstring) :
  k1 `suffix_of` s → k2 `suffix_of` s → length k1 = length k2 → k1 = k2.
Proof.
  intros [p1 ->] [p2 Heq] Hlen. symmetry in Heq.
  by apply app_inj_2 in Heq as [_ ?].
Qed.

Lemma slice_drop_last (s : jsstring) :
  slice s 0 (Some (-1)%Z) = removelast s.
Proof.
  unfold slice, relative_index. simpl.
  replace (Z.to_nat (Z.min 0 (Z.of_nat (length s)))) with 0 by lia.
  replace (Z.to_nat (Z.max (Z.of_nat (length s) + -1) 0)) with (length s - 1)
    by lia.
  rewrite drop_0, Nat.sub_0_r.
  destruct s as [|c s] using rev_ind; [done|].
  rewrite removelast_last, length_app. simpl.
  replace (length s + 1 - 1) with (length s) by lia.
  by rewrite take_app_length.
Qed.

Lemma slice_last_30 (s : jsstring) :
  slice s (-30) None = drop (length s - 30) s.
Proof.
  unfold slice, relative_index. simpl.
  replace (Z.to_nat (Z.max (Z.of_nat (length s) + -30) 0))
    with (length s - 30) by lia.
  apply take_ge. rewrite length_drop. lia.
Qed.

(** ** Sorting and the keys of an object *)

Lemma sort_insert_perm {A} (cmp : A → A → Z) (x : A) (l : list A) :
  sort_insert cmp x l ≡ₚ x :: l.
Proof.
  induction l as [|y l IH]; simpl; [done|].
  destruct (0 <? cmp x y)%Z; [|done].
  rewrite IH. apply Permutation_swap.
Qed.

Lemma Array_sort_perm {A} (cmp : A → A → Z) (l : list A) :
  Array_sort cmp l ≡ₚ l.
Proof.
  induction l as [|x l IH]; simpl; [done|].
  by rewrite sort_insert_perm, IH.
Qed.

Lemma elem_of_Array_sort {A} (cmp : A → A → Z) (x : A) (l : list A) :
  x ∈ Array_sort cmp l ↔ x ∈ l.
Proof. by rewrite Array_sort_perm. Qed.

Lemma sort_insert_longest_first (x : jsstring) (l : list jsstring) :
  StronglySorted not_shorter l →
  StronglySorted not_shorter (sort_insert longest_first x l).
Proof.
  induction 1 as [|y l Hs IH Hy]; simpl.
  - repeat constructor.
  - unfold longest_first at 1.
    destruct (Z.ltb_spec 0 (Z.of_nat (length y) - Z.of_nat (length x))) as [Hlt|Hge].
    + constructor; [done|].
      apply Forall_forall. intros z Hz.
      apply (elem_of_Permutation_proper z _ _ (sort_insert_perm _ x l)) in Hz.
      apply elem_of_cons in Hz as [->|Hz].
      * unfold not_shorter. lia.
      * by eapply Forall_forall in Hy.
    + constructor; [by constructor|].
      constructor; [unfold not_shorter; lia|].
      eapply Forall_impl; [exact Hy|]. unfold not_shorter. intros; lia.
Qed.

Lemma Array_sort_longest_first (l : list jsstring) :
  StronglySorted not_shorter (Array_sort longest_first l).
Proof.
  induction l as [|x l IH]; simpl; [constructor|].
  by apply sort_insert_longest_first.
Qed.

Lemma sorted_split (before after : list jsstring) (key : jsstring) :
  StronglySorted not_shorter (before ++ key :: after) →
  (∀ k, k ∈ before → length key ≤ length k) ∧
  (∀ k, k ∈ after → length k ≤ length key).
Proof.
  intros Hs. split.
  - intros k Hk.
    apply (StronglySorted_app_1_elem_of _ _ _ k key Hs Hk). by left.
  - intros k Hk. apply StronglySorted_app_1_r, StronglySorted_inv in Hs as [_ Hall].
    by eapply Forall_forall in Hall.
Qed.

Lemma elem_of_Object_keys {V} (k : jsstring) (o : object V) :
  k ∈ Object_keys o ↔ k ∈ fst <$> o.
Proof.
  unfold Object_keys. rewrite elem_of_app, list_elem_of_filter. split.
  - intros [Hin|[_ ?]]; [|done].
    apply list_elem_of_fmap in Hin as ([n k'] & -> & Hin).
    apply elem_of_Array_sort, list_elem_of_omap in Hin as (k0 & Hk0 & Hidx).
    unfold indexed in Hidx. destruct (array_index k0); naive_solver.
  - intros Hin. destruct (array_index k) as [n|] eqn:Hidx; [left|by right].
    apply list_elem_of_fmap. exists (n, k). split; [done|].
    apply elem_of_Array_sort, list_elem_of_omap. exists k. split; [done|].
    unfold indexed. by rewrite Hidx.
Qed.

Lemma obj_get_Some_key {V} (k : jsstring) (v : V) (o : object V) :
  obj_get k o = Some v → (k, v) ∈ o.
Proof.
  induction o as [|[k' v'] o IH]; simpl; [done|].
  case_bool_decide as Hk.
  - intros [= ->]. subst. by left.
  - intros ?. right. by apply IH.
Qed.

Lemma obj_get_is_Some {V} (k : jsstring) (o : object V) :
  k ∈ fst <$> o → is_Some (obj_get k o).
Proof.
  induction o as [|[k' v'] o IH]; simpl.
  - by intros ?%elem_of_nil.
  - intros [->|Hin]%elem_of_cons.
    + by rewrite bool_decide_eq_true_2.
    + case_bool_decide; [done|]. by apply IH.
Qed.

Lemma elem_of_obj_set {V} (k k0 : jsstring) (v v0 : V) (o : object V) :
  (k, v) ∈ obj_set k0 v0 o → (k, v) = (k0, v0) ∨ (k, v) ∈ o.
Proof.
  induction o as [|[k' v'] o IH]; simpl.
  - intros [->|[]%elem_of_nil]%elem_of_cons. by left.
  - case_bool_decide.
    + intros [->|?]%elem_of_cons; [by left|]. right. by right.
    + intros [->|?]%elem_of_cons; [right; by left|].
      destruct IH as [?|?]; [done|by left|]. right. by right.
Qed.

(** Every entry of the map is a snippet of the collection under its
    lower-cased shortcut. *)
Lemma build_map_entries (l : list Snippet) (k : jsstring) (s : Snippet) :
  (k, s) ∈ build_map l → s ∈ l ∧ k = toLowerCase (shortcut s).
Proof.
  unfold build_map.
  assert (∀ l' acc,
    (∀ x, x ∈ l' → x ∈ l) →
    (∀ k s, (k, s) ∈ acc → s ∈ l ∧ k = toLowerCase (shortcut s)) →
    (k, s) ∈ fold_left (λ m s, assign (toLowerCase (shortcut s)) s m) l' acc →
    s ∈ l ∧ k = toLowerCase (shortcut s)) as Hgen.
  { induction l' as [|x l' IH]; simpl; intros acc Hsub Hacc Hin.
    - by apply Hacc.
    - apply (IH (assign (toLowerCase (shortcut x)) x acc)); [| |done].
      + intros y Hy. apply Hsub. by right.
      + intros k1 s1. unfold assign. case_bool_decide; [by apply Hacc|].
        intros [[= -> ->]|?]%elem_of_obj_set; [|by apply Hacc].
        split; [|done]. apply Hsub. by left. }
  apply (Hgen l []); [done|]. by intros ?? ?%elem_of_nil.
Qed.

(** ** The suffix lookup *)

Lemma first_suffix_Some (lower : jsstring) (m : object Snippet)
  (keys : list jsstring) (mt : Match) :
  first_suffix lower m keys = Some mt →
  ∃ before key after,
    keys = before ++ key :: after ∧
    (∀ k, k ∈ before → ¬ k `suffix_of` lower) ∧
    key `suffix_of` lower ∧
    snippet mt = obj_get key m ∧ matchLen mt = length key.
Proof.
  induction keys as [|key keys IH]; simpl; [done|].
  destruct (endsWith lower key) eqn:Hends.
  - intros [= <-]. exists [], key, keys. simpl.
    repeat split.
    + by intros k ?%elem_of_nil.
    + by apply endsWith_suffix.
  - intros (before & key' & after & -> & Hbefore & Hrest)%IH.
    exists (key :: before), key', after.
    split; [done|]. split; [|done].
    intros k [->|?]%elem_of_cons; [by apply endsWith_false|by apply Hbefore].
Qed.

Lemma first_suffix_None (lower : jsstring) (m : object Snippet)
  (keys : list jsstring) :
  first_suffix lower m keys = None ↔
  ∀ k, k ∈ keys → ¬ k `suffix_of` lower.
Proof.
  induction keys as [|key keys IH]; simpl.
  - split; [by intros _ k ?%elem_of_nil|done].
  - destruct (endsWith lower key) eqn:Hends.
    + split; [done|]. intros Hno. exfalso.
      apply (Hno key); [by left|by apply endsWith_suffix].
    + rewrite IH. split.
      * intros Hno k [->|?]%elem_of_cons; [by apply endsWith_false|by apply Hno].
      * intros Hno k ?. apply Hno. by right.
Qed.

Lemma shortcutList_updateSnippets (coll : list Snippet) (w : World)
  (k : jsstring) :
  k ∈ shortcutList (vars (updateSnippets coll w)) ↔
  k ∈ fst <$> build_map coll.
Proof.
  simpl. unfold build_list. by rewrite elem_of_Array_sort, elem_of_Object_keys.
Qed.

(** C1. Whenever the suffix lookup returns a match, on any typed buffer and on
    the index built from any snippet collection, the matched key is the first
    key of the length-descending list that the lower-cased buffer ends with,
    and it is the longest registered shortcut that is a suffix of the
    lower-cased buffer: every other registered suffix is strictly shorter.
    The match carries the snippet registered under that key and the length of
    the key. *)
Theorem C1_longest_suffix_match (coll : list Snippet) (w : World)
  (typed : jsstring) (m : Match) :
  let w' := on_vars (with_buffer typed) (updateSnippets coll w) in
  (checkBufferMatch w').1 = Some m →
  ∃ key s before after,
    shortcutList (vars w') = before ++ key :: after ∧
    (∀ k, k ∈ before →
       length key ≤ length k ∧ ¬ k `suffix_of` toLowerCase typed) ∧
    (∀ k, k ∈ after → length k ≤ length key) ∧
    key `suffix_of` toLowerCase typed ∧
    (∀ k, k ∈ shortcutList (vars w') → k `suffix_of` toLowerCase typed →
       k = key ∨ length k < length key) ∧
    snippet m = Some s ∧ matchLen m = length key ∧
    s ∈ coll ∧ toLowerCase (shortcut s) = key.
Proof.
  intros w'. simpl. unfold lookup_suffix. simpl.
  intros (before & key & after & Hsplit & Hbefore & Hsuf & Hsnip & Hlen)
    %first_suffix_Some.
  pose proof (Array_sort_longest_first (Object_keys (build_map coll))) as Hsorted.
  fold (build_list (build_map coll)) in Hsorted. rewrite Hsplit in Hsorted.
  apply sorted_split in Hsorted as [Hlonger Hshorter].
  assert (key ∈ fst <$> build_map coll) as Hkey.
  { apply (shortcutList_updateSnippets coll w). simpl. rewrite Hsplit.
    apply elem_of_app. right. by left. }
  destruct (obj_get_is_Some _ _ Hkey) as [s Hs].
  pose proof (obj_get_Some_key _ _ _ Hs) as [Hin Hk]%build_map_entries.
  exists key, s, before, after. split_and!; try done.
  - intros k Hk'. split; [by apply Hlonger|by apply Hbefore].
  - intros k Hk' Hksuf. rewrite Hsplit in Hk'.
    apply elem_of_app in Hk' as [Hk'|Hk'].
    + by destruct (Hbefore k Hk').
    + apply elem_of_cons in Hk' as [->|Hk']; [by left|].
      destruct (decide (length k = length key)) as [Heq|Hne].
      * left. by apply (suffix_same_length (toLowerCase typed)).
      * right. specialize (Hshorter k Hk'). lia.
  - by rewrite Hsnip.
Qed.

Lemma C1_longest_suffix_match_witness :
  ∃ key s before after,
    build_list (build_map dev_snippets) = before ++ key :: after ∧
    (∀ k, k ∈ before →
       length key ≤ length k ∧ ¬ k `suffix_of` toLowerCase (js "xdev12")) ∧
    (∀ k, k ∈ after → length k ≤ length key) ∧
    key `suffix_of` toLowerCase (js "xdev12") ∧
    (∀ k, k ∈ build_list (build_map dev_snippets) →
       k `suffix_of` toLowerCase (js "xdev12") →
       k = key ∨ length k < length key) ∧
    Some {| id := 2; shortcut := js "dev12"; body := js "second" |} = Some s ∧
    5 = length key ∧
    s ∈ dev_snippets ∧ toLowerCase (shortcut s) = key.
Proof.
  apply (C1_longest_suffix_match dev_snippets quiet_world (js "xdev12")
           {| snippet := Some {| id := 2; shortcut := js "dev12";
                                 body := js "second" |};
              matchLen := 5 |}).
  reflexivity.
Defined.

(** ** The keydown handler, branch by branch *)

Lemma appended_slice (b char : jsstring) :
  (if 50 <? length (b ++ char)
   then slice (b ++ char) (-30) None else b ++ char) = appended b char.
Proof. unfold appended. simpl. by rewrite slice_last_30. Qed.

Lemma keydown_handled (e : KeyEvent) (w : World) : Handled e w (keydown e w).
Proof.
  unfold keydown.
  destruct (expanding (vars w)) eqn:Hlock; [by constructor|].
  destruct (Z.eqb_spec BACKSPACE (keycode e)) as [Hback|Hback].
  - rewrite slice_drop_last. by constructor.
  - destruct (table_get (keycode e) KEYCODE_MAP) as [char|] eqn:Hchar.
    + unfold checkBufferMatch. simpl.
      pose proof (appended_slice (buffer (vars w)) char) as Happ.
      destruct (50 <? length (buffer (vars w) ++ char)) eqn:Hlen; simpl;
        simpl in Happ; rewrite Happ.
      * destruct (lookup_suffix _) as [m|] eqn:Hfind; simpl.
        -- by apply (handled_hit e w char m).
        -- by apply (handled_miss e w char).
      * destruct (lookup_suffix _) as [m|] eqn:Hfind; simpl.
        -- by apply (handled_hit e w char m).
        -- by apply (handled_miss e w char).
    + destruct (boundary (keycode e)) eqn:Hb.
      * by constructor.
      * by constructor.
Qed.

(** ** The characters of the table *)

Lemma table_get_elem (code : Z) (t : list (Z * jsstring)) (s : jsstring) :
  table_get code t = Some s → s ∈ snd <$> t.
Proof.
  induction t as [|[c s'] t IH]; [done|].
  change (table_get code ((c, s') :: t))
    with (if (c =? code)%Z then Some s' else table_get code t).
  rewrite fmap_cons. destruct (c =? code)%Z.
  - intros [= ->]. by left.
  - intros ?. right. by apply IH.
Qed.

Lemma table_values_single :
  Forall (λ s : jsstring, length s = 1) (snd <$> KEYCODE_MAP).
Proof. repeat constructor. Qed.

Lemma KEYCODE_MAP_char (code : Z) (char : jsstring) :
  table_get code KEYCODE_MAP = Some char →
  ∃ c, char = [c] ∧ c ∈ table_chars.
Proof.
  intros Hin%table_get_elem.
  pose proof table_values_single as Hone.
  rewrite Forall_forall in Hone. specialize (Hone char Hin).
  destruct char as [|c [|??]]; try done.
  exists c. split; [done|].
  apply list_elem_of_join. exists [c]. split; [by left|done].
Qed.

Lemma table_chars_lower :
  Forall (λ c, toLowerCase_unit c = c) table_chars.
Proof. repeat constructor. Qed.

Lemma toLowerCase_table (b : jsstring) :
  Forall (λ c, c ∈ table_chars) b → toLowerCase b = b.
Proof.
  pose proof table_chars_lower as Hlow. rewrite Forall_forall in Hlow.
  induction 1 as [|c b Hc _ IH]; [done|].
  unfold toLowerCase in *. rewrite fmap_cons, IH. f_equal. by apply Hlow.
Qed.

(** ** What every reachable state satisfies *)

Lemma appended_length (b char : jsstring) :
  length char = 1 → length (appended b char) ≤ 50.
Proof.
  intros Hone. unfold appended. simpl.
  destruct (Nat.ltb_spec 50 (length (b ++ char))) as [Hlt|Hle]; [|done].
  rewrite length_drop. rewrite length_app in *. lia.
Qed.

Lemma appended_chars (b char : jsstring) :
  Forall (λ c, c ∈ table_chars) b →
  Forall (λ c, c ∈ table_chars) char →
  Forall (λ c, c ∈ table_chars) (appended b char).
Proof.
  intros Hb Hc. unfold appended. simpl.
  destruct (50 <? length (b ++ char)).
  - apply Forall_drop. by apply Forall_app_2.
  - by apply Forall_app_2.
Qed.

Lemma Forall_removelast {A} (P : A → Prop) (l : list A) :
  Forall P l → Forall P (removelast l).
Proof.
  destruct l as [|x l] using rev_ind; [done|].
  rewrite removelast_last. by intros [? _]%Forall_app.
Qed.

Lemma length_removelast_le {A} (l : list A) :
  length (removelast l) ≤ length l.
Proof.
  destruct l as [|x l] using rev_ind; [done|].
  rewrite removelast_last, length_app. lia.
Qed.

Lemma Inv_handled (e : KeyEvent) (w w' : World) :
  Handled e w w' → Inv (vars w) → Inv (vars w').
Proof.
  intros Hh [Hlock Hlen Hchars].
  destruct Hh as [?|Hl ?|Hl ???|?|char Hl ? Hchar ?|char m Hl ? Hchar ?]; simpl.
  - done.
  - split; simpl.
    + by rewrite Hl.
    + pose proof (length_removelast_le (buffer (vars w))). lia.
    + by apply Forall_removelast.
  - split; simpl; [done|lia|constructor].
  - done.
  - apply KEYCODE_MAP_char in Hchar as (c & -> & Hc).
    split; simpl.
    + by rewrite Hl.
    + by apply appended_length.
    + apply appended_chars; [done|]. by apply Forall_singleton.
  - split; simpl; [done|lia|constructor].
Qed.

Lemma vars_immediate_callback (f : Faults) (x : bool) (t : Immediate)
  (w : World) :
  vars (world_of (immediate_callback f x t w)) = vars w.
Proof.
  unfold immediate_callback, runExpansion, playPopSound, report_usage.
  destruct (imm_snippet t); [|done].
  destruct (falsy _), (spawn_throws f), (spawn_fails f), (writeText_throws f),
    x, (usage_fault f); done.
Qed.

(** A property of the world that every run of the handler keeps is kept by
    a keydown event. *)
Lemma emit_keydown_ind (P : World → Prop) (e : KeyEvent) (w : World) :
  (∀ w0, P w0 → P (keydown e w0)) → P w → P (emit_keydown e w).
Proof.
  intros Hstep Hw. unfold emit_keydown.
  induction (handlers w) as [|n IH]; simpl; [done|]. by apply Hstep.
Qed.

Lemma Inv_unlock (g : Engine) : Inv g → Inv (with_expanding false g).
Proof. intros [? ? ?]. by split. Qed.

Lemma Inv_index (m : object Snippet) (l : list jsstring) (g : Engine) :
  Inv g → Inv (with_index m l g).
Proof. intros [? ? ?]. by split. Qed.

Lemma Inv_step (ev : Event) (w : World) :
  Inv (vars w) → Inv (vars (world_of (step ev w))).
Proof.
  intros HI. destruct ev as [env coll|coll| |e|f|i err|rt|f|]; simpl.
  - unfold startKeyListener, generatePopSound.
    destruct HI as [Hlock Hlen Hchars].
    destruct (falsy _), (writeFile_throws env); simpl;
      destruct (active (vars w)); simpl;
      try (by split);
      destruct (require_throws env), (start_throws env); simpl;
      split; simpl; done || lia || constructor.
  - by apply Inv_index.
  - unfold stopKeyListener. destruct HI as [? ? ?].
    destruct (uiohook _ && active _); by split.
  - apply (emit_keydown_ind (λ w0, Inv (vars w0))); [|done].
    intros w0 H0. apply (Inv_handled e w0); [apply keydown_handled|done].
  - destruct (immediates w) as [|t rest]; [done|].
    by rewrite vars_immediate_callback.
  - destruct (processes w !! i) as [p|]; [|done]. simpl.
    unfold exec_callback. destruct err; simpl; [by apply Inv_unlock|done].
  - destruct (timers w) as [|s rest]; [done|]. simpl. by apply Inv_unlock.
  - destruct (immediates w) as [|t rest]; [done|].
    by rewrite vars_immediate_callback.
  - by destruct (spawn_errors w).
Qed.

Lemma Inv_reachable (w : World) : Reachable w → Inv (vars w).
Proof.
  induction 1 as [c d|ev w _ IH].
  - split; simpl; [done|lia|constructor].
  - by apply Inv_step.
Qed.

Lemma run_snoc (evs : list Event) (ev : Event) (w : World) :
  run (evs ++ [ev]) w = world_of (step ev (run evs w)).
Proof. unfold run. by rewrite fold_left_app. Qed.

Lemma reachable_run (evs : list Event) (w : World) :
  Reachable w → Reachable (run evs w).
Proof.
  intros Hw. induction evs as [|ev evs IH] using rev_ind; [done|].
  rewrite run_snoc. by constructor.
Qed.

(** The handler starts no expansion work by itself. *)
Lemma keydown_frame (e : KeyEvent) (w : World) :
  let w' := keydown e w in
  processes w' = processes w ∧ timers w' = timers w ∧
  clipboard w' = clipboard w ∧ database w' = database w ∧
  tones w' = tones w.
Proof. simpl. by destruct (keydown_handled e w). Qed.

(** A run of the handler that finds the lock held changes nothing. *)
Lemma keydown_locked (e : KeyEvent) (w : World) :
  expanding (vars w) = true → keydown e w = w.
Proof. intros Hl. unfold keydown. by rewrite Hl. Qed.

Lemma keydown_handlers (e : KeyEvent) (w : World) :
  handlers (keydown e w) = handlers w ∧
  spawn_errors (keydown e w) = spawn_errors w.
Proof. by destruct (keydown_handled e w). Qed.

(** With one handler registered a keydown event is one run of it. *)
Lemma emit_keydown_single (e : KeyEvent) (w : World) :
  handlers w = 1 → emit_keydown e w = keydown e w.
Proof. unfold emit_keydown. by intros ->. Qed.

Lemma emit_keydown_frame (e : KeyEvent) (w : World) :
  let w' := emit_keydown e w in
  processes w' = processes w ∧ timers w' = timers w ∧
  clipboard w' = clipboard w ∧ database w' = database w ∧
  tones w' = tones w ∧ handlers w' = handlers w ∧
  spawn_errors w' = spawn_errors w.
Proof.
  apply (emit_keydown_ind
           (λ w', processes w' = processes w ∧ timers w' = timers w ∧
                  clipboard w' = clipboard w ∧ database w' = database w ∧
                  tones w' = tones w ∧ handlers w' = handlers w ∧
                  spawn_errors w' = spawn_errors w)); [|done].
  intros w0 (<- & <- & <- & <- & <- & <- & <-).
  destruct (keydown_frame e w0) as (? & ? & ? & ? & ?).
  by destruct (keydown_handlers e w0).
Qed.

(** ** The lock and the key events *)

(** C3. While [expanding] is true the keydown handler returns the world as
    it found it: the buffer is unchanged, the detector is not called and
    nothing is queued.  When the handler finds a match it sets the lock and
    empties the buffer before it returns, and the expansion is only queued
    by then: no child process, timer, clipboard write, tone or usage
    report has happened when the handler returns. *)
Theorem C3_lock_screens_key_events (e : KeyEvent) (w : World) :
  let w' := keydown e w in
  (expanding (vars w) = true → w' = w) ∧
  (∀ char m,
     expanding (vars w) = false →
     keycode e ≠ BACKSPACE →
     table_get (keycode e) KEYCODE_MAP = Some char →
     lookup_suffix (with_buffer (appended (buffer (vars w)) char) (vars w))
       = Some m →
     expanding (vars w') = true ∧ buffer (vars w') = [] ∧
     immediates w' =
       immediates w ++ [ {| imm_deleteCount := matchLen m;
                            imm_snippet := snippet m |} ]) ∧
  (immediates w' ≠ immediates w →
     expanding (vars w) = false ∧
     expanding (vars w') = true ∧ buffer (vars w') = []) ∧
  processes w' = processes w ∧ timers w' = timers w ∧
  clipboard w' = clipboard w ∧ database w' = database w ∧
  tones w' = tones w.
Proof.
  intros w'. subst w'.
  destruct (keydown_handled e w)
    as [Hl|Hl Hb|Hl Hb Hc Hbd|Hl Hb Hc Hbd|char Hl Hb Hc Hm|char m Hl Hb Hc Hm];
    simpl.
  - split; [done|]. split; [intros; congruence|]. by split.
  - split; [congruence|]. split; [intros; congruence|]. by split.
  - split; [congruence|]. split; [intros; congruence|]. by split.
  - split; [done|]. split; [intros; congruence|]. by split.
  - split; [congruence|]. split; [intros; congruence|]. by split.
  - split; [congruence|]. split; [|by split].
    intros char' m' _ _ Hc' Hm'.
    assert (char' = char) as -> by congruence.
    assert (m' = m) as -> by congruence. done.
Qed.

Lemma C3_lock_screens_key_events_witness :
  keydown (press 32) typed_dev1 = typed_dev1.
Proof.
  apply (C3_lock_screens_key_events (press 32) typed_dev1). reflexivity.
Defined.

(** ** The bound on the buffer *)

(** C5. In every state the listener reaches the buffer has at most 50
    characters, and it still has after any further run of the keydown
    handler and after any further key event, however many handlers the
    event runs; the event never throws, and with one handler registered it
    is one run of the handler.  An append that takes the buffer over 50
    characters keeps its last 30 characters (which the match that follows
    may then clear). *)
Theorem C5_buffer_bounded (w : World) (e : KeyEvent) :
  Reachable w →
  let w' := keydown e w in
  length (buffer (vars w)) ≤ 50 ∧
  length (buffer (vars w')) ≤ 50 ∧
  (∃ w'', step (KeyDown e) w = Returned w'' ∧
          length (buffer (vars w'')) ≤ 50 ∧
          (handlers w = 1 → w'' = w')) ∧
  ∀ char,
    expanding (vars w) = false →
    keycode e ≠ BACKSPACE →
    table_get (keycode e) KEYCODE_MAP = Some char →
    50 < length (buffer (vars w) ++ char) →
    ∃ dropped kept,
      buffer (vars w) ++ char = dropped ++ kept ∧ length kept = 30 ∧
      appended (buffer (vars w)) char = kept ∧
      (buffer (vars w') = kept ∨
       buffer (vars w') = [] ∧ expanding (vars w') = true).
Proof.
  intros Hw w'. pose proof (Inv_reachable w Hw) as HI.
  assert (Inv (vars w')) as HI'.
  { apply (Inv_handled e w); [apply keydown_handled|done]. }
  split; [by destruct HI|]. split; [by destruct HI'|]. split.
  { exists (emit_keydown e w). split; [done|]. split.
    - by destruct (Inv_reachable _ (reach_step (KeyDown e) w Hw)).
    - apply emit_keydown_single. }
  intros char Hl Hb Hc Hlen.
  exists (take (length (buffer (vars w) ++ char) - 30) (buffer (vars w) ++ char)),
         (drop (length (buffer (vars w) ++ char) - 30) (buffer (vars w) ++ char)).
  assert (appended (buffer (vars w)) char
          = drop (length (buffer (vars w) ++ char) - 30)
                 (buffer (vars w) ++ char)) as Happ.
  { unfold appended. simpl. by rewrite (proj2 (Nat.ltb_lt _ _) Hlen). }
  split; [by rewrite take_drop|]. split; [rewrite length_drop; lia|].
  split; [done|]. subst w'.
  destruct (keydown_handled e w)
    as [?|? ?|? ? Hc' ?|? ? Hc' ?|char' ? ? Hc' ?|char' m ? ? Hc' ?];
    try congruence; simpl.
  - left. rewrite Hc in Hc'. injection Hc' as <-. done.
  - by right.
Qed.

Lemma C5_buffer_bounded_witness :
  length (buffer (vars fifty_keys)) ≤ 50 ∧
  length (buffer (vars (keydown (press 48) fifty_keys))) = 30.
Proof.
  pose proof (C5_buffer_bounded fifty_keys (press 48)
                (reachable_run _ _ (reach_loaded _ _))) as (H1 & _ & _ & H4).
  split; [exact H1|].
  destruct (H4 (js "b") eq_refl ltac:(done) eq_refl ltac:(vm_compute; lia))
    as (dropped & kept & _ & Hlen & _ & [Hbuf|[_ Hlock]]).
  - by rewrite Hbuf.
  - vm_compute in Hlock. discriminate Hlock.
Defined.

(** ** Keys without a character *)

Lemma boundary_unmapped (code : Z) :
  boundary code = true → table_get code KEYCODE_MAP = None.
Proof.
  unfold boundary. rewrite bool_decide_eq_true.
  rewrite !elem_of_cons, elem_of_nil.
  intros [->|[->|[->|[->|[]]]]]; reflexivity.
Qed.

(** C6 as stated fails for backspace: its code 14 has no character and is not
    a boundary code, and the handler removes the last character of the
    buffer. *)
Lemma C6_backspace_counterexample :
  ¬ ∀ (w : World) (e : KeyEvent),
      Reachable w →
      table_get (keycode e) KEYCODE_MAP = None →
      boundary (keycode e) = false →
      buffer (vars (keydown e w)) = buffer (vars w).
Proof.
  intros Hclaim.
  specialize (Hclaim typed_a (press BACKSPACE)
                (reachable_run _ _ (reach_loaded _ _)) eq_refl eq_refl).
  vm_compute in Hclaim. discriminate Hclaim.
Qed.

(** C6 (amended). For every key event, other than backspace, whose key code
    has no character in the table: a boundary code (space 57, enter 28,
    tab 15, escape 1) empties the buffer, any other code leaves the buffer
    as it is, and in neither case is the match detector called or an
    expansion started. *)
Theorem C6_unmapped_keys (w : World) (e : KeyEvent) :
  Reachable w →
  keycode e ≠ BACKSPACE →
  table_get (keycode e) KEYCODE_MAP = None →
  let w' := keydown e w in
  (boundary (keycode e) = true ↔ keycode e ∈ [57; 28; 15; 1]%Z) ∧
  (boundary (keycode e) = true → buffer (vars w') = []) ∧
  (boundary (keycode e) = false → w' = w) ∧
  detections w' = detections w ∧
  immediates w' = immediates w ∧
  expanding (vars w') = expanding (vars w).
Proof.
  intros Hw Hb Hc w'. subst w'.
  pose proof (Inv_reachable w Hw) as [Hlock _ _].
  split; [apply bool_decide_eq_true|].
  destruct (keydown_handled e w)
    as [Hl|? ?|? ? ? Hbd|? ? ? Hbd|char ? ? Hc' ?|char m ? ? Hc' ?];
    try congruence.
  - split; [by intros _; apply Hlock|]. by split.
  - split; [done|]. split; [congruence|]. by split.
  - split; [congruence|]. by split.
Qed.

Lemma C6_unmapped_keys_witness :
  buffer (vars (keydown (press 57) typed_a)) = [] ∧
  keydown (press 42) typed_a = typed_a.
Proof.
  split.
  - apply (C6_unmapped_keys typed_a (press 57)
             (reachable_run _ _ (reach_loaded _ _)) ltac:(done) eq_refl).
    reflexivity.
  - apply (C6_unmapped_keys typed_a (press 42)
             (reachable_run _ _ (reach_loaded _ _)) ltac:(done) eq_refl).
    reflexivity.
Defined.

(** ** Backspace and the calls of the match detector *)

(** C7 fails on the code.  A start whose [uiohook.start()] throws leaves
    its handler registered while the listener stays inactive, so the next
    start registers a second one.  Every key event then runs the handler
    twice: the keys d, e, v leave the buffer [ddeevv], and one backspace
    event removes two characters, not exactly the last one.  (One run of
    the handler removes one.) *)
Theorem C7_backspace_runs_twice :
  Reachable restarted ∧
  active (vars restarted) = true ∧
  expanding (vars restarted) = false ∧
  handlers restarted = 2 ∧
  buffer (vars restarted) = js "ddeevv" ∧
  ∃ w',
    step (KeyDown (press BACKSPACE)) restarted = Returned w' ∧
    w' = keydown (press BACKSPACE) (keydown (press BACKSPACE) restarted) ∧
    buffer (vars w') = js "ddee" ∧
    buffer (vars w') ≠ removelast (buffer (vars restarted)) ∧
    buffer (vars (keydown (press BACKSPACE) restarted))
      = removelast (buffer (vars restarted)).
Proof.
  split; [apply reachable_run, reach_loaded|].
  split; [reflexivity|]. split; [reflexivity|]. split; [reflexivity|].
  split; [reflexivity|].
  exists (emit_keydown (press BACKSPACE) restarted).
  split; [reflexivity|]. split; [reflexivity|]. split; [reflexivity|].
  split; [|reflexivity].
  intros H. vm_compute in H. discriminate H.
Qed.

(** ** The alphabet of the buffer *)

(** C10. The table has 46 characters: the letters a-z, the digits 0-9 and
    the symbols - = [ ] \ ; ' , . / ; every character a key event appends, and
    so every character of the buffer in every reachable state, is one of
    them.  Hence the buffer holds no capital letter, lower-casing it changes
    nothing, and the handler stores the same character whatever the
    modifier flags of the event (it reads the key code only). *)
Theorem C10_buffer_alphabet (w : World) :
  Reachable w →
  table_chars = js "abcdefghijklmnopqrstuvwxyz0123456789-=[]\;',./" ∧
  length table_chars = 46 ∧
  NoDup table_chars ∧
  (∀ code char, table_get code KEYCODE_MAP = Some char →
     ∃ c, char = [c] ∧ c ∈ table_chars) ∧
  Forall (λ c, c ∈ table_chars) (buffer (vars w)) ∧
  Forall (λ c, ¬ (65 ≤ N_of_ascii c ≤ 90)%N) (buffer (vars w)) ∧
  toLowerCase (buffer (vars w)) = buffer (vars w) ∧
  (∀ e1 e2, keycode e1 = keycode e2 → keydown e1 w = keydown e2 w).
Proof.
  intros Hw. pose proof (Inv_reachable w Hw) as [_ _ Hchars].
  split; [reflexivity|]. split; [reflexivity|].
  split; [apply (bool_decide_eq_true_1 (NoDup table_chars)); by vm_compute|].
  split; [apply KEYCODE_MAP_char|]. split; [done|].
  split; [|split; [by apply toLowerCase_table|]].
  - eapply Forall_impl; [exact Hchars|]. intros c Hc.
    assert (Forall (λ c, ¬ (65 ≤ N_of_ascii c ≤ 90)%N) table_chars) as Hall.
    { repeat constructor; vm_compute; intros [H1 H2]; by (apply H1 || apply H2). }
    rewrite Forall_forall in Hall. by apply Hall.
  - intros e1 e2 Hcode. unfold keydown. by rewrite Hcode.
Qed.

Lemma C10_buffer_alphabet_witness :
  toLowerCase (buffer (vars late_shortcut)) = buffer (vars late_shortcut).
Proof.
  apply (C10_buffer_alphabet late_shortcut
           (reachable_run _ _ (reach_loaded _ _))).
Defined.

(** ** Frames of the turns *)

Lemma foreground_step_frame (ev : Event) (w : World) :
  foreground ev = true →
  let w' := world_of (step ev w) in
  clipboard w' = clipboard w ∧ processes w' = processes w ∧
  timers w' = timers w ∧ database w' = database w ∧ tones w' = tones w.
Proof.
  destruct ev as [env coll|coll| |e|f|i err|rt|f|]; try done; intros _; simpl.
  - unfold startKeyListener, generatePopSound.
    destruct (falsy _), (writeFile_throws env); simpl;
      destruct (active (vars w)); simpl; try done;
      by destruct (require_throws env), (start_throws env).
  - unfold stopKeyListener. by destruct (uiohook _ && active _).
  - by destruct (emit_keydown_frame e w) as (? & ? & ? & ? & ? & _).
Qed.

Lemma foreground_run_frame (ks : list Event) (w : World) :
  forallb foreground ks = true →
  clipboard (run ks w) = clipboard w ∧ processes (run ks w) = processes w ∧
  timers (run ks w) = timers w ∧ database (run ks w) = database w.
Proof.
  induction ks as [|ev ks IH] using rev_ind; [done|].
  rewrite forallb_app. simpl. rewrite andb_true_r.
  intros [Hks Hev]%andb_true_iff. rewrite run_snoc.
  destruct (foreground_step_frame ev (run ks w) Hev) as (-> & -> & -> & -> & _).
  by apply IH.
Qed.

(** ** The index of every reachable state *)

Lemma Indexed_vars (w w' : World) :
  snippetMap (vars w') = snippetMap (vars w) →
  shortcutList (vars w') = shortcutList (vars w) →
  immediates w' = immediates w →
  Indexed w → Indexed w'.
Proof. intros Hm Hl Hq [? ? ?]. split; by rewrite ?Hm, ?Hl, ?Hq. Qed.

Lemma Indexed_update (coll : list Snippet) (w : World) :
  Forall (λ t, is_Some (imm_snippet t)) (immediates w) →
  Indexed (updateSnippets coll w).
Proof. intros Hq. split; simpl; [by exists coll|done|done]. Qed.

Lemma Indexed_handled (e : KeyEvent) (w w' : World) :
  Handled e w w' → Indexed w → Indexed w'.
Proof.
  intros Hh HI.
  destruct Hh as [?|? ?|? ? ? ?|? ? ? ?|char ? ? ? ?|char m ? ? ? Hm];
    try (by apply (Indexed_vars w)).
  destruct HI as [Hmap Hlist Hq]. split; simpl; [done|done|].
  apply Forall_app. split; [done|]. apply Forall_singleton. simpl.
  unfold lookup_suffix in Hm. simpl in Hm.
  apply first_suffix_Some in Hm as (before & key & after & Hsplit & _ & _ & -> & _).
  apply obj_get_is_Some, elem_of_Object_keys.
  apply (elem_of_Array_sort longest_first).
  fold (build_list (snippetMap (vars w))). rewrite <- Hlist, Hsplit.
  apply elem_of_app. right. by left.
Qed.

Lemma Indexed_immediate (f : Faults) (x : bool) (w : World) :
  Indexed w →
  Indexed (world_of (match immediates w with
                     | [] => Returned w
                     | t :: rest =>
                         immediate_callback f x t (with_immediates rest w)
                     end)).
Proof.
  intros HI. destruct (immediates w) as [|t rest] eqn:Himm; [done|].
  destruct HI as [Hmap Hlist Hq]. rewrite Himm in Hq.
  apply Forall_cons in Hq as [_ Hq].
  unfold immediate_callback, runExpansion, playPopSound, report_usage.
  destruct (imm_snippet t); [|by split].
  destruct (falsy _), (spawn_throws f), (spawn_fails f), (writeText_throws f),
    x, (usage_fault f); by split.
Qed.

Lemma Indexed_step (ev : Event) (w : World) :
  Indexed w → Indexed (world_of (step ev w)).
Proof.
  intros HI. destruct ev as [env coll|coll| |e|f|i err|rt|f|]; simpl.
  - unfold startKeyListener, generatePopSound. destruct HI as [_ _ Hq].
    destruct (falsy _), (writeFile_throws env); simpl;
      destruct (active (vars w)); simpl;
      try (by apply Indexed_update);
      destruct (require_throws env), (start_throws env);
      split; simpl; done || by exists coll.
  - apply Indexed_update. by destruct HI.
  - unfold stopKeyListener.
    destruct (uiohook _ && active _); by apply (Indexed_vars w).
  - apply (emit_keydown_ind Indexed); [|done].
    intros w0 H0. apply (Indexed_handled e w0); [apply keydown_handled|done].
  - by apply Indexed_immediate.
  - destruct (processes w !! i) as [p|]; [|done]. simpl.
    unfold exec_callback. destruct err; by apply (Indexed_vars w).
  - destruct (timers w) as [|s rest]; [done|]. by apply (Indexed_vars w).
  - by apply Indexed_immediate.
  - destruct (spawn_errors w); [done|]. by apply (Indexed_vars w).
Qed.

Lemma Indexed_reachable (w : World) : Reachable w → Indexed w.
Proof.
  induction 1 as [c d|ev w _ IH].
  - split; simpl; [by exists []|done|done].
  - by apply Indexed_step.
Qed.

(** ** The release of the lock *)

(** The immediate callback throws exactly when the snippet is [undefined]
    or the unguarded [clipboard.writeText] of [runExpansion] throws. *)
Lemma immediate_callback_threw (f : Faults) (x : bool) (t : Immediate)
  (w : World) :
  (∃ w', immediate_callback f x t w = Threw w') ↔
  imm_snippet t = None ∨ writeText_throws f = true ∨ x = true.
Proof.
  unfold immediate_callback, runExpansion.
  destruct (imm_snippet t) as [s|].
  - destruct (writeText_throws f).
    + split; [by right; left|]. intros _. by eexists.
    + destruct x.
      * split; [by right; right|]. intros _. by eexists.
      * split; [by intros [w' ?]|]. by intros [?|[?|?]].
  - split; [by left|]. intros _. by eexists.
Qed.

Lemma Stuck_step (ev : Event) (w : World) :
  Stuck w → Stuck (world_of (step ev w)).
Proof.
  intros (Hlock & Himm & Hproc & Htim).
  destruct ev as [env coll|coll| |e|f|i err|rt|f|]; simpl.
  - unfold Stuck, startKeyListener, generatePopSound.
    destruct (falsy _), (writeFile_throws env); simpl;
      destruct (active (vars w)); simpl; try done;
      by destruct (require_throws env), (start_throws env).
  - done.
  - unfold Stuck, stopKeyListener. by destruct (uiohook _ && active _).
  - apply (emit_keydown_ind Stuck); [|done].
    intros w0 H0. by rewrite (keydown_locked e w0 (proj1 H0)).
  - by rewrite Himm.
  - by rewrite Hproc.
  - by rewrite Htim.
  - by rewrite Himm.
  - by destruct (spawn_errors w).
Qed.

Lemma Stuck_run (evs : list Event) (w : World) : Stuck w → Stuck (run evs w).
Proof.
  intros Hw. induction evs as [|ev evs IH] using rev_ind; [done|].
  rewrite run_snoc. by apply Stuck_step.
Qed.

(** The three turns of an expansion whose clipboard write does not throw,
    with calls of the entry points in between: the child process and then
    the timer are the only ones pending, the timer restores from the
    snapshot taken at the start, and it leaves the lock released. *)
Lemma expansion_turns (w : World) (t : Immediate) (rest : list Immediate)
  (s : Snippet) (f : Faults) (err rt : bool) (ks1 ks2 : list Event) :
  immediates w = t :: rest →
  imm_snippet t = Some s →
  processes w = [] →
  timers w = [] →
  writeText_throws f = false →
  forallb foreground ks1 = true →
  forallb foreground ks2 = true →
  let saved := save_clipboard f (clipboard w) in
  let w1 := run ks1 (world_of (step (RunImmediate f) w)) in
  let w2 := run ks2 (world_of (step (ExecDone 0 err) w1)) in
  let w3 := world_of (step (TimerFire rt) w2) in
  step (RunImmediate f) w = Returned (world_of (step (RunImmediate f) w)) ∧
  clipboard w1 = writeText (body s) ∧
  processes w1 = [ {| proc_deleteCount := imm_deleteCount t;
                      proc_saved := saved |} ] ∧
  timers w1 = [] ∧
  processes w2 = [] ∧ timers w2 = [saved] ∧
  clipboard w3 = restore rt saved (writeText (body s)) ∧
  processes w3 = [] ∧ timers w3 = [] ∧
  expanding (vars w3) = false.
Proof.
  intros Himm Hsnip Hproc Htim Hwt Hks1 Hks2 saved w1 w2 w3.
  assert (step (RunImmediate f) w
          = Returned (world_of (step (RunImmediate f) w)) ∧
          clipboard w1 = writeText (body s) ∧
          processes w1 =
            [ {| proc_deleteCount := imm_deleteCount t;
                 proc_saved := saved |} ] ∧
          timers w1 = []) as (Hret & Hc1 & Hp1 & Ht1).
  { subst w1. destruct (foreground_run_frame ks1
        (world_of (step (RunImmediate f) w)) Hks1) as (-> & -> & -> & _).
    simpl. rewrite Himm. unfold immediate_callback. rewrite Hsnip. simpl.
    unfold runExpansion, playPopSound, report_usage. rewrite Hwt.
    subst saved.
    destruct (falsy _), (spawn_throws f), (spawn_fails f), (usage_fault f); simpl;
      rewrite ?Hproc, ?Htim; done. }
  assert (clipboard w2 = writeText (body s) ∧
          processes w2 = [] ∧ timers w2 = [saved]) as (Hc2 & Hp2 & Ht2).
  { subst w2. destruct (foreground_run_frame ks2
        (world_of (step (ExecDone 0 err) w1)) Hks2) as (-> & -> & -> & _).
    simpl. rewrite Hp1. simpl. unfold exec_callback.
    destruct err; simpl; by rewrite Ht1, Hc1. }
  split; [exact Hret|]. split; [exact Hc1|]. split; [exact Hp1|].
  split; [exact Ht1|]. split; [exact Hp2|]. split; [exact Ht2|].
  subst w3. simpl. rewrite Ht2. simpl. by rewrite Hp2, Hc2.
Qed.

(** C2 fails on the code. With [dev1] typed and its expansion queued, the
    immediate callback in which [clipboard.writeText] throws ends with an
    uncaught exception; no child process, timer or usage report follows, and
    [expanding] stays true after every later run of events. *)
Theorem C2_write_failure_keeps_lock (evs : list Event) :
  Reachable typed_dev1 ∧
  expanding (vars typed_dev1) = true ∧
  ∃ w',
    step (RunImmediate write_fails) typed_dev1 = Threw w' ∧
    Stuck w' ∧
    database w' = database typed_dev1 ∧
    expanding (vars (run evs w')) = true.
Proof.
  split; [apply reachable_run, reach_loaded|].
  split; [by vm_compute|].
  exists (world_of (step (RunImmediate write_fails) typed_dev1)).
  assert (Stuck (world_of (step (RunImmediate write_fails) typed_dev1)))
    as Hstuck.
  { unfold Stuck. by vm_compute. }
  split; [by vm_compute|]. split; [exact Hstuck|].
  split; [by vm_compute|].
  by destruct (Stuck_run evs _ Hstuck).
Qed.

(** ** The clipboard around an expansion *)

(** C4 as stated fails when the read of the snapshot throws: nothing is
    saved, and the restore clears the clipboard instead of writing the text
    back. *)
Lemma C4_read_failure_counterexample :
  ¬ ∀ (w : World) (f : Faults) (err : bool) (X : jsstring),
      Reachable w →
      (∃ t rest s, immediates w = t :: rest ∧ imm_snippet t = Some s) →
      processes w = [] → timers w = [] →
      clipboard w = {| image := []; text := X |} →
      let w' := run [RunImmediate f; ExecDone 0 err; TimerFire false] w in
      processes w' = [] → timers w' = [] →
      text (clipboard w') = X.
Proof.
  intros Hclaim.
  assert (immediates typed_dev1 = [dev1_queued]) as Himm
    by (vm_compute; reflexivity).
  assert (processes typed_dev1 = []) as Hproc by (vm_compute; reflexivity).
  assert (timers typed_dev1 = []) as Htim by (vm_compute; reflexivity).
  assert (clipboard typed_dev1 = {| image := []; text := js "X" |}) as Hclip
    by (vm_compute; reflexivity).
  pose proof (Hclaim typed_dev1 read_fails false (js "X")
                (reachable_run _ _ (reach_loaded _ _))
                (ex_intro _ dev1_queued
                   (ex_intro _ []
                      (ex_intro _ dev1_snippet (conj Himm eq_refl))))
                Hproc Htim Hclip) as Habs.
  cbv zeta in Habs.
  assert (text (clipboard
            (run [RunImmediate read_fails; ExecDone 0 false; TimerFire false]
               typed_dev1)) = js "X") as Hx.
  { apply Habs; vm_compute; reflexivity. }
  vm_compute in Hx. discriminate Hx.
Qed.

(** The snapshot of an expansion goes from the immediate callback to the
    child process, from there to the timer, and the timer restores from
    it. *)
Lemma snapshot_taken (w : World) (t : Immediate) (rest : list Immediate)
  (s : Snippet) (f : Faults) :
  immediates w = t :: rest →
  imm_snippet t = Some s →
  writeText_throws f = false →
  let w' := world_of (step (RunImmediate f) w) in
  processes w' =
    processes w ++
    [ {| proc_deleteCount := imm_deleteCount t;
         proc_saved := save_clipboard f (clipboard w) |} ] ∧
  timers w' = timers w ∧
  clipboard w' = writeText (body s).
Proof.
  intros Himm Hsnip Hwt. simpl. rewrite Himm.
  unfold immediate_callback. rewrite Hsnip. simpl.
  unfold runExpansion, playPopSound, report_usage. rewrite Hwt.
  by destruct (falsy _), (spawn_throws f), (spawn_fails f), (usage_fault f).
Qed.

Lemma snapshot_handed_over (w : World) (i : nat) (p : Process) (err : bool) :
  processes w !! i = Some p →
  let w' := world_of (step (ExecDone i err) w) in
  processes w' = delete i (processes w) ∧
  timers w' = timers w ++ [proc_saved p] ∧
  clipboard w' = clipboard w.
Proof.
  intros Hp. simpl. rewrite Hp. simpl. unfold exec_callback. by destruct err.
Qed.

Lemma snapshot_restored (w : World) (snap : Snapshot) (rest : list Snapshot) :
  timers w = snap :: rest →
  let w' := world_of (step (TimerFire false) w) in
  timers w' = rest ∧
  expanding (vars w') = false ∧
  clipboard w' =
    match savedImage snap, savedText snap with
    | Some img, _ => writeImage img
    | None, Some txt => writeText txt
    | None, None => clear
    end.
Proof. intros Ht. simpl. rewrite Ht. simpl. by destruct snap as [[?|] [?|]]. Qed.

(** C4 (amended). Take an expansion whose snapshot reads, clipboard write
    and restore do not throw, started when the clipboard holds the text [X]
    and no image.  Its immediate callback saves the text [X] with the child
    process it starts and puts the expansion text on the clipboard; the
    callback of the child process hands the saved text to the timer; the
    timer writes the saved image if there is one, else the saved text if
    there is one, else it clears the clipboard.  So when the three turns run
    with no other expansion in flight, whatever the other faults, the result
    of the synthetic input and the entry points called in between, the
    clipboard holds the text [X] again after the restore, and the lock is
    released. *)
Theorem C4_clipboard_round_trip (w : World) (t : Immediate)
  (rest : list Immediate) (s : Snippet) (f : Faults) (X : jsstring) :
  immediates w = t :: rest →
  imm_snippet t = Some s →
  clipboard w = {| image := []; text := X |} →
  readImage_throws f = false →
  readText_throws f = false →
  writeText_throws f = false →
  let saved := {| savedImage := None; savedText := Some X |} in
  (let w' := world_of (step (RunImmediate f) w) in
   processes w' =
     processes w ++
     [ {| proc_deleteCount := imm_deleteCount t; proc_saved := saved |} ] ∧
   timers w' = timers w ∧
   clipboard w' = {| image := []; text := body s |}) ∧
  (∀ w0 i p err,
     processes w0 !! i = Some p →
     let w0' := world_of (step (ExecDone i err) w0) in
     timers w0' = timers w0 ++ [proc_saved p] ∧
     clipboard w0' = clipboard w0) ∧
  (∀ w0 snap rest0,
     timers w0 = snap :: rest0 →
     clipboard (world_of (step (TimerFire false) w0)) =
       match savedImage snap, savedText snap with
       | Some img, _ => writeImage img
       | None, Some txt => writeText txt
       | None, None => clear
       end) ∧
  (∀ w0 rest0,
     timers w0 = saved :: rest0 →
     clipboard (world_of (step (TimerFire false) w0))
       = {| image := []; text := X |}) ∧
  (∀ err ks1 ks2,
     processes w = [] →
     timers w = [] →
     forallb foreground ks1 = true →
     forallb foreground ks2 = true →
     let w1 := run ks1 (world_of (step (RunImmediate f) w)) in
     let w2 := run ks2 (world_of (step (ExecDone 0 err) w1)) in
     let w3 := world_of (step (TimerFire false) w2) in
     clipboard w1 = {| image := []; text := body s |} ∧
     clipboard w3 = {| image := []; text := X |} ∧
     processes w3 = [] ∧ timers w3 = [] ∧
     expanding (vars w3) = false).
Proof.
  intros Himm Hsnip Hclip Hri Hrt Hwt saved.
  assert (save_clipboard f (clipboard w) = saved) as Hsaved.
  { unfold save_clipboard. by rewrite Hri, Hrt, Hclip. }
  split.
  { destruct (snapshot_taken w t rest s f Himm Hsnip Hwt) as (Hp & Ht & Hc).
    by rewrite Hsaved in Hp. }
  split.
  { intros w0 i p err Hp.
    by destruct (snapshot_handed_over w0 i p err Hp) as (_ & ? & ?). }
  split.
  { intros w0 snap rest0 Ht.
    by destruct (snapshot_restored w0 snap rest0 Ht) as (_ & _ & ?). }
  split.
  { intros w0 rest0 Ht.
    by destruct (snapshot_restored w0 saved rest0 Ht) as (_ & _ & ?). }
  intros err ks1 ks2 Hproc Htim Hks1 Hks2 w1 w2 w3.
  destruct (expansion_turns w t rest s f err false ks1 ks2
              Himm Hsnip Hproc Htim Hwt Hks1 Hks2)
    as (_ & Hc1 & _ & _ & _ & _ & Hc3 & Hp3 & Ht3 & Hlock).
  rewrite Hsaved in Hc3. by split_and!.
Qed.

Lemma C4_clipboard_round_trip_witness :
  clipboard
    (world_of (step (TimerFire false)
       (run [KeyDown (press 32)]
          (world_of (step (ExecDone 0 true)
             (run [KeyDown (press BACKSPACE); KeyDown (press 47)]
                (world_of (step (RunImmediate no_faults) typed_dev1))))))))
  = {| image := []; text := js "X" |}.
Proof.
  assert (immediates typed_dev1 = [dev1_queued]) as Himm
    by (vm_compute; reflexivity).
  assert (processes typed_dev1 = []) as Hproc by (vm_compute; reflexivity).
  assert (timers typed_dev1 = []) as Htim by (vm_compute; reflexivity).
  assert (clipboard typed_dev1 = {| image := []; text := js "X" |}) as Hclip
    by (vm_compute; reflexivity).
  pose proof (C4_clipboard_round_trip typed_dev1 dev1_queued [] dev1_snippet
                no_faults (js "X") Himm eq_refl Hclip eq_refl eq_refl eq_refl)
    as (_ & _ & _ & _ & Hrun).
  exact (proj1 (proj2
    (Hrun true [KeyDown (press BACKSPACE); KeyDown (press 47)]
       [KeyDown (press 32)] Hproc Htim eq_refl eq_refl))).
Defined.

(** ** Replacing the shortcut index *)

Lemma obj_get_set {V} (k k0 : jsstring) (v : V) (o : object V) :
  obj_get k (obj_set k0 v o) =
  if bool_decide (k0 = k) then Some v else obj_get k o.
Proof.
  induction o as [|[k' v'] o IH]; simpl.
  - done.
  - destruct (decide (k' = k0)) as [->|Hne].
    + rewrite bool_decide_eq_true_2 by done. simpl.
      by destruct (bool_decide (k0 = k)).
    + rewrite bool_decide_eq_false_2 by done. simpl. rewrite IH.
      case_bool_decide as Hk'; [|done].
      rewrite bool_decide_eq_false_2; [done|congruence].
Qed.

Lemma last_cons_filter (k : jsstring) (x : Snippet) (l : list Snippet) :
  last (filter (λ s, toLowerCase (shortcut s) = k) (x :: l)) =
  match last (filter (λ s, toLowerCase (shortcut s) = k) l) with
  | Some s => Some s
  | None => if bool_decide (toLowerCase (shortcut x) = k) then Some x else None
  end.
Proof.
  rewrite filter_cons. case_decide as Hx.
  - rewrite bool_decide_eq_true_2 by done.
    by destruct (filter _ l) as [|y l'] using rev_ind;
      [|rewrite app_comm_cons, !last_snoc].
  - rewrite bool_decide_eq_false_2 by done. by destruct (last _).
Qed.

(** The map built from a collection: a key holds the last snippet of the
    collection with that lower-cased shortcut. *)
Lemma obj_get_build_map (coll : list Snippet) (k : jsstring) :
  obj_get k (build_map coll) =
  if bool_decide (k = js "__proto__") then None
  else last (filter (λ s, toLowerCase (shortcut s) = k) coll).
Proof.
  unfold build_map.
  assert (∀ l acc,
    obj_get k (fold_left (λ m s, assign (toLowerCase (shortcut s)) s m) l acc)
    = if bool_decide (k = js "__proto__") then obj_get k acc
      else match last (filter (λ s, toLowerCase (shortcut s) = k) l) with
           | Some s => Some s
           | None => obj_get k acc
           end) as Hgen.
  { induction l as [|x l IH]; intros acc.
    - simpl. by destruct (bool_decide _).
    - simpl fold_left. rewrite IH, last_cons_filter. unfold assign.
      destruct (decide (k = js "__proto__")) as [->|Hk].
      + rewrite (bool_decide_eq_true_2 (js "__proto__" = js "__proto__"))
          by done.
        destruct (decide (toLowerCase (shortcut x) = js "__proto__"))
          as [Hp|Hp].
        * by rewrite (bool_decide_eq_true_2 _ Hp).
        * rewrite (bool_decide_eq_false_2 _ Hp), obj_get_set.
          by rewrite (bool_decide_eq_false_2 _ Hp).
      + rewrite (bool_decide_eq_false_2 (k = js "__proto__")) by done.
        destruct (last _); [done|].
        destruct (decide (toLowerCase (shortcut x) = js "__proto__"))
          as [Hp|Hp].
        * rewrite (bool_decide_eq_true_2 _ Hp).
          rewrite bool_decide_eq_false_2; [done|congruence].
        * rewrite (bool_decide_eq_false_2 _ Hp), obj_get_set.
          by destruct (bool_decide (toLowerCase (shortcut x) = k)). }
  rewrite Hgen. simpl. destruct (bool_decide _); [done|].
  by destruct (last _).
Qed.

(** C8 as stated fails for the second half: [startKeyListener] generates the
    pop sound before it looks at [active], so a call on an active listener
    that has no pop sound yet does more than [updateSnippets]. *)
Lemma C8_pop_sound_counterexample :
  ¬ ∀ (env : StartEnv) (coll : list Snippet) (w : World),
      Reachable w →
      active (vars w) = true →
      startKeyListener env coll w = updateSnippets coll w.
Proof.
  intros Hclaim.
  assert (active (vars started_silent) = true) as Hact
    by (vm_compute; reflexivity).
  pose proof (Hclaim fair_start dev_snippets started_silent
                (reachable_run _ _ (reach_loaded _ _)) Hact) as Habs.
  apply (f_equal (λ w, popSoundPath (vars w))) in Habs.
  vm_compute in Habs. discriminate Habs.
Qed.

(** C8 (amended). [updateSnippets] replaces the shortcut index: the new map
    holds, under each lower-cased shortcut, the last snippet of the
    collection with that shortcut, and the new list is the keys of the map,
    longest first; whatever the index was before.  Nothing else changes, in
    particular not the buffer and not [expanding].  A call of
    [startKeyListener] on an active listener generates the pop sound if there
    is none yet and then does exactly [updateSnippets]; it too leaves the
    buffer and [expanding] as they are. *)
Theorem C8_update_frame (env : StartEnv) (coll : list Snippet) (w : World) :
  let u := updateSnippets coll w in
  let s := startKeyListener env coll w in
  (∀ k, obj_get k (snippetMap (vars u)) =
        if bool_decide (k = js "__proto__") then None
        else last (filter (λ x, toLowerCase (shortcut x) = k) coll)) ∧
  shortcutList (vars u) ≡ₚ Object_keys (snippetMap (vars u)) ∧
  StronglySorted not_shorter (shortcutList (vars u)) ∧
  u = on_vars (with_index (snippetMap (vars u)) (shortcutList (vars u))) w ∧
  buffer (vars u) = buffer (vars w) ∧
  expanding (vars u) = expanding (vars w) ∧
  (active (vars w) = true →
     s = updateSnippets coll
           (if falsy (popSoundPath (vars w)) then generatePopSound env w
            else w) ∧
     (falsy (popSoundPath (vars w)) = false → s = u) ∧
     snippetMap (vars s) = snippetMap (vars u) ∧
     shortcutList (vars s) = shortcutList (vars u) ∧
     buffer (vars s) = buffer (vars w) ∧
     expanding (vars s) = expanding (vars w)).
Proof.
  intros u s. subst u s. simpl.
  split; [apply obj_get_build_map|].
  split; [apply Array_sort_perm|].
  split; [apply Array_sort_longest_first|].
  split; [done|]. split; [done|]. split; [done|].
  intros Hact. unfold startKeyListener, generatePopSound.
  destruct (falsy (popSoundPath (vars w))), (writeFile_throws env); simpl;
    rewrite Hact; done.
Qed.

Lemma C8_update_frame_witness :
  startKeyListener fair_start dev_snippets typed_a
  = updateSnippets dev_snippets typed_a.
Proof.
  assert (active (vars typed_a) = true) as Hact by (vm_compute; reflexivity).
  assert (falsy (popSoundPath (vars typed_a)) = false) as Hpop
    by (vm_compute; reflexivity).
  exact (proj1 (proj2
    (proj2 (proj2 (proj2 (proj2 (proj2 (proj2
      (C8_update_frame fair_start dev_snippets typed_a)))))) Hact)) Hpop).
Defined.

(** ** The usage report *)







(** ** The example of the two shortcuts *)

Lemma lookup_dev_snippets (typed : jsstring) (w : World) :
  let g := with_buffer typed (vars (updateSnippets dev_snippets w)) in
  (js "dev12" `suffix_of` toLowerCase typed →
   lookup_suffix g =
     Some {| snippet := Some {| id := 2; shortcut := js "dev12";
                                body := js "second" |};
             matchLen := 5 |}) ∧
  (js "dev1" `suffix_of` toLowerCase typed →
   ¬ js "dev12" `suffix_of` toLowerCase typed →
   lookup_suffix g = Some {| snippet := Some dev1_snippet; matchLen := 4 |}).
Proof.
  intros g. subst g. unfold lookup_suffix, updateSnippets.
  cbn [buffer snippetMap shortcutList with_buffer vars on_vars with_index].
  change (build_list (build_map dev_snippets)) with [js "dev12"; js "dev1"].
  split.
  - intros H12%endsWith_suffix. cbn [first_suffix]. by rewrite H12.
  - intros H1%endsWith_suffix H12%endsWith_false. cbn [first_suffix].
    by rewrite H12, H1.
Qed.

(** The lookup misses only when no registered shortcut is a suffix. *)
Lemma lookup_suffix_complete (coll : list Snippet) (typed : jsstring)
  (w : World) (k : jsstring) :
  let g := with_buffer typed (vars (updateSnippets coll w)) in
  k ∈ shortcutList g → k `suffix_of` toLowerCase typed →
  is_Some (lookup_suffix g).
Proof.
  intros g Hk Hsuf. destruct (lookup_suffix g) as [m|] eqn:Hm; [done|].
  unfold lookup_suffix in Hm.
  pose proof (proj1 (first_suffix_None _ _ _) Hm) as Hno.
  by destruct (Hno k Hk Hsuf).
Qed.

(** * Further properties of the key listener *)

(** ** When an expansion starts *)

Lemma lookup_suffix_Some_iff (g : Engine) :
  is_Some (lookup_suffix g) ↔
  ∃ key, key ∈ shortcutList g ∧ key `suffix_of` toLowerCase (buffer g).
Proof.
  unfold lookup_suffix. split.
  - intros [m Hm].
    apply first_suffix_Some in Hm as (before & key & after & Hs & _ & Hsuf & _).
    exists key. split; [|done]. rewrite Hs. apply elem_of_app. right. by left.
  - intros (key & Hkey & Hsuf).
    destruct (first_suffix _ _ _) as [m|] eqn:Hm; [done|].
    pose proof (proj1 (first_suffix_None _ _ _) Hm) as Hno.
    by destruct (Hno key Hkey Hsuf).
Qed.

Lemma snoc_ne {A} (l : list A) (x : A) : l ++ [x] ≠ l.
Proof.
  intros Heq. apply (f_equal length) in Heq. rewrite length_app in Heq.
  simpl in Heq. lia.
Qed.

Lemma keydown_times_locked (e : KeyEvent) (n : nat) (w : World) :
  expanding (vars w) = true → Nat.iter n (keydown e) w = w.
Proof.
  intros Hl. induction n as [|n IH]; simpl; [done|].
  rewrite IH. by apply keydown_locked.
Qed.

Lemma appended_times_succ (k : nat) (b char : jsstring) :
  appended_times (S k) (appended b char) char
  = appended_times (S (S k)) b char.
Proof.
  unfold appended_times.
  by rewrite (Nat.iter_succ_r (S k) (λ b', appended b' char) b).
Qed.

(** When runs of the handler, one after the other, start an expansion. *)
Lemma handler_runs_start (e : KeyEvent) (n : nat) (w : World) :
  immediates (Nat.iter n (keydown e) w) ≠ immediates w ↔
  expanding (vars w) = false ∧
  keycode e ≠ BACKSPACE ∧
  ∃ char key k,
    table_get (keycode e) KEYCODE_MAP = Some char ∧
    k < n ∧
    key ∈ shortcutList (vars w) ∧
    key `suffix_of` toLowerCase (appended_times (S k) (buffer (vars w)) char).
Proof.
  revert w. induction n as [|n IH]; intros w.
  { simpl. split; [done|]. intros (_ & _ & ? & ? & k & _ & Hk & _). lia. }
  rewrite Nat.iter_succ_r. specialize (IH (keydown e w)).
  destruct (keydown_handled e w)
    as [Hl|Hl Hb|Hl Hb Hc Hbd|Hl Hb Hc Hbd|char Hl Hb Hc Hm|char m Hl Hb Hc Hm].
  - rewrite keydown_times_locked by done.
    split; [done|]. intros (? & _). congruence.
  - cbn [immediates on_vars vars] in IH.
    split; [|by intros (_ & ? & _)].
    intros H. apply IH in H as (_ & ? & _). done.
  - cbn [immediates on_vars vars] in IH.
    split; [|intros (_ & _ & ? & ? & ? & ? & _); congruence].
    intros H. apply IH in H as (_ & _ & ? & ? & ? & ? & _). congruence.
  - split; [|intros (_ & _ & ? & ? & ? & ? & _); congruence].
    intros H. apply IH in H as (_ & _ & ? & ? & ? & ? & _). congruence.
  - cbn [immediates on_vars vars with_detections with_buffer expanding
         shortcutList buffer] in IH.
    rewrite IH. split.
    + intros (_ & _ & char' & key & k & Hc' & Hk & Hkey & Hsuf).
      assert (char' = char) as -> by congruence.
      split; [done|]. split; [done|]. exists char, key, (S k).
      split; [done|]. split; [lia|]. split; [done|].
      by rewrite <- appended_times_succ.
    + intros (_ & _ & char' & key & k & Hc' & Hk & Hkey & Hsuf).
      assert (char' = char) as -> by congruence.
      split; [done|]. split; [done|].
      destruct k as [|k].
      * exfalso.
        assert (is_Some (lookup_suffix
                  (with_buffer (appended (buffer (vars w)) char) (vars w))))
          as [m Hm'].
        { apply lookup_suffix_Some_iff. by exists key. }
        congruence.
      * exists char, key, k. split; [done|]. split; [lia|]. split; [done|].
        by rewrite appended_times_succ.
  - rewrite keydown_times_locked by done.
    split; [|intros _; apply snoc_ne].
    intros _. split; [done|]. split; [done|].
    assert (is_Some (lookup_suffix
              (with_buffer (appended (buffer (vars w)) char) (vars w))))
      as Hsome by (by rewrite Hm).
    apply lookup_suffix_Some_iff in Hsome as (key & Hkey & Hsuf).
    exists char, key, 0. split; [done|]. split; [lia|]. by split.
Qed.

(** X1. A keydown event queues an expansion exactly when the lock is free,
    the key is not backspace and has a character in the table, and, for
    some [k] below the number of handlers registered, some registered
    shortcut is a suffix of the lower-cased buffer after [k + 1] appends of
    the character (each with its cut to 30 characters, if any): every
    handler appends the character until one of them finds a match.  With
    one handler registered this is the buffer after the append. *)
Theorem expansion_starts_iff (e : KeyEvent) (w : World) :
  immediates (world_of (step (KeyDown e) w)) ≠ immediates w ↔
  expanding (vars w) = false ∧
  keycode e ≠ BACKSPACE ∧
  ∃ char key k,
    table_get (keycode e) KEYCODE_MAP = Some char ∧
    k < handlers w ∧
    key ∈ shortcutList (vars w) ∧
    key `suffix_of` toLowerCase (appended_times (S k) (buffer (vars w)) char).
Proof. apply handler_runs_start. Qed.

(** ** What the index registers *)

Lemma registered_iff (coll : list Snippet) (k : jsstring) :
  k ∈ fst <$> build_map coll ↔
  k ≠ js "__proto__" ∧ ∃ s, s ∈ coll ∧ toLowerCase (shortcut s) = k.
Proof.
  split.
  - intros Hk. destruct (obj_get_is_Some _ _ Hk) as [s Hs].
    split.
    + intros ->. rewrite obj_get_build_map in Hs.
      by rewrite bool_decide_eq_true_2 in Hs.
    + apply obj_get_Some_key, build_map_entries in Hs as [? ?]. by exists s.
  - intros (Hproto & s & Hs & Hk).
    pose proof (obj_get_build_map coll k) as Hget.
    rewrite bool_decide_eq_false_2 in Hget by done.
    destruct (last (filter (λ x, toLowerCase (shortcut x) = k) coll))
      as [s'|] eqn:Hlast.
    + apply obj_get_Some_key in Hget.
      apply list_elem_of_fmap. by exists (k, s').
    + apply last_None in Hlast.
      assert (s ∈ filter (λ x, toLowerCase (shortcut x) = k) coll) as Hin
        by (by apply list_elem_of_filter).
      rewrite Hlast in Hin. by apply elem_of_nil in Hin.
Qed.

(** A match on an index built from a collection: its key and its snippet. *)
Lemma match_on_built_index (coll : list Snippet) (lower : jsstring)
  (m : Match) :
  first_suffix lower (build_map coll) (build_list (build_map coll)) = Some m →
  ∃ key s,
    key ∈ build_list (build_map coll) ∧ key `suffix_of` lower ∧
    snippet m = Some s ∧ matchLen m = length key ∧
    s ∈ coll ∧ toLowerCase (shortcut s) = key.
Proof.
  intros (before & key & after & Hsplit & _ & Hsuf & Hsnip & Hlen)
    %first_suffix_Some.
  assert (key ∈ build_list (build_map coll)) as Hkey.
  { rewrite Hsplit. apply elem_of_app. right. by left. }
  assert (key ∈ fst <$> build_map coll) as Hkey'.
  { unfold build_list in Hkey.
    by rewrite elem_of_Array_sort, elem_of_Object_keys in Hkey. }
  destruct (obj_get_is_Some _ _ Hkey') as [s Hs].
  pose proof (obj_get_Some_key _ _ _ Hs) as [Hin Hk]%build_map_entries.
  exists key, s. by rewrite Hsnip.
Qed.

(** X2. Right after the index is replaced, a run of the keydown handler
    can only start the expansion of a snippet of the new collection, one
    whose lower-cased shortcut ends the lower-cased buffer after the append
    of that run; it will delete as many characters as that shortcut has.
    The expansions already queued keep the snippet they were queued
    with. *)
Theorem swap_takes_effect (coll : list Snippet) (w : World) (e : KeyEvent)
  (t : Immediate) :
  let w1 := updateSnippets coll w in
  immediates (keydown e w1) = immediates w1 ++ [t] →
  immediates w1 = immediates w ∧
  ∃ s char,
    s ∈ coll ∧ imm_snippet t = Some s ∧
    imm_deleteCount t = length (shortcut s) ∧
    table_get (keycode e) KEYCODE_MAP = Some char ∧
    toLowerCase (shortcut s)
      `suffix_of` toLowerCase (appended (buffer (vars w)) char).
Proof.
  intros w1 Hq. split; [done|]. revert Hq.
  destruct (keydown_handled e w1)
    as [Hl|Hl Hb|Hl Hb Hc Hbd|Hl Hb Hc Hbd|char Hl Hb Hc Hm|char m Hl Hb Hc Hm];
    simpl; try (by intros Hq; symmetry in Hq; apply snoc_ne in Hq).
  intros Hq. apply app_inj_tail in Hq as [_ <-]. simpl.
  unfold lookup_suffix in Hm. simpl in Hm.
  apply match_on_built_index in Hm
    as (key & s & _ & Hsuf & Hsnip & Hlen & Hin & Hkey).
  exists s, char. split; [done|]. split; [done|].
  split; [|split; [done|by rewrite Hkey]].
  rewrite Hlen, <- Hkey. unfold toLowerCase. by rewrite length_fmap.
Qed.

Lemma swap_takes_effect_witness :
  ∃ s char,
    s ∈ dev_snippets ∧ imm_snippet dev1_queued = Some s ∧
    imm_deleteCount dev1_queued = length (shortcut s) ∧
    table_get (keycode (press 2)) KEYCODE_MAP = Some char ∧
    toLowerCase (shortcut s)
      `suffix_of` toLowerCase (appended (js "dev") char).
Proof.
  assert (immediates
            (keydown (press 2)
               (updateSnippets dev_snippets
                  (run [StartKeyListener fair_start [];
                        KeyDown (press 32); KeyDown (press 18);
                        KeyDown (press 47)] quiet_world)))
          = immediates
              (updateSnippets dev_snippets
                 (run [StartKeyListener fair_start [];
                       KeyDown (press 32); KeyDown (press 18);
                       KeyDown (press 47)] quiet_world)) ++ [dev1_queued])
    as Hq by (vm_compute; reflexivity).
  exact (proj2 (swap_takes_effect dev_snippets _ (press 2) dev1_queued Hq)).
Defined.

(** X3. The empty shortcut: once a snippet with an empty shortcut is
    registered, every key event that appends a character while the lock is
    free starts an expansion, sets the lock and empties the buffer. *)
Theorem empty_shortcut_always_fires (coll : list Snippet) (s : Snippet)
  (w : World) (e : KeyEvent) (char : jsstring) :
  s ∈ coll →
  shortcut s = [] →
  let w1 := updateSnippets coll w in
  expanding (vars w) = false →
  keycode e ≠ BACKSPACE →
  table_get (keycode e) KEYCODE_MAP = Some char →
  [] ∈ shortcutList (vars w1) ∧
  ∃ t, immediates (keydown e w1) = immediates w ++ [t] ∧
       expanding (vars (keydown e w1)) = true ∧
       buffer (vars (keydown e w1)) = [].
Proof.
  intros Hs Hempty w1 Hl Hb Hc.
  assert ([] ∈ shortcutList (vars w1)) as Hreg.
  { apply shortcutList_updateSnippets, registered_iff.
    split; [done|]. exists s. split; [done|]. by rewrite Hempty. }
  split; [done|].
  destruct (keydown_handled e w1)
    as [Hl'|Hl' Hb'|Hl' Hb' Hc' Hbd|Hl' Hb' Hc' Hbd|char' Hl' Hb' Hc' Hm
        |char' m Hl' Hb' Hc' Hm];
    simpl in *; try congruence.
  - exfalso.
    pose proof (proj1 (first_suffix_None _ _ _) Hm [] Hreg) as Hno.
    apply Hno. apply suffix_nil.
  - by eexists.
Qed.

Lemma empty_shortcut_always_fires_witness :
  ∃ t, immediates
         (keydown (press 30)
            (updateSnippets [ {| id := 7; shortcut := []; body := js "!" |} ]
               typed_a))
       = immediates typed_a ++ [t] ∧
       expanding (vars (keydown (press 30)
            (updateSnippets [ {| id := 7; shortcut := []; body := js "!" |} ]
               typed_a))) = true ∧
       buffer (vars (keydown (press 30)
            (updateSnippets [ {| id := 7; shortcut := []; body := js "!" |} ]
               typed_a))) = [].
Proof.
  assert (expanding (vars typed_a) = false) as Hl by (vm_compute; reflexivity).
  exact (proj2 (empty_shortcut_always_fires
                  [ {| id := 7; shortcut := []; body := js "!" |} ]
                  {| id := 7; shortcut := []; body := js "!" |}
                  typed_a (press 30) (js "a")
                  ltac:(by left) eq_refl Hl ltac:(done) eq_refl)).
Defined.

(** ** Every queued expansion *)

Lemma immediates_step (ev : Event) (w : World) :
  (∃ e, ev = KeyDown e) ∨
  immediates (world_of (step ev w)) = immediates w ∨
  immediates (world_of (step ev w)) = tail (immediates w).
Proof.
  assert (∀ f x,
    immediates (world_of (match immediates w with
                          | [] => Returned w
                          | t :: rest =>
                              immediate_callback f x t (with_immediates rest w)
                          end)) = immediates w ∨
    immediates (world_of (match immediates w with
                          | [] => Returned w
                          | t :: rest =>
                              immediate_callback f x t (with_immediates rest w)
                          end)) = tail (immediates w)) as Himmediate.
  { intros f x. destruct (immediates w) as [|t rest] eqn:Himm; [by left|]. right.
    unfold immediate_callback, runExpansion, playPopSound, report_usage.
    destruct (imm_snippet t); [|done].
    by destruct (falsy _), (spawn_throws f), (spawn_fails f),
      (writeText_throws f), x, (usage_fault f). }
  destruct ev as [env coll|coll| |e|f|i err|rt|f|]; simpl.
  - right. left. unfold startKeyListener, generatePopSound.
    destruct (falsy _), (writeFile_throws env); simpl;
      destruct (active (vars w)); simpl; try done;
      by destruct (require_throws env), (start_throws env).
  - by right; left.
  - right. left. unfold stopKeyListener. by destruct (uiohook _ && active _).
  - left. by exists e.
  - right. apply Himmediate.
  - right. left. destruct (processes w !! i); [|done]. simpl.
    unfold exec_callback. by destruct err.
  - right. left. by destruct (timers w).
  - right. apply Himmediate.
  - right. left. by destruct (spawn_errors w).
Qed.

Lemma Forall_tail {A} (P : A → Prop) (l : list A) :
  Forall P l → Forall P (tail l).
Proof. destruct 1; [constructor|done]. Qed.

Lemma hit_well_queued (w : World) (char : jsstring) (m : Match) :
  Inv (vars w) → Indexed w →
  (∃ code, table_get code KEYCODE_MAP = Some char) →
  lookup_suffix (with_buffer (appended (buffer (vars w)) char) (vars w))
    = Some m →
  well_queued {| imm_deleteCount := matchLen m; imm_snippet := snippet m |}.
Proof.
  intros [_ Hlen Hchars] [[coll Hmap] Hlist _] [code Hc] Hm.
  apply KEYCODE_MAP_char in Hc as (c & -> & Hc).
  pose proof (appended_length (buffer (vars w)) [c] eq_refl) as Hlen'.
  pose proof (appended_chars (buffer (vars w)) [c] Hchars
                ltac:(by apply Forall_singleton)) as Hchars'.
  unfold lookup_suffix in Hm. simpl in Hm.
  rewrite (toLowerCase_table _ Hchars'), Hlist, Hmap in Hm.
  apply match_on_built_index in Hm
    as (key & s & _ & Hsuf & Hsnip & Hmlen & _ & Hkey).
  assert (length (shortcut s) = length key) as Hsl.
  { rewrite <- Hkey. unfold toLowerCase. by rewrite length_fmap. }
  exists s. simpl. split; [done|]. split; [congruence|].
  split.
  - apply suffix_length in Hsuf. lia.
  - rewrite Hkey. destruct Hsuf as [pre Hpre]. rewrite Hpre in Hchars'.
    by apply Forall_app in Hchars' as [_ ?].
Qed.

Lemma well_queued_handled (e : KeyEvent) (w : World) :
  Inv (vars w) → Indexed w →
  Forall well_queued (immediates w) →
  Forall well_queued (immediates (keydown e w)).
Proof.
  intros HI HX Hq.
  destruct (keydown_handled e w)
    as [?|? ?|? ? ? ?|? ? ? ?|char ? ? ? ?|char m ? ? Hc Hm]; try done.
  simpl. apply Forall_app. split; [done|]. apply Forall_singleton.
  apply (hit_well_queued w char m); [done|done|by eexists|done].
Qed.

Lemma well_queued_reachable (w : World) :
  Reachable w → Forall well_queued (immediates w).
Proof.
  induction 1 as [c d|ev w Hw IH]; [constructor|].
  destruct (immediates_step ev w) as [[e ->]|[->| ->]];
    [|done|by apply Forall_tail].
  simpl.
  apply (emit_keydown_ind
           (λ w0, Inv (vars w0) ∧ Indexed w0 ∧
                  Forall well_queued (immediates w0)));
    [|by split; [apply Inv_reachable|split; [apply Indexed_reachable|]]].
  intros w0 (HI & HX & Hq).
  split; [apply (Inv_handled e w0); [apply keydown_handled|done]|].
  split; [apply (Indexed_handled e w0); [apply keydown_handled|done]|].
  by apply well_queued_handled.
Qed.

(** X4. In every reachable state, every queued expansion carries a snippet,
    and the number of characters it will delete is the length of that
    snippet's shortcut.  The shortcut has at most 50 characters and, once
    lower-cased, only characters of the key table: a snippet whose shortcut
    is longer, or has a space, an underscore or any other character
    without a key code in the table, is never expanded. *)
Theorem queued_expansions_fit (w : World) (t : Immediate) :
  Reachable w →
  t ∈ immediates w →
  ∃ s, imm_snippet t = Some s ∧
       imm_deleteCount t = length (shortcut s) ∧
       length (shortcut s) ≤ 50 ∧
       Forall (λ c, c ∈ table_chars) (toLowerCase (shortcut s)).
Proof.
  intros Hw Ht. pose proof (well_queued_reachable w Hw) as Hall.
  rewrite Forall_forall in Hall. by apply Hall.
Qed.

Lemma queued_expansions_fit_witness :
  ∃ s, imm_snippet dev1_queued = Some s ∧
       imm_deleteCount dev1_queued = length (shortcut s) ∧
       length (shortcut s) ≤ 50 ∧
       Forall (λ c, c ∈ table_chars) (toLowerCase (shortcut s)).
Proof.
  assert (immediates typed_dev1 = [dev1_queued]) as Himm
    by (vm_compute; reflexivity).
  apply (queued_expansions_fit typed_dev1 dev1_queued
           (reachable_run _ _ (reach_loaded _ _))).
  rewrite Himm. by left.
Defined.

(** ** Shortcuts inside shortcuts *)

Lemma occurs_in_drop (k l : jsstring) (n : nat) :
  occurs_in k (drop n l) → occurs_in k l.
Proof.
  intros (a & b & Heq). exists (take n l ++ a), b.
  by rewrite <- (take_drop n l) at 1; rewrite Heq, <- !app_assoc.
Qed.

Lemma occurs_in_removelast (k l : jsstring) :
  occurs_in k (removelast l) → occurs_in k l.
Proof.
  destruct l as [|x l _] using rev_ind; [done|]. rewrite removelast_last.
  intros (a & b & ->). exists a, (b ++ [x]). by rewrite <- !app_assoc.
Qed.

(** An occurrence in [l ++ [c]] is an occurrence in [l] or ends the list. *)
Lemma occurs_in_snoc (k l : jsstring) (c : ascii) :
  occurs_in k (l ++ [c]) → occurs_in k l ∨ k `suffix_of` (l ++ [c]).
Proof.
  intros (a & b & Heq).
  destruct b as [|y b _] using rev_ind.
  - right. exists a. by rewrite Heq, app_nil_r.
  - left. rewrite !app_assoc in Heq. apply app_inj_tail in Heq as [-> _].
    exists a, b. by rewrite <- app_assoc.
Qed.

Lemma suffix_of_suffix (k l' l : jsstring) :
  k `suffix_of` l → l' `suffix_of` l → length k ≤ length l' →
  k `suffix_of` l'.
Proof.
  intros [p ->] [p' Heq] Hlen.
  assert (length p' ≤ length p) as Hp.
  { apply (f_equal length) in Heq. rewrite !length_app in Heq. lia. }
  exists (drop (length p') p).
  apply (f_equal (drop (length p'))) in Heq.
  rewrite drop_app_length in Heq. rewrite <- Heq.
  by rewrite drop_app_le.
Qed.

Lemma occurs_in_length (k l : jsstring) : occurs_in k l → length k ≤ length l.
Proof. intros (a & b & ->). rewrite !length_app. lia. Qed.

Lemma toLowerCase_app (a b : jsstring) :
  toLowerCase (a ++ b) = toLowerCase a ++ toLowerCase b.
Proof. apply fmap_app. Qed.

Lemma toLowerCase_appended (b char : jsstring) :
  toLowerCase (appended b char)
  = appended (toLowerCase b) (toLowerCase char).
Proof.
  unfold appended. cbv zeta. rewrite <- toLowerCase_app.
  unfold toLowerCase. rewrite length_fmap.
  destruct (50 <? _); [|done]. by rewrite fmap_drop.
Qed.

(** After an append that matches nothing, a clean buffer is clean. *)
Lemma Clean_appended (keys : list jsstring) (b : jsstring) (c : ascii) :
  (∀ k, k ∈ keys → k ≠ [] → ¬ occurs_in k b) →
  (∀ k, k ∈ keys → ¬ k `suffix_of` appended b [c]) →
  ∀ k, k ∈ keys → k ≠ [] → ¬ occurs_in k (appended b [c]).
Proof.
  intros Hclean Hmiss k Hk Hne Hocc.
  assert (appended b [c] `suffix_of` (b ++ [c])) as Hsuf.
  { unfold appended. simpl. destruct (50 <? _); [apply suffix_drop|done]. }
  assert (occurs_in k (b ++ [c])) as Hocc'.
  { destruct Hsuf as [p Hp]. rewrite Hp.
    destruct Hocc as (a & b' & ->). exists (p ++ a), b'.
    by rewrite <- !app_assoc. }
  apply occurs_in_snoc in Hocc' as [Hin|Hend].
  - by apply (Hclean k Hk Hne).
  - apply (Hmiss k Hk).
    apply (suffix_of_suffix k _ (b ++ [c])); [done|done|].
    by apply occurs_in_length.
Qed.

Lemma toLowerCase_removelast (b : jsstring) :
  toLowerCase (removelast b) = removelast (toLowerCase b).
Proof.
  destruct b as [|c b _] using rev_ind; [done|].
  unfold toLowerCase. rewrite fmap_app. simpl. by rewrite !removelast_last.
Qed.

Lemma Clean_handled (e : KeyEvent) (w w' : World) :
  Handled e w w' → Clean w → Clean w'.
Proof.
  intros Hh Hclean.
  destruct Hh as [?|? ?|? ? ? ?|? ? ? ?|char ? ? Hc Hm|char m ? ? Hc Hm];
    unfold Clean in *; simpl.
  - done.
  - intros k Hk Hne Hocc. apply (Hclean k Hk Hne).
    rewrite toLowerCase_removelast in Hocc. by apply occurs_in_removelast.
  - intros k Hk Hne (a & b & Heq). by destruct a, k.
  - done.
  - apply KEYCODE_MAP_char in Hc as (c & -> & _).
    rewrite toLowerCase_appended. simpl.
    apply Clean_appended; [done|].
    unfold lookup_suffix in Hm. simpl in Hm.
    rewrite toLowerCase_appended in Hm. simpl in Hm.
    exact (proj1 (first_suffix_None _ _ _) Hm).
  - intros k Hk Hne (a & b & Heq). by destruct a, k.
Qed.

Lemma hit_not_inside (keys : list jsstring) (b : jsstring) (c : ascii)
  (key : jsstring) :
  (∀ k, k ∈ keys → k ≠ [] → ¬ occurs_in k b) →
  key `suffix_of` appended b [c] →
  ¬ inside keys key.
Proof.
  intros Hclean [p Hp] (k' & a & rest & Hk' & Hne & Hrest & ->).
  assert (appended b [c] `suffix_of` (b ++ [c])) as [q Hq].
  { unfold appended. simpl. destruct (50 <? _); [apply suffix_drop|done]. }
  rewrite Hp in Hq.
  destruct rest as [|y rest _] using rev_ind; [done|].
  rewrite !app_assoc in Hq. apply app_inj_tail in Hq as [Hb _].
  apply (Hclean k' Hk' Hne). exists (q ++ p ++ a), rest.
  by rewrite Hb, <- !app_assoc.
Qed.

Lemma Settled_handled (coll : list Snippet) (w w' : World) (e : KeyEvent) :
  Settled coll w w' → Settled coll w (keydown e w').
Proof.
  intros [Hclean Hmap Hlist Hq].
  pose proof (keydown_handled e w') as Hh.
  pose proof (Clean_handled e w' _ Hh Hclean) as Hclean'.
  destruct Hh as [?|? ?|? ? ? ?|? ? ? ?|char ? ? Hc Hm|char m ? ? Hc Hm];
    try (by split).
  split; try done. simpl.
  apply Forall_app. split; [done|]. apply Forall_singleton. right. simpl.
  apply KEYCODE_MAP_char in Hc as (c & -> & _).
  unfold lookup_suffix in Hm. simpl in Hm.
  rewrite toLowerCase_appended, Hmap, Hlist in Hm. simpl in Hm.
  apply match_on_built_index in Hm
    as (key & s & _ & Hsuf & Hsnip & _ & Hin & Hkey).
  exists s. split; [done|]. split; [done|]. rewrite Hkey.
  apply (hit_not_inside _ (toLowerCase (buffer (vars w')))
           (toLowerCase_unit c)); [|done].
  unfold Clean in Hclean. by rewrite Hlist in Hclean.
Qed.

Lemma Settled_immediate (coll : list Snippet) (w w' : World) (f : Faults)
  (x : bool) :
  Settled coll w w' →
  Settled coll w
    (world_of (match immediates w' with
               | [] => Returned w'
               | t :: rest =>
                   immediate_callback f x t (with_immediates rest w')
               end)).
Proof.
  intros [Hclean Hmap Hlist Hq].
  destruct (immediates w') as [|t rest] eqn:Himm;
    [split; try done; simpl; rewrite Himm; by constructor|].
  apply Forall_cons in Hq as [_ Hq].
  assert (immediates (world_of (immediate_callback f x t
                                  (with_immediates rest w'))) = rest)
    as Hrest.
  { unfold immediate_callback, runExpansion, playPopSound, report_usage.
    destruct (imm_snippet t); [|done].
    by destruct (falsy _), (spawn_throws f), (spawn_fails f),
      (writeText_throws f), x, (usage_fault f). }
  pose proof (vars_immediate_callback f x t (with_immediates rest w'))
    as Hvars.
  split; unfold Clean; rewrite ?Hvars, ?Hrest; done.
Qed.

Lemma Settled_step (coll : list Snippet) (w w' : World) (ev : Event) :
  keeps_index ev = true →
  Settled coll w w' → Settled coll w (world_of (step ev w')).
Proof.
  intros Hev HS.
  destruct ev as [env coll'|coll'| |e|f|i err|rt|f|]; try done; simpl.
  - destruct HS. unfold stopKeyListener. by destruct (uiohook _ && active _).
  - apply (emit_keydown_ind (Settled coll w)); [|done].
    intros w0. apply Settled_handled.
  - by apply Settled_immediate.
  - destruct HS. destruct (processes w' !! i); [|by split]. simpl.
    unfold exec_callback. destruct err; by split.
  - destruct HS. destruct (timers w'); by split.
  - by apply Settled_immediate.
  - destruct HS. destruct (spawn_errors w'); by split.
Qed.

Lemma Settled_run (coll : list Snippet) (w w' : World) (evs : list Event) :
  forallb keeps_index evs = true →
  Settled coll w w' → Settled coll w (run evs w').
Proof.
  induction evs as [|ev evs IH] using rev_ind; [done|].
  rewrite forallb_app. simpl. rewrite andb_true_r.
  intros [Hevs Hev]%andb_true_iff Hs. rewrite run_snoc.
  apply Settled_step; [done|by apply IH].
Qed.

Lemma Settled_start (env : StartEnv) (coll : list Snippet) (w : World) :
  active (vars w) = false →
  Settled coll w (startKeyListener env coll w).
Proof.
  intros Hact.
  assert (∀ k : jsstring, k ≠ [] → ¬ occurs_in k []) as Hnil.
  { intros k Hne (a & b & Heq). by destruct a, k. }
  assert (Forall (λ t, t ∈ immediates w ∨
                       ∃ s, imm_snippet t = Some s ∧ s ∈ coll ∧
                            ¬ inside (build_list (build_map coll))
                                (toLowerCase (shortcut s)))
            (immediates w)) as Hq.
  { apply Forall_forall. intros t Ht. by left. }
  unfold startKeyListener, generatePopSound.
  destruct (falsy _), (writeFile_throws env); simpl; rewrite Hact;
    destruct (require_throws env), (start_throws env);
    split; unfold Clean; simpl; try done; intros k _; apply Hnil.
Qed.

(** X5. From a start of the listener on, as long as the index is not
    replaced, the shortcut list is the one built from the collection of
    that start, and no registered shortcut (other than the empty one) ever
    occurs in the lower-cased buffer, however many handlers a key event
    runs. *)
Theorem fixed_index_buffer_clean (env : StartEnv) (coll : list Snippet)
  (w : World) (evs : list Event) (k : jsstring) :
  active (vars w) = false →
  forallb keeps_index evs = true →
  let w' := run evs (startKeyListener env coll w) in
  k ∈ shortcutList (vars w') →
  k ≠ [] →
  shortcutList (vars w') = build_list (build_map coll) ∧
  ¬ occurs_in k (toLowerCase (buffer (vars w'))).
Proof.
  intros Hact Hevs w' Hk Hne.
  destruct (Settled_run coll w _ evs Hevs (Settled_start env coll w Hact))
    as [Hclean _ Hlist _].
  split; [done|]. by apply Hclean.
Qed.

(** X6. From a start of the listener on, as long as the index is not
    replaced, every expansion that gets queued is for a snippet of the
    collection whose lower-cased shortcut holds no other registered
    shortcut ending before its own end.  With the shortcuts dev1 and dev12,
    typing never expands dev12, since dev1 fires first and empties the
    buffer. *)
Theorem inner_shortcut_wins (env : StartEnv) (coll : list Snippet)
  (w : World) (evs : list Event) (t : Immediate) :
  active (vars w) = false →
  forallb keeps_index evs = true →
  t ∈ immediates (run evs (startKeyListener env coll w)) →
  t ∈ immediates w ∨
  ∃ s, imm_snippet t = Some s ∧ s ∈ coll ∧
       ¬ inside (build_list (build_map coll)) (toLowerCase (shortcut s)).
Proof.
  intros Hact Hevs Ht.
  destruct (Settled_run coll w _ evs Hevs (Settled_start env coll w Hact))
    as [_ _ _ Hq].
  rewrite Forall_forall in Hq. by apply Hq.
Qed.

Lemma fixed_index_buffer_clean_witness :
  ¬ occurs_in (js "dev1")
      (toLowerCase
         (buffer (vars (run [KeyDown (press 32); KeyDown (press 18);
                             KeyDown (press 47)]
                          (startKeyListener fair_start dev_snippets
                             quiet_world))))).
Proof.
  assert (js "dev1" ∈ shortcutList
            (vars (run [KeyDown (press 32); KeyDown (press 18);
                        KeyDown (press 47)]
                     (startKeyListener fair_start dev_snippets quiet_world))))
    as Hk.
  { apply list_elem_of_In. vm_compute. right. by left. }
  exact (proj2 (fixed_index_buffer_clean fair_start dev_snippets quiet_world
                  [KeyDown (press 32); KeyDown (press 18); KeyDown (press 47)]
                  (js "dev1") eq_refl eq_refl Hk ltac:(done))).
Defined.

Lemma inner_shortcut_wins_witness :
  dev1_queued ∈ immediates quiet_world ∨
  ∃ s, imm_snippet dev1_queued = Some s ∧ s ∈ dev_snippets ∧
       ¬ inside (build_list (build_map dev_snippets))
           (toLowerCase (shortcut s)).
Proof.
  assert (dev1_queued ∈ immediates
            (run [KeyDown (press 32); KeyDown (press 18);
                  KeyDown (press 47); KeyDown (press 2); KeyDown (press 3)]
               (startKeyListener fair_start dev_snippets quiet_world)))
    as Ht.
  { apply list_elem_of_In. vm_compute. by left. }
  exact (inner_shortcut_wins fair_start dev_snippets quiet_world
           [KeyDown (press 32); KeyDown (press 18); KeyDown (press 47);
            KeyDown (press 2); KeyDown (press 3)]
           dev1_queued eq_refl eq_refl Ht).
Defined.

(** ** Stopping the listener *)

Lemma active_uiohook (w : World) :
  Reachable w → active (vars w) = true → uiohook (vars w) = true.
Proof.
  induction 1 as [c d|ev w _ IH]; [done|].
  destruct ev as [env coll|coll| |e|f|i err|rt|f|]; simpl.
  - unfold startKeyListener, generatePopSound.
    destruct (falsy _), (writeFile_throws env); simpl;
      destruct (active (vars w)) eqn:Ha; simpl;
      try (by intros _; apply IH);
      destruct (require_throws env), (start_throws env); simpl;
      rewrite ?Ha; done.
  - done.
  - unfold stopKeyListener.
    destruct (uiohook (vars w)) eqn:Hu, (active (vars w)) eqn:Ha; simpl;
      rewrite ?Hu, ?Ha; done.
  - apply (emit_keydown_ind
             (λ w0, active (vars w0) = true → uiohook (vars w0) = true));
      [|done].
    intros w0 H0. by destruct (keydown_handled e w0).
  - destruct (immediates w) as [|t rest]; [done|].
    by rewrite vars_immediate_callback.
  - destruct (processes w !! i); [|done]. simpl.
    unfold exec_callback. by destruct err.
  - by destruct (timers w).
  - destruct (immediates w) as [|t rest]; [done|].
    by rewrite vars_immediate_callback.
  - by destruct (spawn_errors w).
Qed.

(** X7. In every reachable state [stopKeyListener] leaves the listener
    inactive and changes nothing else: the buffer, the index, the lock, the
    clipboard and the pending callbacks of an expansion in flight stay as
    they are, so that expansion still runs to its end.  A second stop
    changes nothing. *)
Theorem stop_is_idempotent (w : World) :
  Reachable w →
  let w' := stopKeyListener w in
  active (vars w') = false ∧
  w' = on_vars (with_active false) w ∧
  stopKeyListener w' = w'.
Proof.
  intros Hw w'. subst w'. pose proof (active_uiohook w Hw) as Hhook.
  unfold stopKeyListener.
  destruct w as [[b m l u a x p] c d q ps ts tn dt hs se]. simpl in *.
  destruct a, u; simpl; try done. by specialize (Hhook eq_refl).
Qed.

Lemma stop_is_idempotent_witness :
  active (vars (stopKeyListener typed_dev1)) = false ∧
  stopKeyListener typed_dev1 = on_vars (with_active false) typed_dev1 ∧
  stopKeyListener (stopKeyListener typed_dev1) = stopKeyListener typed_dev1.
Proof.
  exact (stop_is_idempotent typed_dev1 (reachable_run _ _ (reach_loaded _ _))).
Defined.

(** ** The lock after an expansion *)

Lemma exec_error_unlocks (w : World) (i : nat) (p : Process) :
  processes w !! i = Some p →
  expanding (vars (world_of (step (ExecDone i true) w))) = false.
Proof. intros Hp. simpl. by rewrite Hp. Qed.

(** X8. Take an expansion that starts when no child process and no timer
    of an earlier expansion is pending, whose write of the expansion text
    does not throw and whose call of [execFile] starts the child process.
    It gives the lock back, whatever else fails: the sound, the reads of the
    snapshot, the synthetic input (the child ending with an error), the
    restore or the usage report.  The immediate callback returns without
    an exception; when the synthetic input fails the lock is free as soon
    as the callback of the child process has run; and once the timer has
    fired the lock is free and no callback of the expansion is left,
    whatever entry points are called in between. *)
Theorem lock_released_after_expansion (w : World) (t : Immediate)
  (rest : list Immediate) (s : Snippet) (f : Faults) (err rt : bool)
  (ks1 ks2 : list Event) :
  immediates w = t :: rest →
  imm_snippet t = Some s →
  processes w = [] →
  timers w = [] →
  writeText_throws f = false →
  forallb foreground ks1 = true →
  forallb foreground ks2 = true →
  let w1 := run ks1 (world_of (step (RunImmediate f) w)) in
  let w2 := world_of (step (ExecDone 0 err) w1) in
  let w3 := world_of (step (TimerFire rt) (run ks2 w2)) in
  (∃ w', step (RunImmediate f) w = Returned w') ∧
  (err = true → expanding (vars w2) = false) ∧
  expanding (vars w3) = false ∧
  processes w3 = [] ∧ timers w3 = [].
Proof.
  intros Himm Hsnip Hproc Htim Hwt Hks1 Hks2 w1 w2 w3.
  destruct (expansion_turns w t rest s f err rt ks1 ks2
              Himm Hsnip Hproc Htim Hwt Hks1 Hks2)
    as (Hret & _ & Hp1 & _ & _ & _ & _ & Hp3 & Ht3 & Hlock).
  split; [by eexists|]. split; [|done].
  intros ->. eapply (exec_error_unlocks w1 0). subst w1. by rewrite Hp1.
Qed.

Lemma lock_released_after_expansion_witness :
  expanding
    (vars (world_of (step (TimerFire true)
       (run [KeyDown (press 32)]
          (world_of (step (ExecDone 0 true)
             (run [KeyDown (press 47)]
                (world_of (step (RunImmediate all_else_fails)
                             typed_dev1))))))))) = false.
Proof.
  assert (immediates typed_dev1 = [dev1_queued]) as Himm
    by (vm_compute; reflexivity).
  assert (processes typed_dev1 = []) as Hproc by (vm_compute; reflexivity).
  assert (timers typed_dev1 = []) as Htim by (vm_compute; reflexivity).
  exact (proj1 (proj2 (proj2
    (lock_released_after_expansion typed_dev1 dev1_queued [] dev1_snippet
       all_else_fails true true [KeyDown (press 47)] [KeyDown (press 32)]
       Himm eq_refl Hproc Htim eq_refl eq_refl eq_refl)))).
Defined.

(** ** The child process that cannot be started *)

Lemma Stuck_clipboard (ev : Event) (w : World) :
  Stuck w → clipboard (world_of (step ev w)) = clipboard w.
Proof.
  intros (Hlock & Himm & Hproc & Htim).
  destruct (foreground ev) eqn:Hfg;
    [by destruct (foreground_step_frame ev w Hfg) as (? & _)|].
  destruct ev as [env coll|coll| |e|f|i err|rt|f|]; try done; simpl.
  - by rewrite Himm.
  - by rewrite Hproc.
  - by rewrite Htim.
  - by rewrite Himm.
  - by destruct (spawn_errors w).
Qed.

Lemma Stuck_clipboard_run (evs : list Event) (w : World) :
  Stuck w → clipboard (run evs w) = clipboard w.
Proof.
  intros Hw. induction evs as [|ev evs IH] using rev_ind; [done|].
  rewrite run_snoc, Stuck_clipboard; [done|by apply Stuck_run].
Qed.

(** X23. When [execFile] throws instead of starting the child process, the
    exception leaves the expansion path: the immediate callback ends with
    an uncaught exception after the expansion text was put on the
    clipboard, and no child process, timer or usage report follows.  For an
    expansion that holds the lock with no other callback pending, the lock
    then stays held and the expansion text stays on the clipboard after
    every later run of events. *)
Theorem execFile_failure_keeps_lock (w : World) (t : Immediate) (s : Snippet)
  (f : Faults) (evs : list Event) :
  immediates w = [t] →
  imm_snippet t = Some s →
  processes w = [] →
  timers w = [] →
  expanding (vars w) = true →
  writeText_throws f = false →
  ∃ w',
    step (RunImmediateNoChild f) w = Threw w' ∧
    Stuck w' ∧
    database w' = database w ∧
    clipboard w' = writeText (body s) ∧
    expanding (vars (run evs w')) = true ∧
    clipboard (run evs w') = writeText (body s).
Proof.
  intros Himm Hsnip Hproc Htim Hlock Hwt.
  assert (∃ w', step (RunImmediateNoChild f) w = Threw w' ∧
                Stuck w' ∧ database w' = database w ∧
                clipboard w' = writeText (body s))
    as (w' & Hstep & Hstuck & Hdb & Hclip).
  { simpl. rewrite Himm. unfold immediate_callback. rewrite Hsnip.
    unfold runExpansion. rewrite Hwt. eexists. split; [done|].
    unfold Stuck, playPopSound.
    by destruct (falsy _), (spawn_throws f), (spawn_fails f). }
  exists w'. split; [done|]. split; [done|]. split; [done|]. split; [done|].
  split.
  - by destruct (Stuck_run evs w' Hstuck).
  - by rewrite Stuck_clipboard_run.
Qed.

Lemma execFile_failure_keeps_lock_witness :
  ∃ w',
    step (RunImmediateNoChild no_faults) typed_dev1 = Threw w' ∧
    expanding (vars (run [KeyDown (press 32); TimerFire false] w')) = true.
Proof.
  assert (immediates typed_dev1 = [dev1_queued]) as Himm
    by (vm_compute; reflexivity).
  assert (processes typed_dev1 = []) as Hproc by (vm_compute; reflexivity).
  assert (timers typed_dev1 = []) as Htim by (vm_compute; reflexivity).
  assert (expanding (vars typed_dev1) = true) as Hlock
    by (vm_compute; reflexivity).
  destruct (execFile_failure_keeps_lock typed_dev1 dev1_queued dev1_snippet
              no_faults [KeyDown (press 32); TimerFire false]
              Himm eq_refl Hproc Htim Hlock eq_refl)
    as (w' & Hstep & _ & _ & _ & Hkept & _).
  exists w'. exact (conj Hstep Hkept).
Defined.

(** ** The pop sound *)

(** X9. The three outcomes of [spawn] in [playPopSound] (it throws, it
    returns a child that cannot be started, it starts the sound) make no
    difference to the immediate callback of an expansion: the callback
    ends the same way (returning or throwing) and leaves the same world but
    for the count of sounds started and the count of spawn errors to come,
    of which it raises one at most by one, and none when no sound file was
    generated.  A spawn error, however, is not caught: when its event
    comes, the turn ends with an uncaught exception. *)
Theorem pop_sound_outcomes (f : Faults) (throws fails : bool) (w : World) :
  let o := step (RunImmediate f) w in
  let o' := step (RunImmediate (with_spawn throws fails f)) w in
  with_spawn_errors 0 (with_tones 0 (world_of o))
    = with_spawn_errors 0 (with_tones 0 (world_of o')) ∧
  ((∃ w1, o = Returned w1) ↔ (∃ w1, o' = Returned w1)) ∧
  tones w + spawn_errors w
    ≤ tones (world_of o) + spawn_errors (world_of o)
    ≤ S (tones w + spawn_errors w) ∧
  tones w ≤ tones (world_of o) ∧
  spawn_errors w ≤ spawn_errors (world_of o) ∧
  (falsy (popSoundPath (vars w)) = true →
   tones (world_of o) = tones w ∧
   spawn_errors (world_of o) = spawn_errors w) ∧
  (∀ w0 n, spawn_errors w0 = S n →
     step SpawnError w0 = Threw (with_spawn_errors n w0)).
Proof.
  split_and!; last (by intros w0 n Hn; simpl; rewrite Hn).
  all: simpl; destruct (immediates w) as [|t rest]; simpl;
    try done; try lia;
    unfold immediate_callback, runExpansion, playPopSound, report_usage;
    (destruct (imm_snippet t) as [s|]; simpl; [|done || lia]);
    destruct (falsy (popSoundPath (vars w))), (spawn_throws f),
      (spawn_fails f), throws, fails, (writeText_throws f), (usage_fault f);
    simpl; try done; try lia;
    split; intros [w1 Hw1]; first [discriminate Hw1 | eexists; reflexivity].
Qed.

Lemma pop_sound_outcomes_witness :
  tones (world_of (step (RunImmediate no_faults) typed_dev1_silent))
    = tones typed_dev1_silent ∧
  spawn_errors (world_of (step (RunImmediate no_faults) typed_dev1_silent))
    = spawn_errors typed_dev1_silent.
Proof.
  assert (falsy (popSoundPath (vars typed_dev1_silent)) = true) as Hpop
    by (vm_compute; reflexivity).
  exact (proj1 (proj2 (proj2 (proj2 (proj2 (proj2
    (pop_sound_outcomes no_faults false false typed_dev1_silent)))))) Hpop).
Defined.

(** ** The clipboard when it holds a picture, and when a call fails *)

(** X10. Take an expansion that starts when no child process and no timer
    of an earlier expansion is pending and whose call of [execFile] starts
    the child process.  When the clipboard holds a non-empty image before
    it, and neither reading the image nor the write of the expansion text
    nor the restore throws, the image is saved with the child process and
    is on the clipboard again after the restore; the text of the clipboard
    is not read at all, so a failing text read does not matter. *)
Theorem image_round_trip (w : World) (t : Immediate) (rest : list Immediate)
  (s : Snippet) (f : Faults) (err : bool) (ks1 ks2 : list Event) :
  immediates w = t :: rest →
  imm_snippet t = Some s →
  processes w = [] →
  timers w = [] →
  isEmpty (image (clipboard w)) = false →
  readImage_throws f = false →
  writeText_throws f = false →
  forallb foreground ks1 = true →
  forallb foreground ks2 = true →
  let w1 := run ks1 (world_of (step (RunImmediate f) w)) in
  let w2 := run ks2 (world_of (step (ExecDone 0 err) w1)) in
  let w3 := world_of (step (TimerFire false) w2) in
  processes w1 =
    [ {| proc_deleteCount := imm_deleteCount t;
         proc_saved := {| savedImage := Some (image (clipboard w));
                          savedText := None |} |} ] ∧
  image (clipboard w3) = image (clipboard w) ∧
  expanding (vars w3) = false.
Proof.
  intros Himm Hsnip Hproc Htim Himg Hri Hwt Hks1 Hks2 w1 w2 w3.
  destruct (expansion_turns w t rest s f err false ks1 ks2
              Himm Hsnip Hproc Htim Hwt Hks1 Hks2)
    as (_ & _ & Hp1 & _ & _ & _ & Hc3 & _ & _ & Hlock).
  assert (save_clipboard f (clipboard w)
          = {| savedImage := Some (image (clipboard w));
               savedText := None |}) as Hsaved.
  { unfold save_clipboard. by rewrite Hri, Himg. }
  rewrite Hsaved in Hp1, Hc3. split; [done|]. split; [|done].
  subst w3 w2 w1. by rewrite Hc3.
Qed.

Lemma image_round_trip_witness :
  image (clipboard
    (world_of (step (TimerFire false)
       (run []
          (world_of (step (ExecDone 0 false)
             (run [KeyDown (press 47)]
                (world_of (step (RunImmediate read_fails)
                             typed_dev1_picture))))))))) = [137; 80; 78; 71]%N.
Proof.
  assert (immediates typed_dev1_picture = [dev1_queued]) as Himm
    by (vm_compute; reflexivity).
  assert (processes typed_dev1_picture = []) as Hproc
    by (vm_compute; reflexivity).
  assert (timers typed_dev1_picture = []) as Htim by (vm_compute; reflexivity).
  assert (isEmpty (image (clipboard typed_dev1_picture)) = false) as Himg
    by (vm_compute; reflexivity).
  assert (image (clipboard typed_dev1_picture) = [137; 80; 78; 71]%N) as Hpic
    by (vm_compute; reflexivity).
  rewrite <- Hpic.
  exact (proj1 (proj2
    (image_round_trip typed_dev1_picture dev1_queued [] dev1_snippet
       read_fails false [KeyDown (press 47)] []
       Himm eq_refl Hproc Htim Himg eq_refl eq_refl eq_refl eq_refl))).
Defined.

(** X11. The degraded ends of an expansion that starts when no child
    process and no timer of an earlier expansion is pending, whose write of
    the expansion text does not throw and whose call of [execFile] starts
    the child process.  If the restore throws, the clipboard keeps the
    expansion text.  If the read of the snapshot throws (the image read, or
    the text read when there is no image) and the restore does not, nothing
    was saved and the restore clears the clipboard.  In both cases the lock
    is released and no callback is left. *)
Theorem degraded_clipboard (w : World) (t : Immediate)
  (rest : list Immediate) (s : Snippet) (f : Faults) (err rt : bool)
  (ks1 ks2 : list Event) :
  immediates w = t :: rest →
  imm_snippet t = Some s →
  processes w = [] →
  timers w = [] →
  writeText_throws f = false →
  forallb foreground ks1 = true →
  forallb foreground ks2 = true →
  let w1 := run ks1 (world_of (step (RunImmediate f) w)) in
  let w2 := run ks2 (world_of (step (ExecDone 0 err) w1)) in
  let w3 := world_of (step (TimerFire rt) w2) in
  (rt = true → clipboard w3 = {| image := []; text := body s |}) ∧
  (rt = false →
   readImage_throws f = true ∨
   isEmpty (image (clipboard w)) = true ∧ readText_throws f = true →
   clipboard w3 = {| image := []; text := [] |}) ∧
  expanding (vars w3) = false ∧ processes w3 = [] ∧ timers w3 = [].
Proof.
  intros Himm Hsnip Hproc Htim Hwt Hks1 Hks2 w1 w2 w3.
  destruct (expansion_turns w t rest s f err rt ks1 ks2
              Himm Hsnip Hproc Htim Hwt Hks1 Hks2)
    as (_ & _ & _ & _ & _ & _ & Hc3 & Hp3 & Ht3 & Hlock).
  split; [|split; [|done]].
  - intros ->. subst w3 w2 w1. by rewrite Hc3.
  - intros -> Hread. subst w3 w2 w1. rewrite Hc3.
    unfold save_clipboard, restore.
    destruct Hread as [->|[-> ->]]; [done|].
    by destruct (readImage_throws f).
Qed.

Lemma degraded_clipboard_witness :
  clipboard
    (world_of (step (TimerFire true)
       (run []
          (world_of (step (ExecDone 0 false)
             (run []
                (world_of (step (RunImmediate no_faults) typed_dev1)))))))) 
  = {| image := []; text := js "first" |}.
Proof.
  assert (immediates typed_dev1 = [dev1_queued]) as Himm
    by (vm_compute; reflexivity).
  assert (processes typed_dev1 = []) as Hproc by (vm_compute; reflexivity).
  assert (timers typed_dev1 = []) as Htim by (vm_compute; reflexivity).
  exact (proj1
    (degraded_clipboard typed_dev1 dev1_queued [] dev1_snippet
       no_faults false true [] []
       Himm eq_refl Hproc Htim eq_refl eq_refl eq_refl) eq_refl).
Defined.

(** ** A typing error put right *)

Lemma removelast_drop_snoc (b : jsstring) (c : ascii) (n : nat) :
  n ≤ length b → removelast (drop n (b ++ [c])) = drop n b.
Proof.
  intros Hn. rewrite drop_app_le by done. by rewrite removelast_last.
Qed.

(** X12. A character typed by mistake and taken back, with one handler
    registered: when the lock is free and the append matches no shortcut,
    a key event with a character followed by a backspace event leaves the
    buffer as it was, so the shortcut being typed can still be completed.
    The exception is the full buffer: an append to a buffer of 50
    characters first cuts it to its last 30, and the backspace then leaves
    the last 29 characters of the old buffer. *)
Theorem backspace_undoes_append (w : World) (e eb : KeyEvent)
  (char : jsstring) :
  handlers w = 1 →
  expanding (vars w) = false →
  keycode e ≠ BACKSPACE →
  keycode eb = BACKSPACE →
  table_get (keycode e) KEYCODE_MAP = Some char →
  lookup_suffix (with_buffer (appended (buffer (vars w)) char) (vars w))
    = None →
  let w2 := run [KeyDown e; KeyDown eb] w in
  (length (buffer (vars w)) < 50 →
   w2 = with_detections (S (detections w)) w) ∧
  (50 ≤ length (buffer (vars w)) →
   buffer (vars w2)
   = drop (length (buffer (vars w)) - 29) (buffer (vars w))) ∧
  immediates w2 = immediates w ∧ expanding (vars w2) = false.
Proof.
  intros Hone Hl Hb Heb Hc Hm w2. subst w2.
  change (run [KeyDown e; KeyDown eb] w)
    with (emit_keydown eb (emit_keydown e w)).
  rewrite (emit_keydown_single e w Hone).
  rewrite (emit_keydown_single eb (keydown e w))
    by (by rewrite (proj1 (keydown_handlers e w))).
  destruct (keydown_handled e w)
    as [?|? ?|? ? ? ?|? ? ? ?|char' _ _ Hc' _|char' m _ _ Hc' Hm'];
    try congruence.
  assert (char' = char) as -> by congruence. clear Hc'.
  set (w1 := with_detections (S (detections w))
               (on_vars (with_buffer (appended (buffer (vars w)) char)) w)).
  assert (expanding (vars w1) = false) as Hl1 by done.
  destruct (keydown_handled eb w1)
    as [?|_ _|? ? ? ?|? ? ? ?|? ? ? ? ?|? ? ? ? ? ?]; try congruence.
  apply KEYCODE_MAP_char in Hc as (c & -> & _).
  subst w1. simpl. unfold appended. simpl. rewrite length_app. simpl.
  split; [|split; [|done]].
  - intros Hlen.
    rewrite (proj2 (Nat.ltb_ge 50 (length (buffer (vars w)) + 1)))
      by lia.
    rewrite removelast_last.
    by destruct w as [[b mp l u a x p] cl d q ps ts tn dt hs se].
  - intros Hlen.
    rewrite (proj2 (Nat.ltb_lt 50 (length (buffer (vars w)) + 1)))
      by lia.
    rewrite removelast_drop_snoc by lia. f_equal. lia.
Qed.

Lemma backspace_undoes_append_witness :
  run [KeyDown (press 45); KeyDown (press BACKSPACE)] typed_a
  = with_detections (S (detections typed_a)) typed_a.
Proof.
  assert (handlers typed_a = 1) as Hone by (vm_compute; reflexivity).
  assert (expanding (vars typed_a) = false) as Hl by (vm_compute; reflexivity).
  assert (lookup_suffix
            (with_buffer (appended (buffer (vars typed_a)) (js "x"))
               (vars typed_a)) = None) as Hm by (vm_compute; reflexivity).
  assert (length (buffer (vars typed_a)) < 50) as Hlen by (vm_compute; lia).
  exact (proj1 (backspace_undoes_append typed_a (press 45) (press BACKSPACE)
                  (js "x") Hone Hl ltac:(done) eq_refl eq_refl Hm) Hlen).
Defined.

(** * Properties of the database module *)

Lemma sum_Z_cons x l : sum_Z (x :: l) = (x + sum_Z l)%Z.
Proof. done. Qed.

Lemma max_key_ge {V} (m : gmap Z V) i :
  is_Some (m !! i) → (i ≤ max_key m)%Z.
Proof.
  intros [x Hx]. unfold max_key.
  apply elem_of_map_to_list in Hx.
  assert (Hi : i ∈ (map_to_list m).*1) by (apply list_elem_of_fmap; by exists (i, x)).
  revert Hi. generalize ((map_to_list m).*1). intros l Hi.
  induction Hi as [|? ? ? ? IH]; cbn [foldr].
  - apply Z.le_max_l.
  - etrans; [by apply IH|apply Z.le_max_r].
Qed.

Lemma next_key_fresh {V} seq (m : gmap Z V) : m !! next_key seq m = None.
Proof.
  destruct (m !! next_key seq m) eqn:E; [|done].
  pose proof (max_key_ge m (next_key seq m) (mk_is_Some _ _ E)).
  unfold next_key in *. lia.
Qed.

Lemma next_key_above {V} seq (m : gmap Z V) : (seq < next_key seq m)%Z.
Proof. unfold next_key. lia. Qed.

Lemma import_category_db st c : db (import_category st c) = db st.
Proof. unfold import_category. by destruct (name_taken _ _). Qed.

Lemma import_categories_db cs st : db (fold_left import_category cs st) = db st.
Proof.
  revert st. induction cs as [|c cs IH]; intros st; simpl; [done|].
  by rewrite IH, import_category_db.
Qed.

Lemma calls_snoc cs c st : calls (cs ++ [c]) st = call c (calls cs st).
Proof. unfold calls. by rewrite fold_left_app. Qed.

Lemma Grows_refl st : Grows st st.
Proof. split; [lia|]. intros; by left. Qed.

Lemma Grows_trans st1 st2 st3 : Grows st1 st2 → Grows st2 st3 → Grows st1 st3.
Proof.
  intros [H1 K1] [H2 K2]. split; [lia|]. intros j Hj.
  destruct (K2 j Hj) as [Hj2|Hj2]; [|right; lia].
  destruct (K1 j Hj2) as [Hj1|Hj1]; [by left|right; lia].
Qed.

Lemma Grows_same st st' :
  snippets_seq st' = snippets_seq st →
  (∀ j, is_Some (snippets (db st') !! j) → is_Some (snippets (db st) !! j)) →
  Grows st st'.
Proof. intros Hs H. split; [lia|]. intros j Hj. left. by apply H. Qed.

Lemma Grows_add_row row st : Grows st (add_row row st).
Proof.
  pose proof (next_key_above (snippets_seq st) (snippets (db st))).
  unfold add_row. split; store_simpl; [lia|]. intros j Hj.
  destruct (decide (j = next_key (snippets_seq st) (snippets (db st)))) as [->|Hne].
  - right. lia.
  - left. by rewrite lookup_insert_ne in Hj.
Qed.

Lemma Grows_insert s t b c st r :
  insert_snippet s t b c st = r → Grows st (store_of r).
Proof.
  unfold insert_snippet. intros <-. destruct (shortcut_taken _ _); simpl.
  - apply Grows_refl.
  - apply Grows_add_row.
Qed.

Lemma Grows_import_snippet acc s : Grows acc.1 (import_snippet acc s).1.
Proof.
  destruct acc as [st n]. unfold import_snippet. simpl.
  destruct (_ || _); [apply Grows_refl|].
  destruct (shortcut_taken _ _); [apply Grows_refl|].
  destruct (insert_snippet _ _ _ _ st) eqn:E; [|apply Grows_refl].
  apply (Grows_insert _ _ _ _ _ _ E).
Qed.

Lemma Grows_import_snippets items acc :
  Grows acc.1 (fold_left import_snippet items acc).1.
Proof.
  revert acc. induction items as [|s items IH]; intros acc; simpl.
  - apply Grows_refl.
  - eapply Grows_trans; [apply Grows_import_snippet|apply IH].
Qed.

Lemma import_categories_seq cs st :
  snippets_seq (fold_left import_category cs st) = snippets_seq st.
Proof.
  revert st. induction cs as [|c cs IH]; intros st; simpl; [done|].
  rewrite IH. unfold import_category. by destruct (name_taken _ _).
Qed.

Lemma Grows_call c st : Grows st (call c st).
Proof.
  destruct c; cbn [call].
  - unfold createSnippet.
    destruct (insert_snippet _ _ _ _ st) eqn:E;
      apply (Grows_insert _ _ _ _ _ _ E).
  - unfold updateSnippet.
    destruct (snippets (db st) !! i) as [old|] eqn:Ei; [|apply Grows_refl].
    destruct (shortcut_taken _ _); [apply Grows_refl|].
    apply Grows_same; [done|]. store_simpl. intros j.
    destruct (decide (j = i)) as [->|Hne]; [by rewrite Ei|].
    by rewrite lookup_insert_ne.
  - apply Grows_same; [done|]. unfold deleteSnippet. store_simpl. intros j.
    destruct (decide (j = i)) as [->|Hne].
    + rewrite lookup_delete_eq. by intros [? ?].
    + by rewrite lookup_delete_ne.
  - assert (Ha : ∀ j, is_Some (alter bump i (snippets (db st)) !! j) →
                      is_Some (snippets (db st) !! j)).
    { intros j. destruct (decide (j = i)) as [->|Hne].
      - rewrite lookup_alter_eq. by rewrite fmap_is_Some.
      - by rewrite lookup_alter_ne. }
    destruct u; [|apply Grows_refl|apply Grows_same; [done|apply Ha]].
    apply Grows_same; [done|].
    unfold incrementUsage. store_simpl. intros j.
    destruct (alter bump i (snippets (db st)) !! i); apply Ha.
  - destruct stops; [by apply Grows_same|].
    apply Grows_same; [done|]. unfold clearExpansionHistory. store_simpl.
    intros j. by rewrite lookup_fmap, fmap_is_Some.
  - unfold importSnippets.
    eapply Grows_trans; [|apply Grows_import_snippets]. simpl.
    destruct cats; [|apply Grows_refl].
    apply Grows_same; [apply import_categories_seq|].
    by rewrite import_categories_db.
  - unfold createCategory. destruct (name_taken _ _); [apply Grows_refl|].
    by apply Grows_same.
  - unfold deleteCategory.
    destruct stops, (categories st !! i) as [cat|];
      try apply Grows_refl; try (by apply Grows_same);
      (case_bool_decide; [apply Grows_refl|]);
      (apply Grows_same; [done|]); store_simpl; intros j;
      by rewrite lookup_fmap, fmap_is_Some.
  - unfold renameCategory. destruct (categories st !! i) as [cat|]; [|apply Grows_refl].
    destruct (name_taken _ _); (apply Grows_same; [done|]); store_simpl;
      intros j; by rewrite lookup_fmap, fmap_is_Some.
Qed.

Lemma Grows_calls cs st : Grows st (calls cs st).
Proof.
  induction cs as [|c cs IH] using rev_ind; [apply Grows_refl|].
  rewrite calls_snoc. eapply Grows_trans; [apply IH|apply Grows_call].
Qed.

Lemma calls_app cs1 cs2 st : calls (cs1 ++ cs2) st = calls cs2 (calls cs1 st).
Proof. unfold calls. by rewrite fold_left_app. Qed.

Lemma Sequenced_calls fk cs : Sequenced (calls cs (fresh fk)).
Proof.
  intros i Hi. destruct (Grows_calls cs (fresh fk)) as [_ H].
  destruct (H i Hi) as [[? Hf]|Hf]; [done|lia].
Qed.

Lemma alter_absent (f : Row → Row) i (m : gmap Z Row) :
  m !! i = None → alter f i m = m.
Proof.
  intros Hi. apply map_eq. intros j. destruct (decide (j = i)) as [->|Hne].
  - by rewrite lookup_alter_eq, Hi.
  - by rewrite lookup_alter_ne.
Qed.

Lemma incrementUsage_absent i d :
  snippets d !! i = None → incrementUsage i d = d.
Proof.
  intros Hi. unfold incrementUsage, update_usage.
  store_simpl. rewrite alter_absent by done. rewrite Hi. by destruct d.
Qed.

(** X14. The key of a deleted snippet is never given to a later snippet:
    after the deletion, whatever calls follow, no row has that key, and a
    usage report that still carries it (from a key listener that holds the
    old collection) changes nothing. *)
Theorem deleted_id_not_reused (fk : bool) (cs1 cs2 : list Call) (i : Z) :
  is_Some (snippets (db (calls cs1 (fresh fk))) !! i) →
  let st := calls (cs1 ++ DeleteSnippet i :: cs2) (fresh fk) in
  snippets (db st) !! i = None ∧ incrementUsage i (db st) = db st.
Proof.
  intros Hi st.
  assert (Hnone : snippets (db st) !! i = None).
  { subst st. rewrite calls_app.
    change (calls (DeleteSnippet i :: cs2) ?s)
      with (calls cs2 (deleteSnippet i s)).
    set (st1 := calls cs1 (fresh fk)) in *.
    pose proof (Sequenced_calls fk cs1 i Hi) as Hle. fold st1 in Hle.
    destruct (Grows_calls cs2 (deleteSnippet i st1)) as [_ H].
    destruct (snippets (db (calls cs2 (deleteSnippet i st1))) !! i) eqn:E; [|done].
    destruct (H i (mk_is_Some _ _ E)) as [[? Hf]|Hf].
    - unfold deleteSnippet in Hf. revert Hf. store_simpl.
      by rewrite lookup_delete_eq.
    - unfold deleteSnippet in Hf. revert Hf. store_simpl. lia. }
  split; [done|]. by apply incrementUsage_absent.
Qed.

Lemma shortcut_taken_spec s (m : gmap Z Row) :
  shortcut_taken s m = true ↔ ∃ i r, m !! i = Some r ∧ row_shortcut r = s.
Proof.
  unfold shortcut_taken. by rewrite bool_decide_eq_true, map_Exists_lookup.
Qed.

Lemma name_taken_spec n (m : gmap Z Category) :
  name_taken n m = true ↔ ∃ i c, m !! i = Some c ∧ cat_name c = n.
Proof.
  unfold name_taken. by rewrite bool_decide_eq_true, map_Exists_lookup.
Qed.

Lemma add_row_lookup row st i r :
  snippets (db st) !! i = Some r → snippets (db (add_row row st)) !! i = Some r.
Proof.
  intros Hi. unfold add_row. store_simpl. rewrite lookup_insert_ne; [done|].
  intros <-. by rewrite next_key_fresh in Hi.
Qed.

Lemma add_row_taken row st :
  shortcut_taken (row_shortcut row) (snippets (db (add_row row st))) = true.
Proof.
  apply shortcut_taken_spec. eexists _, row. split; [|done].
  unfold add_row. store_simpl. apply lookup_insert_eq.
Qed.

Lemma add_row_size row st :
  size (snippets (db (add_row row st))) = S (size (snippets (db st))).
Proof.
  unfold add_row. store_simpl. apply map_size_insert_None, next_key_fresh.
Qed.

(** The rows an import may add: those of the file, with a usage count of 0
    and the default category where the file gives none. *)
Lemma import_snippet_spec st n s :
  let '(st', n') := import_snippet (st, n) s in
  (st' = st ∧ n' = n ∧
   (blank (in_shortcut s) || blank (in_title s) || blank (in_body s) = true ∨
    shortcut_taken (default [] (in_shortcut s)) (snippets (db st)) = true)) ∨
  (st' = add_row {| row_shortcut := default [] (in_shortcut s);
                    row_title := default [] (in_title s);
                    row_body := default [] (in_body s);
                    row_category := or_default (in_category s) (js "General");
                    usage_count := 0 |} st ∧
   n' = S n ∧
   blank (in_shortcut s) || blank (in_title s) || blank (in_body s) = false ∧
   shortcut_taken (default [] (in_shortcut s)) (snippets (db st)) = false).
Proof.
  unfold import_snippet, insert_snippet.
  destruct (_ || _) eqn:Eb; [left; auto|].
  destruct (shortcut_taken _ _) eqn:Et; [left; auto|].
  right; auto.
Qed.

Lemma import_snippet_taken st n s :
  blank (in_shortcut s) || blank (in_title s) || blank (in_body s) = false →
  shortcut_taken (default [] (in_shortcut s))
    (snippets (db (import_snippet (st, n) s).1)) = true.
Proof.
  intros Hb. pose proof (import_snippet_spec st n s) as H.
  destruct (import_snippet (st, n) s) as [st' n'].
  destruct H as [(-> & _ & [H|H])|(-> & _)]; simpl.
  - congruence.
  - done.
  - apply (add_row_taken {| row_shortcut := default [] (in_shortcut s) |}).
Qed.

Lemma or_default_ne x d : d ≠ [] → or_default x d ≠ [].
Proof. by destruct x as [[|]|]. Qed.

Lemma Extends_refl a : Extends a a.
Proof. unfold Extends. split_and!; auto. intros; congruence. Qed.

Lemma Extends_trans a b c : Extends a b → Extends b c → Extends a c.
Proof.
  intros (H1 & H2 & H3 & H4 & H5 & H6) (K1 & K2 & K3 & K4 & K5 & K6).
  split_and!; [auto| |lia|lia|congruence|congruence].
  intros i r Hc Ha. destruct (snippets (db b.1) !! i) as [r'|] eqn:Eb.
  - rewrite (K1 _ _ Eb) in Hc. injection Hc as <-. by apply (H2 i).
  - by apply (K2 i).
Qed.

Lemma Extends_import_snippet acc s : Extends acc (import_snippet acc s).
Proof.
  destruct acc as [st n]. pose proof (import_snippet_spec st n s) as H.
  destruct (import_snippet (st, n) s) as [st' n'].
  destruct H as [(-> & -> & _)|(-> & -> & _)]; [apply Extends_refl|].
  split_and!; cbn [fst snd].
  - intros i r. apply add_row_lookup.
  - intros i r. unfold add_row. store_simpl. intros Hi Hn.
    destruct (decide (i = next_key (snippets_seq st) (snippets (db st)))) as [->|Hne].
    + rewrite lookup_insert_eq in Hi. injection Hi as <-. simpl.
      split; [done|]. by apply or_default_ne.
    + rewrite lookup_insert_ne in Hi by done. congruence.
  - rewrite add_row_size. lia.
  - lia.
  - done.
  - done.
Qed.

Lemma Extends_import_snippets items acc :
  Extends acc (fold_left import_snippet items acc).
Proof.
  revert acc. induction items as [|s items IH]; intros acc; simpl.
  - apply Extends_refl.
  - eapply Extends_trans; [apply Extends_import_snippet|apply IH].
Qed.

Lemma import_snippets_count items acc :
  (fold_left import_snippet items acc).2 ≤ acc.2 + length items.
Proof.
  revert acc. induction items as [|s items IH]; intros acc; simpl; [lia|].
  etrans; [apply IH|]. destruct acc as [st n].
  pose proof (import_snippet_spec st n s) as H.
  destruct (import_snippet (st, n) s) as [st' n'].
  destruct H as [(_ & -> & _)|(_ & -> & _)]; simpl; lia.
Qed.

(** X15. An import only adds: every row that was there is still there,
    unchanged; the rows it adds have a usage count of 0 and a category; the
    table grows by [count], which is at most the number of entries of the
    file; the expansion log is as before. *)
Theorem import_only_adds (cats : option (list ImportedCategory))
  (items : list ImportedSnippet) (st : Store) :
  let st' := (importSnippets cats items st).1 in
  let count := (importSnippets cats items st).2 in
  (∀ i r, snippets (db st) !! i = Some r → snippets (db st') !! i = Some r) ∧
  (∀ i r, snippets (db st') !! i = Some r → snippets (db st) !! i = None →
     usage_count r = 0%Z ∧ row_category r ≠ []) ∧
  size (snippets (db st')) = size (snippets (db st)) + count ∧
  count ≤ length items ∧
  expansion_log (db st') = expansion_log (db st).
Proof.
  intros st' count. subst st' count. unfold importSnippets.
  set (st1 := match cats with Some cs => fold_left import_category cs st
              | None => st end).
  assert (Hdb : db st1 = db st).
  { subst st1. destruct cats; [apply import_categories_db|done]. }
  destruct (Extends_import_snippets items (st1, 0))
    as (H1 & H2 & H3 & _ & H5 & _).
  pose proof (import_snippets_count items (st1, 0)) as H4.
  simpl in *. rewrite Hdb in *. split_and!; auto; lia.
Qed.

Lemma import_snippets_taken_mono items acc s :
  shortcut_taken s (snippets (db acc.1)) = true →
  shortcut_taken s (snippets (db (fold_left import_snippet items acc).1)) = true.
Proof.
  rewrite !shortcut_taken_spec. intros (i & r & Hi & Hr).
  destruct (Extends_import_snippets items acc) as (H & _).
  exists i, r. split; [by apply H|done].
Qed.

Lemma import_snippets_all_taken items acc s :
  s ∈ items →
  blank (in_shortcut s) || blank (in_title s) || blank (in_body s) = true ∨
  shortcut_taken (default [] (in_shortcut s))
    (snippets (db (fold_left import_snippet items acc).1)) = true.
Proof.
  revert acc. induction items as [|s' items IH]; intros acc Hs.
  - by apply elem_of_nil in Hs.
  - apply elem_of_cons in Hs as [->|Hs]; simpl; [|by apply IH].
    destruct (blank (in_shortcut s') || blank (in_title s') || blank (in_body s'))
      eqn:Eb; [by left|right].
    apply import_snippets_taken_mono. destruct acc as [st n].
    by apply import_snippet_taken.
Qed.

Lemma import_snippets_skip items st n :
  (∀ s, s ∈ items →
     blank (in_shortcut s) || blank (in_title s) || blank (in_body s) = true ∨
     shortcut_taken (default [] (in_shortcut s)) (snippets (db st)) = true) →
  fold_left import_snippet items (st, n) = (st, n).
Proof.
  revert st n. induction items as [|s items IH]; intros st n H; [done|].
  cbn [fold_left].
  pose proof (import_snippet_spec st n s) as Hs.
  destruct (import_snippet (st, n) s) as [st' n'].
  destruct Hs as [(-> & -> & _)|(_ & _ & Hb & Ht)].
  - apply IH. intros s' Hs'. apply H. by right.
  - destruct (H s) as [K|K]; [by left|congruence..].
Qed.

Lemma add_category_taken n c st n' :
  name_taken n' (categories st) = true →
  name_taken n' (categories (add_category n c st)) = true.
Proof.
  rewrite !name_taken_spec. intros (i & x & Hi & Hx). exists i, x.
  split; [|done]. unfold add_category. store_simpl.
  rewrite lookup_insert_ne; [done|]. intros <-. by rewrite next_key_fresh in Hi.
Qed.

Lemma import_category_taken_mono st c n :
  name_taken n (categories st) = true →
  name_taken n (categories (import_category st c)) = true.
Proof.
  intros H. unfold import_category. destruct (name_taken (in_name c) _); [done|].
  by apply add_category_taken.
Qed.

Lemma import_categories_taken_mono cs st n :
  name_taken n (categories st) = true →
  name_taken n (categories (fold_left import_category cs st)) = true.
Proof.
  revert st. induction cs as [|c cs IH]; intros st H; simpl; [done|].
  by apply IH, import_category_taken_mono.
Qed.

Lemma import_categories_all_taken cs st c :
  c ∈ cs →
  name_taken (in_name c) (categories (fold_left import_category cs st)) = true.
Proof.
  revert st. induction cs as [|c' cs IH]; intros st Hc.
  - by apply elem_of_nil in Hc.
  - apply elem_of_cons in Hc as [->|Hc]; simpl; [|by apply IH].
    apply import_categories_taken_mono. unfold import_category.
    destruct (name_taken (in_name c') (categories st)) eqn:E; [done|].
    apply name_taken_spec. eexists _, _. split.
    + unfold add_category. store_simpl. apply lookup_insert_eq.
    + done.
Qed.

Lemma import_categories_skip cs st :
  (∀ c, c ∈ cs → name_taken (in_name c) (categories st) = true) →
  fold_left import_category cs st = st.
Proof.
  induction cs as [|c cs IH]; intros H; simpl; [done|].
  unfold import_category at 2. rewrite (H c) by left.
  apply IH. intros c' Hc'. apply H. by right.
Qed.

(** X16. Importing the same file a second time changes nothing and
    reports a count of 0. *)
Theorem import_twice (cats : option (list ImportedCategory))
  (items : list ImportedSnippet) (st : Store) :
  let st1 := (importSnippets cats items st).1 in
  importSnippets cats items st1 = (st1, 0).
Proof.
  intros st1. subst st1. unfold importSnippets.
  set (st0 := match cats with Some cs => fold_left import_category cs st
              | None => st end).
  set (st1 := (fold_left import_snippet items (st0, 0)).1).
  assert (Hcat : match cats with Some cs => fold_left import_category cs st1
                 | None => st1 end = st1).
  { destruct cats as [cs|]; [|done].
    apply import_categories_skip. intros c Hc.
    destruct (Extends_import_snippets items (st0, 0)) as (_ & _ & _ & _ & _ & E).
    subst st1. rewrite E. simpl. subst st0.
    by apply import_categories_all_taken. }
  rewrite Hcat. apply import_snippets_skip.
  intros s Hs. by apply import_snippets_all_taken.
Qed.

Lemma sort_insert_by_key x l :
  StronglySorted by_key l → x.1 ∉ l.*1 →
  StronglySorted by_key (sort_insert key_order x l).
Proof.
  induction 1 as [|y l Hs IH Hy]; intros Hx; cbn [sort_insert].
  - repeat constructor.
  - rewrite fmap_cons, not_elem_of_cons in Hx. destruct Hx as [Hxy Hx].
    unfold key_order at 1.
    destruct (Z.ltb_spec 0 (x.1 - y.1)) as [Hlt|Hge].
    + constructor; [by apply IH|].
      apply Forall_forall. intros z Hz.
      apply (elem_of_Permutation_proper z _ _ (sort_insert_perm _ x l)) in Hz.
      apply elem_of_cons in Hz as [->|Hz].
      * unfold by_key. lia.
      * by eapply Forall_forall in Hy.
    + assert (Hxy' : by_key x y) by (unfold by_key; lia).
      constructor; [by constructor|].
      constructor; [done|].
      eapply Forall_impl; [exact Hy|]. unfold by_key in *. intros; lia.
Qed.

Lemma Array_sort_by_key l :
  NoDup l.*1 → StronglySorted by_key (Array_sort key_order l).
Proof.
  induction l as [|x l IH]; intros Hnd; cbn [Array_sort foldr].
  - constructor.
  - rewrite fmap_cons in Hnd. apply NoDup_cons in Hnd as [Hx Hnd].
    apply sort_insert_by_key; [by apply IH|].
    fold (Array_sort key_order l). by rewrite Array_sort_perm.
Qed.

Lemma order_unique l k :
  l ≡ₚ k → NoDup l.*1 → StronglySorted by_key k → Array_sort key_order l = k.
Proof.
  intros Hp Hnd Hk. apply (StronglySorted_unique_strong by_key).
  - unfold by_key. intros; lia.
  - by apply Array_sort_by_key.
  - done.
  - by rewrite Array_sort_perm.
Qed.

Lemma export_add_row row st :
  exportAllSnippets (add_row row st) = exportAllSnippets st ++ [exported row].
Proof.
  unfold exportAllSnippets, add_row. store_simpl.
  set (m := snippets (db st)). set (i := next_key (snippets_seq st) m).
  rewrite (order_unique _ (Array_sort key_order (map_to_list m) ++ [(i, row)])).
  - by rewrite fmap_app.
  - rewrite map_to_list_insert by apply next_key_fresh.
    rewrite Array_sort_perm. by rewrite Permutation_cons_append.
  - apply NoDup_fst_map_to_list.
  - apply StronglySorted_app_2.
    + intros [j r] x Hj Hx. apply list_elem_of_singleton in Hx as ->.
      apply elem_of_Array_sort, elem_of_map_to_list in Hj.
      pose proof (max_key_ge m j (mk_is_Some _ _ Hj)).
      unfold by_key, i, next_key. simpl. lia.
    + apply Array_sort_by_key, NoDup_fst_map_to_list.
    + repeat constructor.
Qed.

Lemma add_row_taken_iff row st s :
  shortcut_taken s (snippets (db (add_row row st))) = true ↔
  row_shortcut row = s ∨ shortcut_taken s (snippets (db st)) = true.
Proof.
  rewrite !shortcut_taken_spec. unfold add_row. store_simpl. split.
  - intros (i & r & Hi & Hr).
    destruct (decide (i = next_key (snippets_seq st) (snippets (db st)))) as [->|Hne].
    + rewrite lookup_insert_eq in Hi. injection Hi as <-. by left.
    + rewrite lookup_insert_ne in Hi by done. right. by exists i, r.
  - intros [<-|(i & r & Hi & Hr)].
    + eexists _, row. split; [apply lookup_insert_eq|done].
    + exists i, r. split; [|done]. rewrite lookup_insert_ne; [done|].
      intros <-. by rewrite next_key_fresh in Hi.
Qed.

Lemma exported_complete r :
  complete r →
  exported {| row_shortcut := row_shortcut r; row_title := row_title r;
              row_body := row_body r;
              row_category := or_default (Some (row_category r)) (js "General");
              usage_count := 0 |} = exported r.
Proof.
  intros (_ & _ & _ & Hc). unfold exported. simpl.
  by destruct (row_category r).
Qed.

Lemma not_blank s : s ≠ [] → blank (Some s) = false.
Proof. by destruct s. Qed.

Lemma import_rows rows st n :
  Forall complete rows →
  NoDup (row_shortcut <$> rows) →
  (∀ r, r ∈ rows → shortcut_taken (row_shortcut r) (snippets (db st)) = false) →
  let res := fold_left import_snippet ((reimported ∘ exported) <$> rows) (st, n) in
  res.2 = n + length rows ∧
  exportAllSnippets res.1 = exportAllSnippets st ++ (exported <$> rows).
Proof.
  revert st n. induction rows as [|r rows IH]; intros st n Hc Hnd Hfree res.
  - subst res. simpl. by rewrite app_nil_r.
  - subst res. rewrite fmap_cons. cbn [fold_left].
    apply Forall_cons in Hc as [Hr Hc].
    rewrite fmap_cons in Hnd. apply NoDup_cons in Hnd as [Hnew Hnd].
    pose proof (import_snippet_spec st n ((reimported ∘ exported) r)) as H.
    destruct (import_snippet (st, n) ((reimported ∘ exported) r)) as [st' n'].
    destruct Hr as (H1 & H2 & H3 & H4).
    cbn [compose reimported exported form_shortcut form_title form_body
         form_category in_shortcut in_title in_body in_category default
         from_option Datatypes.id] in H.
    destruct H as [(_ & _ & [H|H])|(-> & -> & _ & _)].
    + rewrite !not_blank in H by done. done.
    + rewrite Hfree in H by left. done.
    + destruct (IH (add_row
         {| row_shortcut := row_shortcut r; row_title := row_title r;
            row_body := row_body r;
            row_category := or_default (Some (row_category r)) (js "General");
            usage_count := 0 |} st) (S n) Hc Hnd) as [K1 K2].
      * intros r' Hr'. apply not_true_is_false.
        rewrite add_row_taken_iff. cbn [row_shortcut]. intros [E|E].
        -- apply Hnew. rewrite E. by apply list_elem_of_fmap_2.
        -- rewrite Hfree in E by (by right). done.
      * split.
        -- rewrite K1. simpl. lia.
        -- rewrite K2, export_add_row, exported_complete by done.
           by rewrite <- app_assoc.
Qed.

Lemma export_rows st :
  exportAllSnippets st =
  exported <$> (snd <$> Array_sort key_order (map_to_list (snippets (db st)))).
Proof. unfold exportAllSnippets. by rewrite list_fmap_compose. Qed.

(** X17. A backup can be restored: when every snippet has a shortcut, a
    title, a body and a category, and no two have the same shortcut, then
    importing the exported snippets into a database without snippets
    brings back every one of them ([count] is their number), the export of
    the new database is the export of the old one, and every usage count
    starts again at 0. *)
Theorem export_import_round_trip (st st0 : Store)
  (cats : option (list ImportedCategory)) :
  Unique (snippets (db st)) →
  (∀ i r, snippets (db st) !! i = Some r → complete r) →
  snippets (db st0) = ∅ →
  let res := importSnippets cats (reimported <$> exportAllSnippets st) st0 in
  res.2 = size (snippets (db st)) ∧
  exportAllSnippets res.1 = exportAllSnippets st ∧
  (∀ i r, snippets (db res.1) !! i = Some r → usage_count r = 0%Z).
Proof.
  intros Huniq Hcomp Hempty res.
  set (sorted := Array_sort key_order (map_to_list (snippets (db st)))).
  set (st1 := match cats with Some cs => fold_left import_category cs st0
              | None => st0 end).
  assert (Hdb : db st1 = db st0).
  { subst st1. destruct cats; [apply import_categories_db|done]. }
  assert (Hin : ∀ p, p ∈ sorted → snippets (db st) !! p.1 = Some p.2).
  { intros [i r] Hp. by apply elem_of_Array_sort, elem_of_map_to_list in Hp. }
  assert (Hrows : Forall complete (snd <$> sorted)).
  { apply Forall_forall. intros r Hr.
    apply list_elem_of_fmap in Hr as ([i r'] & -> & Hp).
    apply (Hcomp i). by apply (Hin (i, r')). }
  assert (Hnd : NoDup (row_shortcut <$> (snd <$> sorted))).
  { rewrite <- list_fmap_compose. apply NoDup_fmap_2_strong.
    - intros [i r] [j r'] Hp Hq E. simpl in E.
      apply Hin in Hp, Hq. simpl in Hp, Hq.
      assert (i = j) as -> by (by eapply Huniq).
      congruence.
    - unfold sorted. rewrite Array_sort_perm. apply NoDup_map_to_list. }
  destruct (import_rows (snd <$> sorted) st1 0 Hrows Hnd) as [K1 K2].
  { intros r _. apply not_true_is_false. rewrite shortcut_taken_spec.
    rewrite Hdb, Hempty. intros (i & r' & Hi & _). by rewrite lookup_empty in Hi. }
  assert (Hres : res = fold_left import_snippet
                         ((reimported ∘ exported) <$> (snd <$> sorted)) (st1, 0)).
  { subst res. unfold importSnippets. fold st1.
    by rewrite export_rows, <- list_fmap_compose. }
  rewrite Hres. split_and!.
  - rewrite K1, !length_fmap. unfold sorted.
    by rewrite Array_sort_perm, length_map_to_list.
  - rewrite K2, (export_rows st). fold sorted.
    unfold exportAllSnippets. by rewrite Hdb, Hempty, map_to_list_empty.
  - intros i r Hi.
    destruct (Extends_import_snippets
                ((reimported ∘ exported) <$> (snd <$> sorted)) (st1, 0))
      as (_ & H2 & _).
    apply (H2 i r Hi). simpl. by rewrite Hdb, Hempty, lookup_empty.
Qed.

Lemma sum_Z_zero {A} (f : A → Z) l :
  (∀ x, x ∈ l → f x = 0%Z) → sum_Z (f <$> l) = 0%Z.
Proof.
  induction l as [|a l IH]; intros H; [done|].
  rewrite fmap_cons, sum_Z_cons, (H a), IH by (try left; intros; apply H; by right).
  done.
Qed.

Lemma filter_none {A} (P : A → Prop) `{!∀ x, Decision (P x)} (l : list A) :
  (∀ x, x ∈ l → ¬ P x) → filter P l = [].
Proof.
  induction l as [|a l IH]; intros Hl; [done|].
  rewrite filter_cons, decide_False by (apply Hl; left).
  apply IH. intros x Hx. apply Hl. by right.
Qed.

(** X18. Clearing the history empties the log and sets every counter to
    0, so every total of the statistics that counts expansions is 0; the
    snippets themselves are all kept, with their shortcut, title, body and
    category; clearing twice is clearing once. *)
Theorem clear_history_resets (st : Store) :
  let st' := clearExpansionHistory st in
  getStats st' =
    {| totalExpansions := 0; totalCharsExpanded := 0; totalCharsTyped := 0;
       keystrokesSaved := 0; totalSnippets := totalSnippets (getStats st);
       activeSnippets := 0 |} ∧
  exportAllSnippets st' = exportAllSnippets st ∧
  clearExpansionHistory st' = st'.
Proof.
  intros st'. subst st'. split_and!.
  - unfold getStats, clearExpansionHistory. store_simpl.
    assert (Hrows : ∀ r, r ∈ (map_to_list (reset_usage <$> snippets (db st))).*2 →
                         usage_count r = 0%Z).
    { intros r Hr. apply list_elem_of_fmap in Hr as ([i r'] & -> & Hr).
      apply elem_of_map_to_list in Hr. rewrite lookup_fmap in Hr.
      destruct (snippets (db st) !! i); by simplify_eq/=. }
    f_equal.
    + rewrite <- (list_fmap_id ((map_to_list _).*2)) at 1.
      rewrite <- list_fmap_compose. by apply sum_Z_zero.
    + by rewrite !length_fmap, !length_map_to_list, map_size_fmap.
    + rewrite filter_none; [done|].
      intros r Hr. rewrite (Hrows r Hr). lia.
  - unfold exportAllSnippets, clearExpansionHistory. store_simpl.
    rewrite (order_unique _
      (prod_map Datatypes.id reset_usage <$>
         Array_sort key_order (map_to_list (snippets (db st))))).
    + rewrite <- list_fmap_compose. apply list_fmap_ext. by intros _ [i []] _.
    + by rewrite map_to_list_fmap, Array_sort_perm.
    + apply NoDup_fst_map_to_list.
    + pose proof (Array_sort_by_key (map_to_list (snippets (db st)))
                    (NoDup_fst_map_to_list _)) as Hs.
      induction Hs as [|p l Hs IH Hp]; [constructor|].
      rewrite fmap_cons. constructor; [done|].
      apply Forall_fmap. eapply Forall_impl; [exact Hp|]. by intros [] ?.
  - unfold clearExpansionHistory, with_db. store_simpl.
    assert (E : reset_usage <$> (reset_usage <$> snippets (db st)) =
                reset_usage <$> snippets (db st)).
    { rewrite <- map_fmap_compose. apply map_fmap_ext. by intros _ [] _. }
    by rewrite E.
Qed.

Lemma recategorise_ne old new r :
  new ≠ old → row_category (recategorise old new r) ≠ old.
Proof. intros Hne. unfold recategorise. by case_bool_decide. Qed.

(** X19. Deleting a category: [General] is refused and nothing changes;
    any other category is removed and its snippets are moved to [General],
    so that no snippet is lost, none is left in the deleted category and
    the snippets of other categories are untouched. *)
Theorem deleteCategory_moves_snippets (i : Z) (st : Store) (cat : Category) :
  categories st !! i = Some cat →
  let reply := (deleteCategory i st).1 in
  let st' := (deleteCategory i st).2 in
  if bool_decide (cat_name cat = js "General")
  then reply = Refused ∧ st' = st
  else reply = Success ∧
       categories st' = delete i (categories st) ∧
       expansion_log (db st') = expansion_log (db st) ∧
       (∀ j, snippets (db st') !! j =
             recategorise (cat_name cat) (js "General")
               <$> snippets (db st) !! j) ∧
       (∀ j r, snippets (db st') !! j = Some r →
               row_category r ≠ cat_name cat) ∧
       (∀ j r, snippets (db st) !! j = Some r →
               row_category r ≠ cat_name cat →
               snippets (db st') !! j = Some r).
Proof.
  intros Hi reply st'. subst reply st'. unfold deleteCategory. rewrite Hi.
  case_bool_decide as Hg; [done|]. store_simpl.
  split_and!; try done.
  - intros j. by rewrite lookup_fmap.
  - intros j r. rewrite lookup_fmap.
    destruct (snippets (db st) !! j) as [r0|]; [|done]. intros [= <-].
    apply recategorise_ne. intros E. by apply Hg.
  - intros j r Hr Hne. rewrite lookup_fmap, Hr. simpl.
    unfold recategorise. by rewrite bool_decide_eq_false_2.
Qed.

(** X20. Renaming a category to the name of another one fails, but not
    cleanly: the call throws and the category keeps its name, yet its
    snippets have already been moved to the other category. *)
Theorem rename_onto_taken_name (i j : Z) (newName : jsstring) (st : Store)
  (cat other : Category) :
  categories st !! i = Some cat →
  categories st !! j = Some other →
  i ≠ j →
  cat_name other = trim newName →
  ∃ st', renameCategory i newName st = Throws st' ∧
    categories st' = categories st ∧
    (∀ k r, snippets (db st) !! k = Some r →
       row_category r = cat_name cat →
       ∃ r', snippets (db st') !! k = Some r' ∧
             row_category r' = cat_name other ∧
             row_shortcut r' = row_shortcut r) ∧
    (∀ k r, snippets (db st) !! k = Some r →
       row_category r ≠ cat_name cat →
       snippets (db st') !! k = Some r).
Proof.
  intros Hi Hj Hne Hname. unfold renameCategory. rewrite Hi.
  assert (Ht : name_taken (trim newName)
                 (delete i (categories
                    (move_snippets (cat_name cat) (trim newName) st))) = true).
  { apply name_taken_spec. exists j, other. split; [|done].
    store_simpl. by rewrite lookup_delete_ne. }
  rewrite Ht. eexists. split; [done|]. store_simpl. split_and!; [done| |].
  - intros k r Hk Hc. rewrite lookup_fmap, Hk. simpl. eexists. split; [done|].
    unfold recategorise. rewrite bool_decide_eq_true_2 by done. by simpl.
  - intros k r Hk Hc. rewrite lookup_fmap, Hk. simpl.
    unfold recategorise. by rewrite bool_decide_eq_false_2.
Qed.

(** ** The properties on sample databases *)

Lemma import_only_adds_witness :
  snippets (db two_snippets) !! 1%Z = Some dev1_stored ∧
  snippets (db (importSnippets None sample_file two_snippets).1) !! 1%Z
    = Some dev1_stored.
Proof.
  assert (H : snippets (db two_snippets) !! 1%Z = Some dev1_stored)
    by (vm_compute; reflexivity).
  exact (conj H (proj1 (import_only_adds None sample_file two_snippets)
                   1%Z dev1_stored H)).
Defined.

Lemma two_snippets_tables :
  snippets (db two_snippets) = <[2%Z := sig_stored]> {[ 1%Z := dev1_stored ]} ∧
  categories two_snippets !! 2%Z = Some email_category ∧
  categories two_snippets !! 3%Z = Some work_category.
Proof. by vm_compute. Qed.

Lemma deleted_id_not_reused_witness :
  is_Some (snippets (db (calls [CreateSnippet dev1_form] (fresh true))) !! 1%Z) ∧
  snippets (db (calls ([CreateSnippet dev1_form] ++
                       DeleteSnippet 1 :: [CreateSnippet sig_form])
                  (fresh true))) !! 1%Z = None.
Proof.
  assert (H : snippets (db (calls [CreateSnippet dev1_form] (fresh true))) !! 1%Z
              = Some dev1_stored) by (vm_compute; reflexivity).
  split; [exact (mk_is_Some _ _ H)|].
  exact (proj1 (deleted_id_not_reused true [CreateSnippet dev1_form]
                  [CreateSnippet sig_form] 1 (mk_is_Some _ _ H))).
Defined.

Lemma two_snippets_rows (i : Z) (r : Row) :
  snippets (db two_snippets) !! i = Some r →
  (i = 2%Z ∧ r = sig_stored) ∨ (i = 1%Z ∧ r = dev1_stored).
Proof.
  destruct two_snippets_tables as [-> _].
  rewrite lookup_insert_Some, lookup_singleton_Some.
  intros [[<- <-]|[_ [<- <-]]]; [by left|by right].
Qed.

Lemma two_snippets_unique : Unique (snippets (db two_snippets)).
Proof.
  intros i j r r' Hi Hj Heq.
  apply two_snippets_rows in Hi as [[-> ->]|[-> ->]],
    Hj as [[-> ->]|[-> ->]]; try done; by vm_compute in Heq.
Qed.

Lemma two_snippets_complete (i : Z) (r : Row) :
  snippets (db two_snippets) !! i = Some r → complete r.
Proof.
  intros [[_ ->]|[_ ->]]%two_snippets_rows; by repeat split.
Qed.

Lemma export_import_round_trip_witness :
  exportAllSnippets
    (importSnippets None (reimported <$> exportAllSnippets two_snippets)
       (fresh false)).1
  = exportAllSnippets two_snippets.
Proof.
  exact (proj1 (proj2 (export_import_round_trip two_snippets (fresh false) None
                         two_snippets_unique two_snippets_complete eq_refl))).
Defined.

Lemma deleteCategory_moves_snippets_witness :
  categories two_snippets !! 2%Z = Some email_category ∧
  ∀ j r, snippets (db (deleteCategory 2 two_snippets).2) !! j = Some r →
         row_category r ≠ cat_name email_category.
Proof.
  assert (H : categories two_snippets !! 2%Z = Some email_category)
    by (vm_compute; reflexivity).
  split; [exact H|].
  exact (proj1 (proj2 (proj2 (proj2 (proj2
           (deleteCategory_moves_snippets 2 two_snippets email_category H)))))).
Defined.

Lemma rename_onto_taken_name_witness :
  ∃ st', renameCategory 2 (js "Work ") two_snippets = Throws st' ∧
         categories st' = categories two_snippets.
Proof.
  assert (Hi : categories two_snippets !! 2%Z = Some email_category)
    by (vm_compute; reflexivity).
  assert (Hj : categories two_snippets !! 3%Z = Some work_category)
    by (vm_compute; reflexivity).
  assert (Hne : 2%Z ≠ 3%Z) by discriminate.
  assert (Hname : cat_name work_category = trim (js "Work "))
    by (vm_compute; reflexivity).
  destruct (rename_onto_taken_name 2 3 (js "Work ") two_snippets
              email_category work_category Hi Hj Hne Hname)
    as (st' & Hthrow & Hcats & _).
  exists st'. exact (conj Hthrow Hcats).
Defined.

(** * The key listener on what the database accepts *)

Lemma build_map_shadowed (l1 l2 l3 : list Snippet) (a b : Snippet)
  (key : jsstring) :
  toLowerCase (shortcut a) = toLowerCase (shortcut b) →
  a ∉ l2 ++ b :: l3 →
  obj_get key (build_map (l1 ++ a :: l2 ++ b :: l3)) ≠ Some a.
Proof.
  intros Hlow Hlater. rewrite obj_get_build_map.
  case_bool_decide; [done|]. intros Hlast.
  pose proof (last_Some_elem_of _ _ Hlast) as Ha.
  apply list_elem_of_filter in Ha as [Hkey _].
  revert Hlast.
  rewrite (assoc_L (++) l1 [a] (l2 ++ b :: l3) : l1 ++ a :: l2 ++ b :: l3 = _).
  rewrite (assoc_L (++) (l1 ++ [a]) l2 (b :: l3)).
  rewrite filter_app, filter_cons, decide_True by congruence.
  rewrite last_app_cons. intros Hlast.
  apply last_Some_elem_of in Hlast.
  apply Hlater, elem_of_app. right.
  apply elem_of_cons in Hlast as [->|Hlast]; [by left|right].
  by apply list_elem_of_filter in Hlast as [_ ?].
Qed.

(** X21. Shortcuts that differ only in case shadow each other: when the
    collection holds two snippets with the same lower-cased shortcut, no
    key event ever queues an expansion of the one that comes first. *)
Theorem case_twins_shadowed (l1 l2 l3 : list Snippet) (a b : Snippet)
  (e : KeyEvent) (w : World) :
  snippetMap (vars w) = build_map (l1 ++ a :: l2 ++ b :: l3) →
  toLowerCase (shortcut a) = toLowerCase (shortcut b) →
  a ∉ l2 ++ b :: l3 →
  ∀ t, t ∈ immediates (keydown e w) →
       t ∈ immediates w ∨ imm_snippet t ≠ Some a.
Proof.
  intros Hmap Hlow Hlater t.
  destruct (keydown_handled e w) as [| | | |char Hx Hb Hc Hm|char m Hx Hb Hc Hm];
    try (by left).
  cbn. intros [Ht| ->%list_elem_of_singleton]%elem_of_app; [by left|right].
  cbn. unfold lookup_suffix in Hm.
  apply first_suffix_Some in Hm as (_ & key & _ & _ & _ & _ & -> & _).
  cbn. rewrite Hmap. by apply build_map_shadowed.
Qed.

Lemma case_twins_shadowed_witness :
  lower_twin_queued ∈ immediates (keydown (press 2) twins_typed) ∧
  (lower_twin_queued ∈ immediates twins_typed ∨
   imm_snippet lower_twin_queued ≠ Some upper_twin).
Proof.
  assert (Hmap : snippetMap (vars twins_typed)
                 = build_map ([] ++ upper_twin :: [] ++ lower_twin :: []))
    by (vm_compute; reflexivity).
  assert (Hlow : toLowerCase (shortcut upper_twin)
                 = toLowerCase (shortcut lower_twin))
    by (vm_compute; reflexivity).
  assert (Hlater : upper_twin ∉ [] ++ lower_twin :: []).
  { intros H. apply list_elem_of_singleton in H. discriminate H. }
  assert (Ht : lower_twin_queued ∈ immediates (keydown (press 2) twins_typed)).
  { apply list_elem_of_In. vm_compute. by left. }
  split; [exact Ht|].
  exact (case_twins_shadowed [] [] [] upper_twin lower_twin (press 2)
           twins_typed Hmap Hlow Hlater lower_twin_queued Ht).
Defined.

(** * The category badges *)

Lemma startsWith_spec (s p : jsstring) :
  Ui.startsWith s p = true ↔ ∃ b, s = p ++ b.
Proof.
  revert s. induction p as [|c p IH]; intros s; simpl.
  - split; [by exists s|by destruct s].
  - destruct s as [|d s]; simpl.
    + split; [done|]. by intros [b ?].
    + rewrite andb_true_iff, bool_decide_eq_true, IH. split.
      * intros [-> [b ->]]. by exists b.
      * intros [b [= -> ->]]. split; [done|]. by exists b.
Qed.

Lemma includes_spec (s sub : jsstring) :
  Ui.includes s sub = true ↔ occurs_in sub s.
Proof.
  unfold occurs_in. induction s as [|d s IH]; cbn [Ui.includes].
  - rewrite orb_false_r, startsWith_spec. split.
    + intros [b Hb]. by exists [], b.
    + intros (a & b & H). symmetry in H.
      apply app_eq_nil in H as [-> H]. exists b. by rewrite H.
  - rewrite orb_true_iff, startsWith_spec, IH. split.
    + intros [[b Hb]|(a & b & ->)]; [by exists [], b|by exists (d :: a), b].
    + intros ([|d' a] & b & H); simpl in H.
      * left. by exists b.
      * right. injection H as -> ->. by exists a, b.
Qed.

Lemma includes_email (c : jsstring) :
  Ui.includes c (js "email") = true → Ui.includes c (js "mail") = true.
Proof.
  rewrite !includes_spec. intros (a & b & ->).
  exists (a ++ js "e"), b. by rewrite <- !app_assoc.
Qed.

Lemma badge_cases (cat : option jsstring) :
  (Ui.getCategoryClass cat = js "dev" ∧
   Ui.getCategoryColor cat = js "#3b82f6") ∨
  (Ui.getCategoryClass cat = js "email" ∧
   Ui.getCategoryColor cat = js "#ec4899") ∨
  (Ui.getCategoryClass cat = js "personal" ∧
   Ui.getCategoryColor cat = js "#10b981") ∨
  (Ui.getCategoryClass cat = js "general" ∧
   Ui.getCategoryColor cat = js "#6366f1").
Proof.
  unfold Ui.getCategoryClass, Ui.getCategoryColor.
  destruct cat as [[|x cat]|]; [by repeat right..| |by repeat right].
  cbv zeta.
  destruct (Ui.includes _ (js "dev")); [by left|].
  destruct (Ui.includes _ (js "email") || Ui.includes _ (js "mail"));
    [by right; left|].
  destruct (Ui.includes _ (js "personal")); [by right; right; left|].
  by repeat right.
Qed.

(** X22. The snippet list and the dashboard sort every category name into
    the same one of four kinds, so the badge class of the one and the
    badge colour of the other always go together; the kind is [email]
    exactly for the names that contain [mail] and not [dev], whatever the
    case of their letters. *)
Theorem category_badges_agree (a b : option jsstring) :
  (Ui.getCategoryClass a = Ui.getCategoryClass b ↔
   Ui.getCategoryColor a = Ui.getCategoryColor b) ∧
  (Ui.getCategoryClass a = js "email" ↔
   ∃ c, a = Some c ∧
        Ui.includes (toLowerCase c) (js "mail") = true ∧
        Ui.includes (toLowerCase c) (js "dev") = false).
Proof.
  split.
  - destruct (badge_cases a) as [[-> ->]|[[-> ->]|[[-> ->]|[-> ->]]]],
      (badge_cases b) as [[-> ->]|[[-> ->]|[[-> ->]|[-> ->]]]];
      split; intros H; try done; by vm_compute in H.
  - unfold Ui.getCategoryClass. destruct a as [[|x cat]|].
    + split; [intros H; by vm_compute in H|].
      by intros (c & [= <-] & H & _).
    + cbv zeta. split.
      * destruct (Ui.includes _ (js "dev")) eqn:Hdev;
          [intros H; by vm_compute in H|].
        destruct (Ui.includes _ (js "email")) eqn:Hemail.
        -- intros _. eexists. split; [done|]. split; [|done].
           by apply includes_email.
        -- destruct (Ui.includes _ (js "mail")) eqn:Hmail.
           ++ intros _. eexists. by repeat split.
           ++ cbn [orb].
              destruct (Ui.includes (toLowerCase (x :: cat)) (js "personal"));
                intros H; by vm_compute in H.
      * intros (c & [= <-] & Hmail & Hdev). rewrite Hdev, Hmail.
        by rewrite orb_true_r.
    + split; [intros H; by vm_compute in H|]. by intros (c & [=] & _).
Qed.
